(** * JSelectInLoader: the batched relationship loader of jessiql

    A shallow embedding of [jessiql/engine/jselectinloader.py] and the
    properties of its two loading paths.

    - Row dicts are finite maps from column names to values ([gmap]);
      column values are [None], integers and strings.
    - Parent records ("states") are mutable dicts owned by the caller: they
      live in a store (a list), and the loader refers to them by position,
      so that every reference to one parent sees the same record.
    - Python dicts whose iteration order is observable ([data] in both
      loading paths) are insertion-ordered association lists.
    - Exceptions are values of [exn]; the generator
      [fetch_results_and_populate_states] is a computation over the store
      that can raise, and that reports what it does, in order (queries
      executed, fields written, warnings, rows yielded). *)

From Stdlib Require Import ZArith String List Sorted.
From stdpp Require Import base option list gmap strings.

Local Open Scope string_scope.
Local Open Scope list_scope.

(** ** Values *)

(** A column value as the database driver returns it. *)
Inductive scalar :=
| SNone
| SInt (z : Z)
| SStr (s : string).

(** A row mapping as [connection.execute(...).mappings()] yields it, and the
    [dict(row)] made from it. *)
Abbreviation SARow := (gmap string scalar).

(** What a field of a parent record can hold: a column value, or what an
    earlier load has put there (one related row, or a list of them; the
    MANYTOONE path can put [None] inside the list). *)
Inductive value :=
| VScalar (s : scalar)
| VDict (r : SARow)
| VList (l : list (option SARow)).

(** A parent record: [SARowDict] of [jessiql.typing]. *)
Abbreviation SARowDict := (gmap string value).

Abbreviation VNone := (VScalar SNone).
Abbreviation VInt z := (VScalar (SInt z)).
Abbreviation VStr s := (VScalar (SStr s)).

(** A Python tuple of column values, used as a grouping key. *)
Abbreviation key_tuple := (list value).

#[global] Instance scalar_eq_dec : EqDecision scalar.
Proof. solve_decision. Defined.

#[global] Instance value_eq_dec : EqDecision value.
Proof. solve_decision. Defined.

(** ** Exceptions *)

Inductive exn :=
| KeyError (k : string)
| TypeError
| IndexError
| AssertionError
| AttributeError
| ExecutionError (code : Z).

(** The outcome of a call: a value, an exception, or no return at all (the
    driver loop with a chunk size of zero). *)
Inductive result (A : Type) :=
| Ok (a : A)
| Raise (e : exn)
| Hang.

Arguments Ok {A} a.
Arguments Raise {A} e.
Arguments Hang {A}.

#[global] Instance result_ret : MRet result := fun A a => Ok a.

#[global] Instance result_bind : MBind result := fun A B f m =>
  match m with
  | Ok a => f a
  | Raise e => Raise e
  | Hang => Hang
  end.

#[global] Instance result_fmap : FMap result := fun A B f m =>
  match m with
  | Ok a => Ok (f a)
  | Raise e => Raise e
  | Hang => Hang
  end.

(** [tuple(f(x) for x in l)], and list comprehensions that can raise. *)
Fixpoint tuple_of {A B} (f : A -> result B) (l : list A) : result (list B) :=
  match l with
  | [] => Ok []
  | x :: l' => y ← f x; ys ← tuple_of f l'; Ok (y :: ys)
  end.

(** [row[k]] *)
Definition getitem {V} (row : gmap string V) (k : string) : result V :=
  match row !! k with
  | Some v => Ok v
  | None => Raise (KeyError k)
  end.

(** ** Python dicts with observable order *)

Section pydict.
Context {K V : Type} `{EqDecision K}.

(** [d.get(k)] *)
Fixpoint pd_get (k : K) (d : list (K * V)) : option V :=
  match d with
  | [] => None
  | (k', v) :: d' => if decide (k = k') then Some v else pd_get k d'
  end.

(** [d[k] = v]: an existing key keeps its position. *)
Fixpoint pd_set (k : K) (v : V) (d : list (K * V)) : list (K * V) :=
  match d with
  | [] => [(k, v)]
  | (k', v') :: d' =>
      if decide (k = k') then (k, v) :: d' else (k', v') :: pd_set k v d'
  end.

Definition pd_keys (d : list (K * V)) : list K := d.*1.
Definition pd_values (d : list (K * V)) : list V := d.*2.
End pydict.

(** ** The relationship descriptor *)

(** [sa.orm.Mapper], as far as the loader reads it: the [key]s of the
    primary key columns. *)
Record Mapper := { primary_key : list string }.

(** [SelectInLoader._query_info] of SqlAlchemy, as far as the loader reads
    it; columns are given by their [key]. *)
Record query_info_t := {
  load_only_child : bool;
  load_with_join : bool;
  pk_cols : list string;
  zero_idx : bool;
  child_lookup_cols : list string;
}.

Record JSelectInLoader := {
  source_mapper : Mapper;
  target_mapper : Mapper;
  key : string;                  (* self.key *)
  uselist : bool;                    (* self.relation_property.uselist *)
  query_info : query_info_t;
  CHUNKSIZE : nat;
}.

(** ** Key extraction *)

Definition get_primary_key_tuple {V} (mapper : Mapper) (row : gmap string V)
  : result (list V) :=
  tuple_of (getitem row) (primary_key mapper).

Definition get_foreign_key_tuple {V} (row : gmap string V) (qi : query_info_t)
  : result (list V) :=
  tuple_of (getitem row) (pk_cols qi).

(** [None in t] *)
Definition contains_None (t : key_tuple) : bool := bool_decide (VNone ∈ t).

Definition is_scalar (v : value) : bool :=
  match v with VScalar _ => true | _ => false end.

(** [hash(t)]: dicts and lists are unhashable, and so is a tuple holding one. *)
Definition hash_check (t : key_tuple) : result unit :=
  if forallb is_scalar t then Ok tt else Raise TypeError.

(** ** prepare_states *)

(** What [prepare_states] leaves in [self.our_states] and [self.none_states].
    Parent records are referred to by their position in [states]. *)
Inductive prepared :=
| ByKey (our_states : list (key_tuple * list nat)) (none_states : list nat)
| Listed (our_states : list (key_tuple * nat)).

(** [our_states[k].append(i)] on a [defaultdict(list)] *)
Definition dd_append (k : key_tuple) (i : nat) (d : list (key_tuple * list nat))
  : list (key_tuple * list nat) :=
  pd_set k (default [] (pd_get k d) ++ [i]) d.

(** The loop of the MANYTOONE branch, from parent number [i] on. *)
Fixpoint prepare_child (cols : list string) (i : nat) (states : list SARowDict)
    (our : list (key_tuple * list nat)) (none : list nat) : result prepared :=
  match states with
  | [] => Ok (ByKey our none)
  | state_dict :: rest =>
      related_ident ← tuple_of (getitem state_dict) cols;
      if negb (contains_None related_ident) then
        _ ← hash_check related_ident;
        prepare_child cols (S i) rest (dd_append related_ident i our) none
      else
        prepare_child cols (S i) rest our (none ++ [i])
  end.

(** The list comprehension of the ONETOMANY and MANYTOMANY branch. *)
Fixpoint prepare_parent (mapper : Mapper) (i : nat) (states : list SARowDict)
  : result (list (key_tuple * nat)) :=
  match states with
  | [] => Ok []
  | state :: rest =>
      k ← get_primary_key_tuple mapper state;
      l ← prepare_parent mapper (S i) rest;
      Ok ((k, i) :: l)
  end.

Definition prepare_states (self : JSelectInLoader) (states : list SARowDict)
  : result prepared :=
  let qi := query_info self in
  if load_with_join qi then Raise AssertionError else
  if load_only_child qi then
    prepare_child (child_lookup_cols qi) 0 states [] []
  else
    Listed <$> prepare_parent (source_mapper self) 0 states.

(** ** Sorting keys *)

(** [x < y] on column values: integers and strings compare with their own
    kind; everything else is a [TypeError]. *)
Definition value_lt (x y : value) : option bool :=
  match x, y with
  | VInt m, VInt n => Some (m <? n)%Z
  | VStr s, VStr t => Some (String.ltb s t)
  | _, _ => None
  end.

(** [a < b] on tuples: the first position where they differ decides. *)
Fixpoint tuple_lt (a b : key_tuple) : option bool :=
  match a, b with
  | [], [] => Some false
  | [], _ :: _ => Some true
  | _ :: _, [] => Some false
  | x :: a', y :: b' => if decide (x = y) then tuple_lt a' b' else value_lt x y
  end.

Definition tuple_ltb (a b : key_tuple) : bool := default false (tuple_lt a b).

Definition comparable (a b : key_tuple) : bool := bool_decide (is_Some (tuple_lt a b)).

Fixpoint pairwise_comparable (l : list key_tuple) : bool :=
  match l with
  | [] => true
  | a :: l' => forallb (comparable a) l' && forallb (fun b => comparable b a) l'
               && pairwise_comparable l'
  end.

(** Stable insertion: [x] goes before the first element that is not below it. *)
Fixpoint insert_key (x : key_tuple) (l : list key_tuple) : list key_tuple :=
  match l with
  | [] => [x]
  | y :: l' => if tuple_ltb y x then y :: insert_key x l' else x :: y :: l'
  end.

Definition insertion_sort (l : list key_tuple) : list key_tuple := foldr insert_key [] l.

(** [sorted(l)] on a list of key tuples. Python raises [TypeError] as soon as
    its sort compares two keys that have no order; which pairs it compares is
    up to the sorting algorithm, so the embedding raises whenever some two keys
    of the list have no order, and sorts otherwise. *)
Definition sorted (l : list key_tuple) : result (list key_tuple) :=
  if pairwise_comparable l then Ok (insertion_sort l) else Raise TypeError.

(** ** The store of parent records and the generator *)

(** An element of the list bound to [primary_keys]: [key[0]] or [key]. *)
Inductive bound :=
| BScalar (v : value)
| BTuple (t : key_tuple).

#[global] Instance bound_eq_dec : EqDecision bound.
Proof. solve_decision. Defined.

(** What the generator does, in order. *)
Inductive event :=
| EvExecute (primary_keys : list bound)   (* connection.execute(q, {...}) *)
| EvWarn                                  (* sa.util.warn(...) *)
| EvSetItem (i : nat) (k : string) (v : value)  (* states[i][k] = v *)
| EvYield (row : SARow).                  (* yield row *)

#[global] Instance event_eq_dec : EqDecision event.
Proof. solve_decision. Defined.

(** A run of (a part of) the generator from a given store: the store it
    leaves, what it did, in order, and how it ended. *)
Record run (A : Type) := Run {
  states : list SARowDict;   (* the parent records, by position *)
  events : list event;       (* oldest first *)
  outcome : result A;
}.

Arguments Run {A} states events outcome.
Arguments states {A} r.
Arguments events {A} r.
Arguments outcome {A} r.

Definition M (A : Type) : Type := list SARowDict -> run A.

#[global] Instance M_ret : MRet M := fun A a sts => Run sts [] (Ok a).

#[global] Instance M_bind : MBind M := fun A B f m sts =>
  let r := m sts in
  match outcome r with
  | Ok a => let r' := f a (states r) in
            Run (states r') (events r ++ events r') (outcome r')
  | Raise e => Run (states r) (events r) (Raise e)
  | Hang => Run (states r) (events r) Hang
  end.

Definition lift {A} (r : result A) : M A := fun sts => Run sts [] r.

Definition emit (ev : event) : M unit := fun sts => Run sts [ev] (Ok tt).

(** [states[i][k] = v] *)
Definition setitem (i : nat) (k : string) (v : value) : M unit := fun sts =>
  Run (alter (insert k v) i sts) [EvSetItem i k v] (Ok tt).

Fixpoint for_each {A} (l : list A) (body : A -> M unit) : M unit :=
  match l with
  | [] => mret tt
  | x :: l' => _ ← body x; for_each l' body
  end.

(** [yield from c], where [c] is a list or [None]. *)
Definition yield_from (c : option (list SARow)) : M unit :=
  match c with
  | Some rows => for_each rows (fun row => emit (EvYield row))
  | None => lift (Raise TypeError)
  end.

(** [itertools.groupby] on rows already paired with their key: runs of
    consecutive rows with equal keys. *)
Fixpoint groupby {K A} `{EqDecision K} (l : list (K * A)) : list (K * list A) :=
  match l with
  | [] => []
  | (k, a) :: l' =>
      match groupby l' with
      | (k', g) :: gs =>
          if decide (k = k') then (k, a :: g) :: gs else (k, [a]) :: (k', g) :: gs
      | [] => [(k, [a])]
      end
  end.

(** [data[k].extend(v)] on a [defaultdict(list)] *)
Definition dd_extend {K A} `{EqDecision K} (d : list (K * list A)) (kv : K * list A)
  : list (K * list A) :=
  pd_set kv.1 (default [] (pd_get kv.1 d) ++ kv.2) d.

(** [key[0] if zero_idx else key] *)
Definition bind_key (zero : bool) (k : key_tuple) : result bound :=
  if zero then
    match k with
    | v :: _ => Ok (BScalar v)
    | [] => Raise IndexError
    end
  else Ok (BTuple k).

Definition embed_key (k : list scalar) : key_tuple := VScalar <$> k.

Section driver.
Variable self : JSelectInLoader.

(** [connection.execute(q, {"primary_keys": ...}).mappings()], read to the
    end: the statement and the database behind it are the caller's. *)
Variable connection : list bound -> result (list SARow).

Let qi := query_info self.

Definition execute (primary_keys : list bound) : M (list SARow) :=
  _ ← emit (EvExecute primary_keys); lift (connection primary_keys).

Definition _empty_result : option (list SARow) :=
  if uselist self then Some [] else None.

(** The [defaultdict] filled from [itertools.groupby] over the rows. *)
Definition group_rows (rows : list SARow) : result (list (key_tuple * list SARow)) :=
  keyed ← tuple_of (fun row =>
             k ← get_foreign_key_tuple row qi; Ok (embed_key k, row)) rows;
  Ok (foldl dd_extend [] (groupby keyed)).

(** The value stored for a collection that is a list or [None]. *)
Definition collection_value (c : option (list SARow)) : value :=
  match c with
  | Some rows => VList (Some <$> rows)
  | None => VNone
  end.

(** One parent of a chunk of [_load_via_parent]. *)
Definition populate_parent (data : list (key_tuple * list SARow)) (ks : key_tuple * nat)
  : M unit :=
  let '(k, i) := ks in
  _ ← lift (hash_check k);
  let collection :=
    match pd_get k data with
    | Some rows => Some rows
    | None => _empty_result
    end in
  _ ← match uselist self, collection with
      | false, Some (first :: others) =>
          _ ← (if (1 <? length (first :: others))%nat then emit EvWarn
               else mret tt);
          setitem i (key self) (VDict first)
      | _, _ => setitem i (key self) (collection_value collection)
      end;
  yield_from collection.

(** One turn of the [while] loop of [_load_via_parent]. *)
Definition _load_via_parent_chunk (chunk : list (key_tuple * nat)) : M unit :=
  primary_keys ← lift (tuple_of (fun ks => bind_key (zero_idx qi) ks.1) chunk);
  rows ← execute primary_keys;
  data ← lift (group_rows rows);
  for_each chunk (populate_parent data).

Fixpoint _load_via_parent_loop (fuel : nat) (our_states : list (key_tuple * nat))
  : M unit :=
  match our_states with
  | [] => mret tt
  | _ :: _ =>
      match fuel with
      | O => lift Hang
      | S fuel' =>
          let chunk := take (CHUNKSIZE self) our_states in
          let our_states := drop (CHUNKSIZE self) our_states in
          _ ← _load_via_parent_chunk chunk;
          _load_via_parent_loop fuel' our_states
      end
  end.

(** The loop takes at least one entry per turn unless [CHUNKSIZE] is zero,
    so as many turns as there are entries are enough. *)
Definition _load_via_parent (our_states : list (key_tuple * nat)) : M unit :=
  _load_via_parent_loop (length our_states) our_states.

(** The dict comprehension of [_load_via_child]. *)
Fixpoint rows_by_pk (rows : list SARow) (data : list (key_tuple * SARow))
  : result (list (key_tuple * SARow)) :=
  match rows with
  | [] => Ok data
  | row :: rows' =>
      k ← get_primary_key_tuple (target_mapper self) row;
      rows_by_pk rows' (pd_set (embed_key k) row data)
  end.

Definition related_value (related_obj : option SARow) : value :=
  if negb (uselist self) then
    match related_obj with
    | Some row => VDict row
    | None => VNone
    end
  else VList [related_obj].

(** One turn of the [while] loop of [_load_via_child]. *)
Definition _load_via_child_chunk (our_states : list (key_tuple * list nat))
    (none_states : list nat) (chunk : list key_tuple) : M unit :=
  primary_keys ← lift (tuple_of (bind_key (zero_idx qi)) chunk);
  rows ← execute primary_keys;
  data ← lift (rows_by_pk rows []);
  _ ← for_each chunk (fun k =>
        let related_obj := pd_get k data in
        for_each (default [] (pd_get k our_states)) (fun i =>
          setitem i (key self) (related_value related_obj)));
  _ ← for_each none_states (fun i => setitem i (key self) VNone);
  for_each (pd_values data) (fun row => emit (EvYield row)).

Fixpoint _load_via_child_loop (fuel : nat) (our_states : list (key_tuple * list nat))
    (none_states : list nat) (our_keys : list key_tuple) : M unit :=
  match our_keys with
  | [] => mret tt
  | _ :: _ =>
      match fuel with
      | O => lift Hang
      | S fuel' =>
          let chunk := take (CHUNKSIZE self) our_keys in
          let our_keys := drop (CHUNKSIZE self) our_keys in
          _ ← _load_via_child_chunk our_states none_states chunk;
          _load_via_child_loop fuel' our_states none_states our_keys
      end
  end.

Definition _load_via_child (our_states : list (key_tuple * list nat))
    (none_states : list nat) : M unit :=
  our_keys ← lift (sorted (pd_keys our_states));
  _load_via_child_loop (length our_keys) our_states none_states our_keys.

(** [prepare_states] leaves [ByKey] exactly when [load_only_child] is set;
    the other two combinations stand for attributes that were never set. *)
Definition fetch_results_and_populate_states (st : prepared) : M unit :=
  if load_only_child qi then
    match st with
    | ByKey our_states none_states => _load_via_child our_states none_states
    | Listed _ => lift (Raise AttributeError)
    end
  else
    match st with
    | Listed our_states => _load_via_parent our_states
    | ByKey _ _ => lift (Raise AttributeError)
    end.

(** One load call: [prepare_states] and then the generator run to its end,
    on the parent records [parents]. *)
Definition load (parents : list SARowDict) : run unit :=
  match prepare_states self parents with
  | Ok st => fetch_results_and_populate_states st parents
  | Raise e => Run parents [] (Raise e)
  | Hang => Run parents [] Hang
  end.
End driver.

(** ** An executor over a fixed table *)

(** The bound value a fetched row answers to: its key columns [cols], bound
    the way the loader binds a key. *)
Definition row_bound (cols : list string) (zero : bool) (row : SARow)
  : result bound :=
  k ← tuple_of (getitem row) cols; bind_key zero (embed_key k).

Definition row_matches (cols : list string) (zero : bool)
    (primary_keys : list bound) (row : SARow) : bool :=
  match row_bound cols zero row with
  | Ok b => bool_decide (b ∈ primary_keys)
  | _ => false
  end.

(** An executor that answers the template's "key is one of the bound values"
    predicate on the columns [cols] over the rows of [table], in table
    order. *)
Definition table_connection (cols : list string) (zero : bool)
    (table : list SARow) (primary_keys : list bound) : result (list SARow) :=
  Ok (List.filter (row_matches cols zero primary_keys) table).

(** The same with [LIMIT 1] in the statement: at most one row per query. *)
Definition limit1_connection (cols : list string) (zero : bool)
    (table : list SARow) (primary_keys : list bound) : result (list SARow) :=
  Ok (take 1 (List.filter (row_matches cols zero primary_keys) table)).

(** The columns the template matches on, which are the columns the loader
    re-keys the fetched rows by. *)
Definition match_cols (self : JSelectInLoader) : list string :=
  if load_only_child (query_info self) then primary_key (target_mapper self)
  else pk_cols (query_info self).

(** ** Batches and what is observed of them *)

(** The slices the [while] loops take off the front of the pending list. *)
Fixpoint chunked {A} (fuel n : nat) (l : list A) : list (list A) :=
  match l, fuel with
  | [], _ => []
  | _ :: _, O => []
  | _ :: _, S fuel' => take n l :: chunked fuel' n (drop n l)
  end.

Definition ceil_div (n b : nat) : nat := (n + b - 1) / b.

Definition is_execute (ev : event) : bool :=
  match ev with EvExecute _ => true | _ => false end.

(** The number of queries executed. *)
Definition executed (evs : list event) : nat :=
  length (List.filter is_execute evs).

(** The lists bound to [primary_keys], one per executed query. *)
Fixpoint bound_lists (evs : list event) : list (list bound) :=
  match evs with
  | [] => []
  | EvExecute pks :: evs' => pks :: bound_lists evs'
  | _ :: evs' => bound_lists evs'
  end.

(** The events up to the next executed query. *)
Fixpoint batch_body (evs : list event) : list event :=
  match evs with
  | [] => []
  | ev :: evs' => if is_execute ev then [] else ev :: batch_body evs'
  end.

(** What happened after each executed query and before the next one. *)
Fixpoint segments (evs : list event) : list (list event) :=
  match evs with
  | [] => []
  | ev :: evs' =>
      if is_execute ev then batch_body evs' :: segments evs' else segments evs'
  end.

(** The parents of each batch, by position: the members of the groups of a
    chunk of keys, or the entries of a chunk of the list. *)
Definition batch_members (self : JSelectInLoader) (st : prepared)
  : list (list nat) :=
  match st with
  | ByKey our_states _ =>
      match sorted (pd_keys our_states) with
      | Ok our_keys =>
          (fun chunk => mjoin ((fun k => default [] (pd_get k our_states)) <$> chunk))
            <$> chunked (length our_keys) (CHUNKSIZE self) our_keys
      | _ => []
      end
  | Listed our_states =>
      (fun chunk => chunk.*2)
        <$> chunked (length our_states) (CHUNKSIZE self) our_states
  end.

(** In the events [seg] of one batch, every yield comes after a write of the
    field [k] of every parent in [batch]. *)
Definition yields_after_population (k : string) (batch : list nat)
    (seg : list event) : Prop :=
  ∀ pre row post, seg = pre ++ EvYield row :: post →
    ∀ i, i ∈ batch → ∃ v, EvSetItem i k v ∈ pre.

(** No row of a batch is yielded before all parents of that batch have been
    written. *)
Definition populated_before_yield (self : JSelectInLoader) (st : prepared)
    (evs : list event) : Prop :=
  ∀ n batch seg, batch_members self st !! n = Some batch →
    segments evs !! n = Some seg →
    yields_after_population (key self) batch seg.

(** Ascending order of keys: the next one is not below the one before. *)
Definition key_le (a b : key_tuple) : Prop := tuple_lt b a = Some false.

Definition unbind (b : bound) : key_tuple :=
  match b with
  | BScalar v => [v]
  | BTuple t => t
  end.

(** Every executed query was bound to keys in ascending order. *)
Definition bound_keys_sorted (evs : list event) : Prop :=
  Forall (fun pks => Sorted key_le (unbind <$> pks)) (bound_lists evs).

(** The keys the queries were bound to, taken together in the order of the
    queries, are in ascending order: also across the batches. *)
Definition all_bound_keys_sorted (evs : list event) : Prop :=
  Sorted key_le (unbind <$> mjoin (bound_lists evs)).

(** The field [f] of parent [i]. *)
Definition field (sts : list SARowDict) (i : nat) (f : string) : option value :=
  sts !! i ≫= (.!! f).

(** ** Scenarios *)

Module Scenario.
Definition rec (l : list (string * value)) : SARowDict := list_to_map l.
Definition row (l : list (string * scalar)) : SARow := list_to_map l.

(** A MANYTOONE relationship [parent]: the parent record holds
    [parent_id], the target's primary key is [id]. *)
Definition many_to_one (ul : bool) (n : nat) : JSelectInLoader :=
  {| source_mapper := {| primary_key := ["id"] |};
     target_mapper := {| primary_key := ["id"] |};
     key := "parent"; uselist := ul;
     query_info := {| load_only_child := true; load_with_join := false;
                      pk_cols := ["id"]; zero_idx := true;
                      child_lookup_cols := ["parent_id"] |};
     CHUNKSIZE := n |}.

(** A ONETOMANY relationship [items]: the target rows hold [owner_id]. *)
Definition one_to_many (ul : bool) (n : nat) : JSelectInLoader :=
  {| source_mapper := {| primary_key := ["id"] |};
     target_mapper := {| primary_key := ["id"] |};
     key := "items"; uselist := ul;
     query_info := {| load_only_child := false; load_with_join := false;
                      pk_cols := ["owner_id"]; zero_idx := true;
                      child_lookup_cols := [] |};
     CHUNKSIZE := n |}.

Definition child (id : Z) (fk : scalar) : SARowDict :=
  rec [("id", VInt id); ("parent_id", VScalar fk)].

Definition owner (id : Z) : SARowDict := rec [("id", VInt id)].

Definition item (id owner_id : Z) : SARow :=
  row [("id", SInt id); ("owner_id", SInt owner_id)].

Definition target_X : SARow := row [("id", SInt 5); ("name", SStr "X")].
Definition target (id : Z) : SARow := row [("id", SInt id)].

Definition items : list SARow := [item 100 10; item 101 10; item 200 20].
End Scenario.

(** ** Auxiliary notions for the proofs *)

(** An event that writes a field writes the field [k]. *)
Definition writes_only (k : string) (ev : event) : Prop :=
  match ev with
  | EvSetItem _ k' _ => k' = k
  | _ => True
  end.

(** A run from [sts] leaves the number of records and every field but [k]
    as they were. *)
Definition frame {A} (k : string) (sts : list SARowDict) (r : run A) : Prop :=
  length (states r) = length sts
  ∧ (∀ i f, f ≠ k → field (states r) i f = field sts i f)
  ∧ Forall (writes_only k) (events r).

Definition framed {A} (k : string) (m : M A) : Prop := ∀ sts, frame k sts (m sts).

(** A list of writes of the field [k], applied to the store in order. *)
Definition apply_writes (k : string) (ws : list (nat * value))
    (sts : list SARowDict) : list SARowDict :=
  foldl (fun s w => alter (insert k w.2) w.1 s) sts ws.

Definition write_events (k : string) (ws : list (nat * value)) : list event :=
  (fun w => EvSetItem w.1 k w.2) <$> ws.

(** What a call does that has come to the result [x] after the events [evs]:
    it goes on with [go], or it stops there. *)
Definition and_then {A B} (sts : list SARowDict) (evs : list event)
    (x : result A) (go : A -> run B) : run B :=
  match x with
  | Ok a => go a
  | Raise e => Run sts evs (Raise e)
  | Hang => Run sts evs Hang
  end.

(** The writes of one turn of the loop of [_load_via_child]. *)
Definition child_writes (self : JSelectInLoader)
    (our_states : list (key_tuple * list nat)) (none_states : list nat)
    (data : list (key_tuple * SARow)) (chunk : list key_tuple) : list (nat * value) :=
  (chunk ≫= fun k =>
     (fun i => (i, related_value self (pd_get k data)))
       <$> default [] (pd_get k our_states))
  ++ ((fun i => (i, VNone)) <$> none_states).

(** The collection [_load_via_parent] finds for a key, what it stores for
    it, and whether it warns. *)
Definition collection_of (self : JSelectInLoader)
    (data : list (key_tuple * list SARow)) (k : key_tuple) : option (list SARow) :=
  match pd_get k data with
  | Some rows => Some rows
  | None => _empty_result self
  end.

Definition stored_value (self : JSelectInLoader) (c : option (list SARow))
  : value :=
  match uselist self, c with
  | false, Some (first :: _) => VDict first
  | _, _ => collection_value c
  end.

Definition warning (self : JSelectInLoader) (c : option (list SARow))
  : list event :=
  match uselist self, c with
  | false, Some (_ :: _ :: _) => [EvWarn]
  | _, _ => []
  end.

(** The shape both [while] loops share: take a chunk off the front, run one
    turn on it, go on with the rest. *)
Fixpoint chunk_loop {A} (n : nat) (step : list A -> M unit) (fuel : nat)
    (l : list A) : M unit :=
  match l with
  | [] => mret tt
  | _ :: _ =>
      match fuel with
      | O => lift Hang
      | S fuel' => _ ← step (take n l); chunk_loop n step fuel' (drop n l)
      end
  end.

#[global] Instance exn_eq_dec : EqDecision exn.
Proof. solve_decision. Defined.

#[global] Instance result_eq_dec {A} `{EqDecision A} : EqDecision (result A).
Proof. solve_decision. Defined.

(** [data[k].extend([a])], the way [groupby] would feed single rows. *)
Definition dd_extend1 {K A} `{EqDecision K} (d : list (K * list A)) (p : K * A)
  : list (K * list A) :=
  dd_extend d (p.1, [p.2]).

(** The rows paired with the key [k], in order. *)
Definition rows_for {A} (k : key_tuple) (keyed : list (key_tuple * A)) : list A :=
  (filter (fun p => p.1 = k) keyed).*2.

(** The rows of [table] whose foreign key tuple is [k], in table order. *)
Definition matching_rows (self : JSelectInLoader) (k : key_tuple) (table : list SARow)
  : list SARow :=
  List.filter (fun row => bool_decide
     (embed_key <$> get_foreign_key_tuple row (query_info self) = Ok k)) table.

(** The last row of [rows] whose primary key tuple is [k]. *)
Definition last_with_key (self : JSelectInLoader) (k : key_tuple) (rows : list SARow)
  : option SARow :=
  last (List.filter (fun row => bool_decide
     (embed_key <$> get_primary_key_tuple (target_mapper self) row = Ok k)) rows).

(** The key tuple of parent [i] over the columns [cols]. *)
Definition parent_key (cols : list string) (parents : list SARowDict) (i : nat)
  : option key_tuple :=
  st ← parents !! i;
  match tuple_of (getitem st) cols with
  | Ok k => Some k
  | _ => None
  end.

(** What the MANYTOONE branch of [prepare_states] has built once the first
    [n] parents are classified. *)
Record prepared_ok (cols : list string) (parents : list SARowDict) (n : nat)
    (our : list (key_tuple * list nat)) (none : list nat) : Prop := {
  po_group : ∀ k l i, pd_get k our = Some l → i ∈ l →
               parent_key cols parents i = Some k;
  po_none : ∀ i, i ∈ none →
              ∃ k, parent_key cols parents i = Some k ∧ contains_None k = true;
  po_keys : ∀ k, k ∈ pd_keys our →
              contains_None k = false ∧ length k = length cols;
  po_nodup : NoDup (pd_keys our);
  po_cover : ∀ i, (i < n)%nat →
               ∃ k, parent_key cols parents i = Some k
                    ∧ if contains_None k then i ∈ none
                      else ∃ l, pd_get k our = Some l ∧ i ∈ l;
}.

(** The loader with another chunk size. *)
Definition with_chunksize (n : nat) (self : JSelectInLoader) : JSelectInLoader :=
  {| source_mapper := source_mapper self;
     target_mapper := target_mapper self;
     key := key self;
     uselist := uselist self;
     query_info := query_info self;
     CHUNKSIZE := n |}.

(** The number of groups the loops slice: the distinct non-null keys of the
    MANYTOONE path, the entries (one per parent) of the other path. *)
Definition group_count (st : prepared) : nat :=
  match st with
  | ByKey our_states _ => length our_states
  | Listed our_states => length our_states
  end.

(** The store [sts] is the store [sts0] with the field [k] of the records
    at the positions [W] set to what [tv] says. *)
Definition written_as (k : string) (tv : nat -> value)
    (sts0 sts : list SARowDict) (W : list nat) : Prop :=
  ∀ i, sts !! i = if decide (i ∈ W) then insert k (tv i) <$> sts0 !! i
                  else sts0 !! i.

(** What the MANYTOONE path stores for parent [i] when the rows come from
    [table]. *)
Definition expected_value (self : JSelectInLoader) (table : list SARow)
    (parents : list SARowDict) (i : nat) : value :=
  match parent_key (child_lookup_cols (query_info self)) parents i with
  | Some k => if contains_None k then VNone
              else related_value self (last_with_key self k table)
  | None => VNone
  end.

(** [populate_parent] with the collection of each key given by [coll]. *)
Definition populate_parent_from (self : JSelectInLoader)
    (coll : key_tuple -> option (list SARow)) (ks : key_tuple * nat) : M unit :=
  fun sts =>
    and_then sts [] (hash_check ks.1) (fun _ =>
      let c := coll ks.1 in
      Run (alter (insert (key self) (stored_value self c)) ks.2 sts)
          (warning self c ++ EvSetItem ks.2 (key self) (stored_value self c)
             :: (EvYield <$> default [] c))
          (match c with Some _ => Ok tt | None => Raise TypeError end)).

(** The collection of a key when the rows come from [table]. *)
Definition table_collection (self : JSelectInLoader) (table : list SARow)
    (k : key_tuple) : option (list SARow) :=
  match matching_rows self k table with
  | [] => _empty_result self
  | rs => Some rs
  end.

(** ** Further notions *)

(** The columns [prepare_states] reads from every parent record. *)
Definition required_cols (self : JSelectInLoader) : list string :=
  if load_only_child (query_info self) then child_lookup_cols (query_info self)
  else primary_key (source_mapper self).

(** The value [v] holds the row [row]: it is that row, or a list with it. *)
Definition holds_row (v : value) (row : SARow) : Prop :=
  v = VDict row ∨ ∃ l, v = VList l ∧ Some row ∈ l.

(** The rows yielded, in the order they were yielded. *)
Definition yielded (evs : list event) : list SARow :=
  evs ≫= fun ev => match ev with EvYield row => [row] | _ => [] end.

(** The warnings given. *)
Definition warnings (evs : list event) : list event :=
  List.filter (fun ev => match ev with EvWarn => true | _ => false end) evs.

(** The values written to the parent record at position [i], in order. *)
Definition writes_to (i : nat) (evs : list event) : list value :=
  evs ≫= fun ev => match ev with
                   | EvSetItem j _ v => if decide (j = i) then [v] else []
                   | _ => []
                   end.

(** * Properties *)

Import Scenario.

(** ** Runs of the scenarios *)

(** C1. MANYTOONE, and the only parent has a null foreign key: the loop of
    [_load_via_child] is not entered, no query is executed, the generator
    ends normally, and the relationship field of the parent is still unset,
    although [none_states] holds that parent. *)
Theorem C1_all_null_keys_left_unset (connection : list bound -> result (list SARow)) :
  let r := load (many_to_one false 500) connection [child 2 SNone] in
  prepare_states (many_to_one false 500) [child 2 SNone] = Ok (ByKey [] [0%nat])
  ∧ outcome r = Ok tt
  ∧ executed (events r) = 0%nat
  ∧ field (states r) 0 "parent" = None.
Proof. vm_compute. auto. Qed.

(** C2. ONETOMANY with [uselist] unset, and two parents that match no
    row: the first parent's field is set to [None], then [yield from None]
    raises [TypeError], and the second parent, which matches no row
    either, is left without the field. *)
Theorem C2_unmatched_parent_left_unset :
  let self := one_to_many false 500 in
  let connection := table_connection (match_cols self) true items in
  let r := load self connection [owner 30; owner 40] in
  outcome r = Raise TypeError
  ∧ events r = [EvExecute [BScalar (VInt 30); BScalar (VInt 40)];
                EvSetItem 0 "items" VNone]
  ∧ field (states r) 0 "items" = Some VNone
  ∧ field (states r) 1 "items" = None.
Proof. vm_compute. auto. Qed.

(** C5. MANYTOONE, and every parent has a null foreign key: no query is
    executed, and no parent's relationship field is set. *)
Theorem C5_null_keys_not_resolved (connection : list bound -> result (list SARow)) :
  let r := load (many_to_one false 500) connection [child 1 SNone; child 2 SNone] in
  outcome r = Ok tt
  ∧ bound_lists (events r) = []
  ∧ field (states r) 0 "parent" = None
  ∧ field (states r) 1 "parent" = None.
Proof. vm_compute. auto. Qed.

(** C9. ONETOMANY with [uselist] unset: the first parent matches no row; its
    field is set to [None], then [yield from None] raises [TypeError], and
    the second parent of the batch, which has two matching rows, is never
    populated. *)
Theorem C9_singular_no_match_raises :
  let self := one_to_many false 500 in
  let connection := table_connection (match_cols self) true items in
  let r := load self connection [owner 30; owner 10] in
  outcome r = Raise TypeError
  ∧ events r = [EvExecute [BScalar (VInt 30); BScalar (VInt 10)];
                EvSetItem 0 "items" VNone]
  ∧ field (states r) 0 "items" = Some VNone
  ∧ field (states r) 1 "items" = None.
Proof. vm_compute. auto. Qed.

(** C3. ONETOMANY, and two parents in one batch: the two rows of the first
    parent are yielded before the field of the second parent is written,
    so the batch is not populated when its first rows reach the caller. *)
Theorem C3_rows_yielded_before_batch_populated :
  let self := one_to_many true 500 in
  let connection := table_connection (match_cols self) true items in
  let parents := [owner 10; owner 20] in
  let r := load self connection parents in
  outcome r = Ok tt
  ∧ events r
    = [EvExecute [BScalar (VInt 10); BScalar (VInt 20)];
       EvSetItem 0 "items" (VList [Some (item 100 10); Some (item 101 10)]);
       EvYield (item 100 10); EvYield (item 101 10);
       EvSetItem 1 "items" (VList [Some (item 200 20)]);
       EvYield (item 200 20)]
  ∧ ∃ st, prepare_states self parents = Ok st
          ∧ batch_members self st = [[0; 1]%nat]
          ∧ ¬ populated_before_yield self st (events r).
Proof.
  cbn zeta. split; [vm_compute; reflexivity|]. split; [vm_compute; reflexivity|].
  eexists. split; [vm_compute; reflexivity|]. split; [vm_compute; reflexivity|].
  intros H.
  specialize (H 0%nat [0; 1]%nat
    [EvSetItem 0 "items" (VList [Some (item 100 10); Some (item 101 10)]);
     EvYield (item 100 10); EvYield (item 101 10);
     EvSetItem 1 "items" (VList [Some (item 200 20)]);
     EvYield (item 200 20)]).
  destruct (H ltac:(vm_compute; reflexivity) ltac:(vm_compute; reflexivity)
              [EvSetItem 0 "items" (VList [Some (item 100 10); Some (item 101 10)])]
              (item 100 10)
              [EvYield (item 101 10);
               EvSetItem 1 "items" (VList [Some (item 200 20)]);
               EvYield (item 200 20)]
              eq_refl 1%nat ltac:(set_solver)) as [v Hv].
  apply list_elem_of_singleton in Hv. discriminate.
Qed.

(** C8, as stated, fails: the ONETOMANY path binds the keys in the order of
    the parent list. *)
Lemma C8_counterexample :
  let self := one_to_many true 500 in
  let connection := table_connection (match_cols self) true items in
  ¬ bound_keys_sorted (events (load self connection [owner 20; owner 10])).
Proof.
  intros self connection H.
  assert (Hb : bound_lists (events (load self connection [owner 20; owner 10]))
               = [[BScalar (VInt 20); BScalar (VInt 10)]])
    by (vm_compute; reflexivity).
  unfold bound_keys_sorted in H. rewrite Hb in H.
  apply Forall_cons in H as [H _]. simpl in H.
  inversion H as [|? ? _ Hd]; subst. inversion Hd as [|? ? Hle]; subst.
  vm_compute in Hle. discriminate.
Qed.

(** C6, as stated, fails for an executor whose statement carries [LIMIT 1]:
    with batches of one key each parent finds its row, with batches of two
    the second parent finds none. *)
Lemma C6_counterexample :
  let connection := limit1_connection ["id"] true [target 5; target 6] in
  let parents := [child 1 (SInt 5); child 2 (SInt 6)] in
  states (load (many_to_one false 1) connection parents)
  ≠ states (load (many_to_one false 2) connection parents).
Proof.
  intros connection parents H.
  apply (f_equal (fun sts => field sts 1 "parent")) in H.
  vm_compute in H. discriminate.
Qed.

(** ** The two monads *)

Lemma run_eta {A} (r : run A) : Run (states r) (events r) (outcome r) = r.
Proof. by destruct r. Qed.

Lemma bind_lift {A B} (x : result A) (f : A -> M B) sts :
  (lift x ≫= f) sts =
  match x with
  | Ok a => f a sts
  | Raise e => Run sts [] (Raise e)
  | Hang => Run sts [] Hang
  end.
Proof. destruct x; cbn; try done. apply run_eta. Qed.

Lemma bind_ok {A B} (m : M A) (f : A -> M B) sts a :
  outcome (m sts) = Ok a →
  (m ≫= f) sts =
  Run (states (f a (states (m sts))))
      (events (m sts) ++ events (f a (states (m sts))))
      (outcome (f a (states (m sts)))).
Proof. intros H. unfold mbind, M_bind. by rewrite H. Qed.

Lemma bind_not_ok {A B} (m : M A) (f : A -> M B) sts :
  (∀ a, outcome (m sts) ≠ Ok a) →
  states ((m ≫= f) sts) = states (m sts)
  ∧ events ((m ≫= f) sts) = events (m sts)
  ∧ (∀ b, outcome ((m ≫= f) sts) ≠ Ok b).
Proof.
  intros H. unfold mbind, M_bind.
  destruct (outcome (m sts)) eqn:E; cbn; [by destruct (H a)|done..].
Qed.

(** ** Key extraction *)

Lemma tuple_of_cons {A B} (f : A -> result B) x l :
  tuple_of f (x :: l) =
  match f x with
  | Ok y => match tuple_of f l with
            | Ok ys => Ok (y :: ys)
            | Raise e => Raise e
            | Hang => Hang
            end
  | Raise e => Raise e
  | Hang => Hang
  end.
Proof. cbn. destruct (f x); cbn; [|done..]. by destruct (tuple_of f l). Qed.

Lemma getitem_Some {V} (row : gmap string V) k v :
  row !! k = Some v → getitem row k = Ok v.
Proof. unfold getitem. by intros ->. Qed.

Lemma getitem_None {V} (row : gmap string V) k :
  row !! k = None → getitem row k = Raise (KeyError k).
Proof. unfold getitem. by intros ->. Qed.

Lemma tuple_of_getitem_outcome {V} (row : gmap string V) cols :
  (∃ t, tuple_of (getitem row) cols = Ok t ∧ length t = length cols
        ∧ ∀ c, c ∈ cols → is_Some (row !! c))
  ∨ (∃ c, tuple_of (getitem row) cols = Raise (KeyError c)
          ∧ c ∈ cols ∧ row !! c = None).
Proof.
  induction cols as [|c cols IH].
  - left. exists []. split_and!; [done..|]. intros c Hc. by apply elem_of_nil in Hc.
  - rewrite tuple_of_cons. destruct (row !! c) as [v|] eqn:E.
    + rewrite (getitem_Some _ _ _ E).
      destruct IH as [(t & -> & Hl & Hall)|(c' & -> & Hc & Hn)].
      * left. exists (v :: t). split_and!; [done|cbn; by rewrite Hl|].
        intros c' [->|Hc']%elem_of_cons; [by eexists|by apply Hall].
      * right. exists c'. split_and!; [done|by apply elem_of_cons; auto|done].
    + rewrite (getitem_None _ _ E).
      right. exists c. split_and!; [done|by apply elem_of_cons; auto|done].
Qed.

Lemma tuple_of_getitem_missing {V} (row : gmap string V) cols c :
  c ∈ cols → row !! c = None →
  ∃ c', tuple_of (getitem row) cols = Raise (KeyError c')
        ∧ c' ∈ cols ∧ row !! c' = None.
Proof.
  intros Hc Hn.
  destruct (tuple_of_getitem_outcome row cols) as [(t & _ & _ & Hall)|H]; [|done].
  destruct (Hall c Hc) as [v Hv]. congruence.
Qed.

Lemma prepare_parent_cons mapper i0 p parents :
  prepare_parent mapper i0 (p :: parents) =
  match get_primary_key_tuple mapper p with
  | Ok k => match prepare_parent mapper (S i0) parents with
            | Ok l => Ok ((k, i0) :: l)
            | Raise e => Raise e
            | Hang => Hang
            end
  | Raise e => Raise e
  | Hang => Hang
  end.
Proof.
  cbn. destruct (get_primary_key_tuple mapper p); cbn; [|done..].
  by destruct (prepare_parent mapper (S i0) parents).
Qed.

Lemma prepare_parent_missing mapper i0 parents i st c :
  parents !! i = Some st →
  c ∈ primary_key mapper → st !! c = None →
  ∃ c' j st', prepare_parent mapper i0 parents = Raise (KeyError c')
              ∧ c' ∈ primary_key mapper
              ∧ parents !! j = Some st' ∧ st' !! c' = None.
Proof.
  revert i0 i. induction parents as [|p parents IH]; intros i0 i Hi Hc Hn.
  - done.
  - rewrite prepare_parent_cons. unfold get_primary_key_tuple.
    destruct (tuple_of_getitem_outcome p (primary_key mapper))
      as [(t & -> & _ & Hall)|(c' & -> & Hc' & Hn')].
    + destruct i as [|i]; cbn in Hi.
      * injection Hi as ->. destruct (Hall c Hc) as [v Hv]. congruence.
      * destruct (IH (S i0) i Hi Hc Hn) as (c' & j & st' & -> & ? & ? & ?).
        by exists c', (S j), st'.
    + by exists c', 0%nat, p.
Qed.

(** C4. In the ONETOMANY and MANYTOMANY branch, when some parent record has
    no value for a primary key column of the source mapper, [prepare_states]
    raises: the [KeyError] of [row[col.key]], for a primary key column that
    some parent lacks (the specification calls this error
    IncompleteRecordError). No grouping is produced, and the load call ends
    with that error before any query or write. *)
Theorem C4_missing_primary_key_raises
    (self : JSelectInLoader) (connection : list bound -> result (list SARow))
    (parents : list SARowDict) (i : nat) (st : SARowDict) (c : string) :
  load_with_join (query_info self) = false →
  load_only_child (query_info self) = false →
  parents !! i = Some st →
  c ∈ primary_key (source_mapper self) →
  st !! c = None →
  ∃ c' j st',
    prepare_states self parents = Raise (KeyError c')
    ∧ load self connection parents = Run parents [] (Raise (KeyError c'))
    ∧ c' ∈ primary_key (source_mapper self)
    ∧ parents !! j = Some st' ∧ st' !! c' = None.
Proof.
  intros Hj Hc Hi Hin Hn.
  destruct (prepare_parent_missing (source_mapper self) 0 parents i st c Hi Hin Hn)
    as (c' & j & st' & E & ? & ? & ?).
  exists c', j, st'.
  assert (prepare_states self parents = Raise (KeyError c')) as Hp.
  { unfold prepare_states. rewrite Hj, Hc, E. done. }
  split_and!; try done. unfold load. by rewrite Hp.
Qed.

Lemma C4_missing_primary_key_raises_witness :
  ∃ c' j st',
    prepare_states (one_to_many true 500) [owner 10; child 2 SNone; ∅]
      = Raise (KeyError c')
    ∧ load (one_to_many true 500) (table_connection ["owner_id"] true items)
        [owner 10; child 2 SNone; ∅]
      = Run [owner 10; child 2 SNone; ∅] [] (Raise (KeyError c'))
    ∧ c' ∈ primary_key (source_mapper (one_to_many true 500))
    ∧ [owner 10; child 2 SNone; ∅] !! j = Some st' ∧ st' !! c' = None.
Proof.
  apply (C4_missing_primary_key_raises (one_to_many true 500)
           (table_connection ["owner_id"] true items)
           [owner 10; child 2 SNone; ∅] 2 ∅ "id").
  - reflexivity.
  - reflexivity.
  - reflexivity.
  - vm_compute. left.
  - reflexivity.
Defined.

(** ** The frame of a load: only the relationship field is written *)

Section frame.
Context (k : string).

Lemma frame_refl {A} sts (x : result A) : frame k sts (Run sts [] x).
Proof. by split_and!. Qed.

Lemma framed_ret {A} (a : A) : framed k (mret a).
Proof. intros sts. apply frame_refl. Qed.

Lemma framed_lift {A} (x : result A) : framed k (lift x).
Proof. intros sts. apply frame_refl. Qed.

Lemma framed_emit ev : writes_only k ev → framed k (emit ev).
Proof. intros H sts. split_and!; cbn; [done..|]. by apply Forall_singleton. Qed.

Lemma field_alter_ne (sts : list SARowDict) i j f v :
  f ≠ k → field (alter (insert k v) i sts) j f = field sts j f.
Proof.
  intros Hf. unfold field.
  destruct (decide (i = j)) as [->|Hij].
  - rewrite list_lookup_alter_eq. destruct (sts !! j) as [st|]; cbn; [|done].
    by rewrite lookup_insert_ne.
  - by rewrite list_lookup_alter_ne.
Qed.

Lemma framed_setitem i v : framed k (setitem i k v).
Proof.
  intros sts. split_and!; cbn.
  - by rewrite length_alter.
  - intros j f Hf. by apply field_alter_ne.
  - by apply Forall_singleton.
Qed.

Lemma framed_bind {A B} (m : M A) (f : A -> M B) :
  framed k m → (∀ a, framed k (f a)) → framed k (m ≫= f).
Proof.
  intros Hm Hf sts. destruct (Hm sts) as (Hl & Hfld & Hev).
  unfold mbind, M_bind, frame.
  destruct (outcome (m sts)) as [a| |] eqn:E; cbn.
  - destruct (Hf a (states (m sts))) as (Hl' & Hfld' & Hev'). split_and!.
    + by rewrite Hl'.
    + intros i g Hg. rewrite Hfld' by done. by apply Hfld.
    + by apply Forall_app.
  - by split_and!.
  - by split_and!.
Qed.

Lemma framed_for_each {A} (l : list A) (body : A -> M unit) :
  (∀ x, framed k (body x)) → framed k (for_each l body).
Proof.
  intros Hb. induction l as [|x l IH]; cbn.
  - apply framed_ret.
  - apply framed_bind; [apply Hb|done].
Qed.
End frame.

Section frame_driver.
Context (self : JSelectInLoader) (connection : list bound -> result (list SARow)).

Local Ltac framed_step :=
  first [ apply framed_bind; [|intros ?]
        | apply framed_lift | apply framed_ret | apply framed_setitem
        | apply framed_emit; exact I
        | apply framed_for_each; intros ? ].

Lemma framed_populate_parent data ks :
  framed (key self) (populate_parent self data ks).
Proof.
  destruct ks as [kk i]. unfold populate_parent, yield_from.
  apply framed_bind; [apply framed_lift|intros _].
  apply framed_bind.
  - destruct (uselist self); [apply framed_setitem|].
    destruct (match pd_get kk data with Some rows => Some rows
              | None => _empty_result self end) as [[|first others]|];
      try apply framed_setitem.
    apply framed_bind; [|intros _; apply framed_setitem].
    destruct (1 <? length (first :: others))%nat; repeat framed_step.
  - intros _. destruct (match pd_get kk data with Some rows => Some rows
              | None => _empty_result self end); repeat framed_step.
Qed.

Lemma framed_load_via_parent_loop fuel our_states :
  framed (key self) (_load_via_parent_loop self connection fuel our_states).
Proof.
  revert our_states. induction fuel as [|fuel IH]; intros [|e l]; cbn -[take drop];
    try apply framed_ret; try apply framed_lift.
  apply framed_bind; [|intros _; apply IH].
  unfold _load_via_parent_chunk, execute. repeat framed_step.
  apply framed_populate_parent.
Qed.

Lemma framed_load_via_child_loop fuel our_states none_states our_keys :
  framed (key self)
    (_load_via_child_loop self connection fuel our_states none_states our_keys).
Proof.
  revert our_keys. induction fuel as [|fuel IH]; intros [|e l]; cbn -[take drop];
    try apply framed_ret; try apply framed_lift.
  apply framed_bind; [|intros _; apply IH].
  unfold _load_via_child_chunk, execute. repeat framed_step.
Qed.

Lemma framed_fetch st :
  framed (key self) (fetch_results_and_populate_states self connection st).
Proof.
  unfold fetch_results_and_populate_states.
  destruct (load_only_child (query_info self)), st; try apply framed_lift.
  - unfold _load_via_child. apply framed_bind; [apply framed_lift|intros ?].
    apply framed_load_via_child_loop.
  - apply framed_load_via_parent_loop.
Qed.

(** C10. Over one load call, the store keeps its length, every field of
    every parent record other than the one named by the relationship key
    reads as before, and every write the generator performs is a write of
    that field. [prepare_states] is a function of the records and has no
    access to the store. This holds for every outcome of the call. *)
Theorem C10_only_relationship_field_written (parents : list SARowDict) :
  let r := load self connection parents in
  length (states r) = length parents
  ∧ (∀ i f, f ≠ key self → field (states r) i f = field parents i f)
  ∧ Forall (writes_only (key self)) (events r).
Proof.
  cbn. unfold load. destruct (prepare_states self parents) as [st| |].
  - apply framed_fetch.
  - apply (frame_refl _ parents (Raise e : result unit)).
  - apply (frame_refl _ parents (Hang : result unit)).
Qed.
End frame_driver.

(** ** Loops over the store *)

Lemma bind_run {A B} (m : M A) (f : A -> M B) sts s' e a s'' e' o :
  m sts = Run s' e (Ok a) → f a s' = Run s'' e' o →
  (m ≫= f) sts = Run s'' (e ++ e') o.
Proof. intros Hm Hf. unfold mbind, M_bind. rewrite Hm. cbn. by rewrite Hf. Qed.

Lemma bind_ext {A B} (m m' : M A) (f f' : A -> M B) sts :
  m sts = m' sts → (∀ a s, f a s = f' a s) → (m ≫= f) sts = (m' ≫= f') sts.
Proof.
  intros Hm Hf. unfold mbind, M_bind. rewrite Hm.
  destruct (outcome (m' sts)); [|done..]. by rewrite Hf.
Qed.

Lemma for_each_ext_in {A} (l : list A) (body body' : A -> M unit) sts :
  (∀ x s, x ∈ l → body x s = body' x s) →
  for_each l body sts = for_each l body' sts.
Proof.
  revert sts. induction l as [|x l IH]; intros sts H; [done|].
  cbn. unfold mbind, M_bind. rewrite H by (apply elem_of_cons; auto).
  destruct (outcome (body' x sts)); [|done..].
  rewrite IH; [done|]. intros y s Hy. apply H. apply elem_of_cons; auto.
Qed.

Lemma for_each_fmap {A C} (g : A -> C) (l : list A) (body : C -> M unit) sts :
  for_each (g <$> l) body sts = for_each l (fun x => body (g x)) sts.
Proof.
  revert sts. induction l as [|x l IH]; intros sts; [done|].
  cbn. apply bind_ext; [done|]. intros _ s. apply IH.
Qed.

Lemma for_each_app {A} (l1 l2 : list A) (body : A -> M unit) sts :
  for_each (l1 ++ l2) body sts
  = (for_each l1 body ≫= fun _ => for_each l2 body) sts.
Proof.
  revert sts. induction l1 as [|x l1 IH]; intros sts.
  - cbn. unfold mbind, M_bind. cbn. by rewrite run_eta.
  - cbn. unfold mbind, M_bind. cbn.
    destruct (outcome (body x sts)) as [[]| |] eqn:E; cbn; [|done..].
    rewrite IH. unfold mbind, M_bind.
    destruct (outcome (for_each l1 body (states (body x sts)))) as [[]| |];
      cbn; [|done..].
    by rewrite app_assoc.
Qed.

Lemma for_each_join {A C} (g : A -> list C) (l : list A) (body : C -> M unit) sts :
  for_each (l ≫= g) body sts = for_each l (fun x => for_each (g x) body) sts.
Proof.
  revert sts. induction l as [|x l IH]; intros sts; [done|].
  cbn. rewrite for_each_app. apply bind_ext; [done|]. intros _ s. apply IH.
Qed.

Lemma for_each_writes k (ws : list (nat * value)) sts :
  for_each ws (fun w => setitem w.1 k w.2) sts
  = Run (apply_writes k ws sts) (write_events k ws) (Ok tt).
Proof.
  revert sts. induction ws as [|w ws IH]; intros sts; [done|].
  cbn. erewrite bind_run; [|reflexivity|apply IH]. done.
Qed.

Lemma for_each_emit {A} (g : A -> event) (l : list A) sts :
  for_each l (fun x => emit (g x)) sts = Run sts (g <$> l) (Ok tt).
Proof.
  revert sts. induction l as [|x l IH]; intros sts; [done|].
  cbn. erewrite bind_run; [|reflexivity|apply IH]. done.
Qed.

Lemma apply_writes_app k ws1 ws2 sts :
  apply_writes k (ws1 ++ ws2) sts = apply_writes k ws2 (apply_writes k ws1 sts).
Proof. apply foldl_app. Qed.

Lemma write_events_app k ws1 ws2 :
  write_events k (ws1 ++ ws2) = write_events k ws1 ++ write_events k ws2.
Proof. apply fmap_app. Qed.

(** ** One turn of each loop, in closed form *)

Section closed_forms.
Context (self : JSelectInLoader) (connection : list bound -> result (list SARow)).

Lemma bind_lift_and_then {A B} (x : result A) (f : A -> M B) sts :
  (lift x ≫= f) sts = and_then sts [] x (fun a => f a sts).
Proof. rewrite bind_lift. by destruct x. Qed.

Lemma bind_execute {B} pks (f : list SARow -> M B) sts :
  (execute connection pks ≫= f) sts =
  and_then sts [EvExecute pks] (connection pks) (fun rows =>
    Run (states (f rows sts)) (EvExecute pks :: events (f rows sts))
        (outcome (f rows sts))).
Proof.
  unfold execute, mbind, M_bind, emit, lift. cbn.
  by destruct (connection pks).
Qed.

Lemma child_population_run our_states none_states data chunk sts :
  (for_each chunk (fun k =>
     for_each (default [] (pd_get k our_states)) (fun i =>
       setitem i (key self) (related_value self (pd_get k data))))
   ≫= fun _ => for_each none_states (fun i => setitem i (key self) VNone)) sts
  = let ws := child_writes self our_states none_states data chunk in
    Run (apply_writes (key self) ws sts) (write_events (key self) ws)
        (Ok tt).
Proof.
  cbn. rewrite <- (for_each_writes (key self)). unfold child_writes.
  rewrite for_each_app. apply bind_ext.
  - rewrite for_each_join. apply for_each_ext_in. intros k s _.
    by rewrite for_each_fmap.
  - intros _ s. by rewrite for_each_fmap.
Qed.

Lemma via_child_chunk_run our_states none_states chunk sts :
  _load_via_child_chunk self connection our_states none_states chunk sts =
  and_then sts [] (tuple_of (bind_key (zero_idx (query_info self))) chunk)
    (fun pks =>
  and_then sts [EvExecute pks] (connection pks) (fun rows =>
  and_then sts [EvExecute pks] (rows_by_pk self rows []) (fun data =>
    let ws := child_writes self our_states none_states data chunk in
    Run (apply_writes (key self) ws sts)
        (EvExecute pks :: write_events (key self) ws
           ++ (EvYield <$> pd_values data))
        (Ok tt)))).
Proof.
  unfold _load_via_child_chunk. rewrite bind_lift_and_then.
  destruct (tuple_of _ chunk) as [pks| |]; cbn [and_then]; [|done..].
  rewrite bind_execute.
  destruct (connection pks) as [rows| |]; cbn [and_then]; [|done..].
  rewrite bind_lift_and_then.
  destruct (rows_by_pk self rows []) as [data| |]; cbn [and_then states events outcome];
    [|done..].
  pose proof (child_population_run our_states none_states data chunk sts) as Hp.
  cbn zeta in Hp.
  set (pop := for_each chunk _) in *.
  set (nones := for_each none_states _) in *.
  assert (((pop ≫= fun _ => nones) ≫= fun _ =>
            for_each (pd_values data) (fun row => emit (EvYield row))) sts
          = (pop ≫= (fun _ => nones ≫= fun _ =>
            for_each (pd_values data) (fun row => emit (EvYield row)))) sts) as <-.
  { unfold mbind, M_bind. destruct (outcome (pop sts)); cbn; [|done..].
    destruct (outcome (nones (states (pop sts)))); cbn; [|done..].
    by rewrite app_assoc. }
  erewrite bind_run; [|apply Hp|apply for_each_emit]. done.
Qed.

Lemma populate_parent_run data k i sts :
  populate_parent self data (k, i) sts =
  and_then sts [] (hash_check k) (fun _ =>
    let c := collection_of self data k in
    Run (alter (insert (key self) (stored_value self c)) i sts)
        (warning self c ++ EvSetItem i (key self) (stored_value self c)
           :: (EvYield <$> default [] c))
        (match c with Some _ => Ok tt | None => Raise TypeError end)).
Proof.
  unfold populate_parent. rewrite bind_lift_and_then.
  destruct (hash_check k) as [[]| |]; cbn [and_then]; [|done..].
  fold (collection_of self data k). cbn zeta.
  unfold stored_value, warning, yield_from.
  destruct (uselist self), (collection_of self data k) as [[|r1 [|r2 rows]]|];
    try (erewrite bind_run; [|reflexivity|apply for_each_emit]; reflexivity);
    try reflexivity.
Qed.

Lemma via_parent_chunk_run chunk sts :
  _load_via_parent_chunk self connection chunk sts =
  and_then sts []
    (tuple_of (fun ks => bind_key (zero_idx (query_info self)) ks.1) chunk)
    (fun pks =>
  and_then sts [EvExecute pks] (connection pks) (fun rows =>
  and_then sts [EvExecute pks] (group_rows self rows) (fun data =>
    let r := for_each chunk (populate_parent self data) sts in
    Run (states r) (EvExecute pks :: events r) (outcome r)))).
Proof.
  unfold _load_via_parent_chunk. rewrite bind_lift_and_then.
  destruct (tuple_of _ chunk) as [pks| |]; cbn [and_then]; [|done..].
  rewrite bind_execute.
  destruct (connection pks) as [rows| |]; cbn [and_then]; [|done..].
  rewrite bind_lift_and_then.
  by destruct (group_rows self rows) as [data| |].
Qed.
End closed_forms.

(** ** Sorting *)

Lemma value_lt_asym x y : value_lt x y = Some true → value_lt y x = Some false.
Proof.
  destruct x as [[| m | s]| |], y as [[| n | t]| |]; cbn; try done.
  - intros [= H]. f_equal. apply Z.ltb_lt in H. apply Z.ltb_ge. lia.
  - intros [= H]. f_equal. unfold String.ltb in *.
    rewrite String.compare_antisym. by destruct (String.compare s t).
Qed.

Lemma tuple_lt_asym a b : tuple_lt a b = Some true → tuple_lt b a = Some false.
Proof.
  revert b. induction a as [|x a IH]; intros [|y b]; cbn; try done.
  destruct (decide (x = y)) as [->|Hxy].
  - rewrite decide_True by done. apply IH.
  - rewrite decide_False by congruence. apply value_lt_asym.
Qed.

Lemma key_le_head x a y b : key_le (x :: a) (y :: b) → key_le [x] [y].
Proof.
  unfold key_le. cbn. destruct (decide (y = x)); [done|].
  by destruct (value_lt y x) as [[]|].
Qed.

Lemma HdRel_insert_key x y l :
  key_le y x → HdRel key_le y l → HdRel key_le y (insert_key x l).
Proof.
  intros Hyx Hl. destruct l as [|z l]; cbn; [by constructor|].
  destruct (tuple_ltb z x); constructor; [by inversion Hl|done].
Qed.

Lemma Sorted_insert_key x l :
  forallb (comparable x) l = true →
  forallb (fun b => comparable b x) l = true →
  Sorted key_le l → Sorted key_le (insert_key x l).
Proof.
  induction l as [|y l IH]; cbn; intros H1 H2 Hs.
  - by repeat constructor.
  - apply andb_prop in H1 as [_ H1]. apply andb_prop in H2 as [Hyx H2].
    inversion Hs as [|? ? Hs' Hd]; subst.
    unfold tuple_ltb. unfold comparable in Hyx.
    apply bool_decide_eq_true in Hyx as [b Hb]. rewrite Hb. destruct b; cbn.
    + constructor; [by apply IH|].
      apply HdRel_insert_key; [|done]. by apply tuple_lt_asym.
    + constructor; [done|]. by constructor.
Qed.

Lemma insert_key_Permutation x l : insert_key x l ≡ₚ x :: l.
Proof.
  induction l as [|y l IH]; cbn; [done|].
  destruct (tuple_ltb y x); [|done]. rewrite IH. apply Permutation_swap.
Qed.

Lemma insertion_sort_Permutation l : insertion_sort l ≡ₚ l.
Proof.
  induction l as [|x l IH]; cbn; [done|].
  rewrite insert_key_Permutation. by rewrite IH.
Qed.

Lemma forallb_Permutation {A} (f : A -> bool) l l' :
  l ≡ₚ l' → forallb f l = forallb f l'.
Proof.
  induction 1; cbn; try congruence.
  destruct (f x), (f y); done.
Qed.

Lemma Sorted_insertion_sort l :
  pairwise_comparable l = true → Sorted key_le (insertion_sort l).
Proof.
  induction l as [|x l IH]; cbn; [constructor|].
  intros [[H1 H2]%andb_prop H3]%andb_prop.
  apply Sorted_insert_key; [| |by apply IH].
  - by rewrite (forallb_Permutation _ _ _ (insertion_sort_Permutation l)).
  - by rewrite (forallb_Permutation _ _ _ (insertion_sort_Permutation l)).
Qed.

Lemma sorted_outcome l :
  (sorted l = Ok (insertion_sort l) ∧ Sorted key_le (insertion_sort l))
  ∨ sorted l = Raise TypeError.
Proof.
  unfold sorted. destruct (pairwise_comparable l) eqn:E; [left|by right].
  split; [done|]. by apply Sorted_insertion_sort.
Qed.

Lemma Sorted_take {A} (R : A -> A -> Prop) n l : Sorted R l → Sorted R (take n l).
Proof.
  revert l. induction n as [|n IH]; intros [|x l] Hs; cbn; try constructor.
  - inversion Hs; subst. by apply IH.
  - inversion Hs as [|? ? _ Hd]; subst.
    destruct l, n; cbn; constructor. by inversion Hd.
Qed.

Lemma Sorted_drop {A} (R : A -> A -> Prop) n l : Sorted R l → Sorted R (drop n l).
Proof.
  revert l. induction n as [|n IH]; intros [|x l] Hs; cbn; try done.
  inversion Hs; subst. by apply IH.
Qed.

Lemma Sorted_bound_keys zero chunk pks :
  tuple_of (bind_key zero) chunk = Ok pks →
  Sorted key_le chunk → Sorted key_le (unbind <$> pks).
Proof.
  revert pks. induction chunk as [|k chunk IH]; intros pks.
  - intros [= <-] _. constructor.
  - rewrite tuple_of_cons. destruct (bind_key zero k) as [b| |] eqn:Eb; [|done..].
    destruct (tuple_of (bind_key zero) chunk) as [pks'| |] eqn:Et; [|done..].
    intros [= <-] Hs. inversion Hs as [|? ? Hs' Hd]; subst. cbn.
    constructor; [by apply IH|].
    destruct chunk as [|k' chunk]; [injection Et as <-; constructor|].
    rewrite tuple_of_cons in Et.
    destruct (bind_key zero k') as [b'| |] eqn:Eb'; [|done..].
    destruct (tuple_of (bind_key zero) chunk); [|done..]. injection Et as <-.
    cbn. constructor. inversion Hd as [|? ? Hle]; subst.
    unfold bind_key in Eb, Eb'. destruct zero.
    + destruct k as [|x xs], k' as [|y ys]; try done.
      injection Eb as <-. injection Eb' as <-. cbn. by eapply key_le_head.
    + injection Eb as <-. by injection Eb' as <-.
Qed.

(** ** What is bound to the executed queries *)

Lemma bound_lists_app evs1 evs2 :
  bound_lists (evs1 ++ evs2) = bound_lists evs1 ++ bound_lists evs2.
Proof.
  induction evs1 as [|[] evs1 IH]; cbn; [done| |done..]. by rewrite IH.
Qed.

Lemma bound_lists_no_execute evs :
  Forall (fun ev => is_execute ev = false) evs → bound_lists evs = [].
Proof. induction 1 as [|[] evs H _ IH]; cbn; done. Qed.

Lemma no_execute_write_events k ws :
  Forall (fun ev => is_execute ev = false) (write_events k ws).
Proof. apply Forall_fmap, Forall_forall. done. Qed.

Lemma no_execute_yields (rows : list SARow) :
  Forall (fun ev => is_execute ev = false) (EvYield <$> rows).
Proof. apply Forall_fmap, Forall_forall. done. Qed.

Section via_child_bound.
Context (self : JSelectInLoader) (connection : list bound -> result (list SARow)).

Lemma via_child_chunk_bound_lists our_states none_states chunk sts :
  let r := _load_via_child_chunk self connection our_states none_states chunk sts in
  bound_lists (events r) = []
  ∨ ∃ pks, tuple_of (bind_key (zero_idx (query_info self))) chunk = Ok pks
           ∧ bound_lists (events r) = [pks].
Proof.
  cbn. rewrite via_child_chunk_run.
  destruct (tuple_of _ chunk) as [pks| |]; cbn [and_then]; [|by left..].
  right. exists pks. split; [done|].
  destruct (connection pks) as [rows| |]; cbn [and_then]; [|done..].
  destruct (rows_by_pk self rows []) as [data| |]; cbn [and_then]; [|done..].
  cbn. f_equal. rewrite bound_lists_app.
  rewrite (bound_lists_no_execute _ (no_execute_write_events _ _)).
  by rewrite (bound_lists_no_execute _ (no_execute_yields _)).
Qed.

Lemma via_child_loop_sorted fuel our_states none_states our_keys sts :
  Sorted key_le our_keys →
  bound_keys_sorted
    (events (_load_via_child_loop self connection fuel our_states none_states
               our_keys sts)).
Proof.
  revert our_keys sts. induction fuel as [|fuel IH]; intros [|k l] sts Hs;
    try by constructor.
  cbn [_load_via_child_loop].
  set (chunk := take (CHUNKSIZE self) (k :: l)).
  assert (bound_keys_sorted
            (events (_load_via_child_chunk self connection our_states
                       none_states chunk sts))) as Hchunk.
  { unfold bound_keys_sorted.
    destruct (via_child_chunk_bound_lists our_states none_states chunk sts)
      as [->|(pks & Hpks & ->)]; [constructor|].
    apply Forall_singleton. eapply Sorted_bound_keys; [done|].
    by apply Sorted_take. }
  unfold mbind, M_bind.
  destruct (outcome (_load_via_child_chunk _ _ _ _ chunk sts)); cbn; [|done..].
  unfold bound_keys_sorted. rewrite bound_lists_app. apply Forall_app. split; [done|].
  apply IH. by apply Sorted_drop.
Qed.

Lemma via_child_sorted our_states none_states sts :
  bound_keys_sorted
    (events (_load_via_child self connection our_states none_states sts)).
Proof.
  unfold _load_via_child. rewrite bind_lift_and_then.
  destruct (sorted_outcome (pd_keys our_states)) as [[-> Hs]| ->]; cbn [and_then].
  - by apply via_child_loop_sorted.
  - constructor.
Qed.
End via_child_bound.

Lemma tuple_of_app {A B} (f : A -> result B) l1 l2 t1 t2 :
  tuple_of f l1 = Ok t1 → tuple_of f l2 = Ok t2 →
  tuple_of f (l1 ++ l2) = Ok (t1 ++ t2).
Proof.
  revert t1. induction l1 as [|x l1 IH]; intros t1.
  - by intros [= <-].
  - cbn [app]. rewrite !tuple_of_cons. destruct (f x); [|done..].
    destruct (tuple_of f l1) as [t| |]; [|done..].
    intros [= <-] H2. by rewrite (IH t eq_refl H2).
Qed.

Lemma prepare_parent_spec mapper i0 parents l :
  prepare_parent mapper i0 parents = Ok l →
  l.*2 = seq i0 (length parents)
  ∧ Forall2 (fun st e => get_primary_key_tuple mapper st = Ok e.1) parents l.
Proof.
  revert i0 l. induction parents as [|p parents IH]; intros i0 l.
  - intros [= <-]. by split; [|constructor].
  - rewrite prepare_parent_cons.
    destruct (get_primary_key_tuple mapper p) as [k| |] eqn:Ek; [|done..].
    destruct (prepare_parent mapper (S i0) parents) as [l'| |] eqn:El; [|done..].
    intros [= <-]. destruct (IH _ _ El) as [H1 H2]. split.
    + cbn. by rewrite H1.
    + by constructor.
Qed.

Section via_parent_bound.
Context (self : JSelectInLoader) (connection : list bound -> result (list SARow)).

Lemma populate_parent_no_execute data ks sts :
  Forall (fun ev => is_execute ev = false)
    (events (populate_parent self data ks sts)).
Proof.
  destruct ks as [k i]. rewrite populate_parent_run.
  destruct (hash_check k); cbn; [|constructor..].
  apply Forall_app. split.
  - unfold warning. destruct (uselist self), (collection_of self data k)
      as [[|? [|? ?]]|]; by repeat constructor.
  - constructor; [done|]. apply no_execute_yields.
Qed.

Lemma for_each_populate_no_execute data chunk sts :
  Forall (fun ev => is_execute ev = false)
    (events (for_each chunk (populate_parent self data) sts)).
Proof.
  revert sts. induction chunk as [|ks chunk IH]; intros sts; [constructor|].
  cbn. unfold mbind, M_bind.
  pose proof (populate_parent_no_execute data ks sts) as H.
  destruct (outcome (populate_parent self data ks sts)); cbn; [|done..].
  apply Forall_app. split; [done|apply IH].
Qed.

Lemma via_parent_chunk_bound_lists chunk sts :
  let r := _load_via_parent_chunk self connection chunk sts in
  (bound_lists (events r) = [] ∧ ∀ a, outcome r ≠ Ok a)
  ∨ ∃ pks, tuple_of (fun ks => bind_key (zero_idx (query_info self)) ks.1) chunk
           = Ok pks
           ∧ bound_lists (events r) = [pks].
Proof.
  cbn. rewrite via_parent_chunk_run.
  destruct (tuple_of _ chunk) as [pks| |]; cbn [and_then]; [|by left..].
  right. exists pks. split; [done|].
  destruct (connection pks) as [rows| |]; cbn [and_then]; [|done..].
  destruct (group_rows self rows) as [data| |]; cbn [and_then]; [|done..].
  cbn. f_equal. apply bound_lists_no_execute, for_each_populate_no_execute.
Qed.

Lemma via_parent_loop_bound_lists fuel our_states sts :
  ∃ n, tuple_of (fun ks => bind_key (zero_idx (query_info self)) ks.1)
         (take n our_states)
       = Ok (mjoin (bound_lists
               (events (_load_via_parent_loop self connection fuel our_states sts)))).
Proof.
  revert our_states sts. induction fuel as [|fuel IH]; intros [|e l] sts;
    try (by exists 0%nat).
  cbn [_load_via_parent_loop].
  set (chunk := take (CHUNKSIZE self) (e :: l)).
  destruct (via_parent_chunk_bound_lists chunk sts) as [[Hb Hne]|(pks & Hpks & Hb)];
    cbn zeta in *.
  - exists 0%nat.
    destruct (bind_not_ok (_load_via_parent_chunk self connection chunk)
                (fun _ => _load_via_parent_loop self connection fuel
                            (drop (CHUNKSIZE self) (e :: l))) sts Hne)
      as (_ & -> & _).
    by rewrite Hb.
  - unfold mbind, M_bind.
    destruct (outcome (_load_via_parent_chunk self connection chunk sts)); cbn.
    + destruct (IH (drop (CHUNKSIZE self) (e :: l))
                  (states (_load_via_parent_chunk self connection chunk sts)))
        as [n Hn].
      exists (CHUNKSIZE self + n)%nat.
      rewrite <- take_take_drop, bound_lists_app, Hb.
      cbn [mjoin list_join app]. by apply tuple_of_app.
    + exists (CHUNKSIZE self). rewrite Hb. cbn. by rewrite app_nil_r.
    + exists (CHUNKSIZE self). rewrite Hb. cbn. by rewrite app_nil_r.
Qed.

Lemma via_child_chunk_bound_lists_stop our_states none_states chunk sts :
  let r := _load_via_child_chunk self connection our_states none_states chunk sts in
  (bound_lists (events r) = [] ∧ ∀ a, outcome r ≠ Ok a)
  ∨ ∃ pks, tuple_of (bind_key (zero_idx (query_info self))) chunk = Ok pks
           ∧ bound_lists (events r) = [pks].
Proof.
  cbn. rewrite via_child_chunk_run.
  destruct (tuple_of _ chunk) as [pks| |]; cbn [and_then]; [|by left..].
  right. exists pks. split; [done|].
  destruct (connection pks) as [rows| |]; cbn [and_then]; [|done..].
  destruct (rows_by_pk self rows []) as [data| |]; cbn [and_then]; [|done..].
  cbn. f_equal. rewrite bound_lists_app.
  rewrite (bound_lists_no_execute _ (no_execute_write_events _ _)).
  by rewrite (bound_lists_no_execute _ (no_execute_yields _)).
Qed.

(** However the loop of [_load_via_child] ends, its queries were bound, one
    after the other, to the first keys of the list it was given. *)
Lemma via_child_loop_bound_lists fuel our_states none_states our_keys sts :
  ∃ n, tuple_of (bind_key (zero_idx (query_info self))) (take n our_keys)
       = Ok (mjoin (bound_lists
               (events (_load_via_child_loop self connection fuel our_states
                          none_states our_keys sts)))).
Proof.
  revert our_keys sts. induction fuel as [|fuel IH]; intros [|e l] sts;
    try (by exists 0%nat).
  cbn [_load_via_child_loop].
  set (chunk := take (CHUNKSIZE self) (e :: l)).
  destruct (via_child_chunk_bound_lists_stop our_states none_states chunk sts)
    as [[Hb Hne]|(pks & Hpks & Hb)]; cbn zeta in *.
  - exists 0%nat.
    destruct (bind_not_ok
                (_load_via_child_chunk self connection our_states none_states chunk)
                (fun _ => _load_via_child_loop self connection fuel our_states
                            none_states (drop (CHUNKSIZE self) (e :: l))) sts Hne)
      as (_ & -> & _).
    by rewrite Hb.
  - unfold mbind, M_bind.
    destruct (outcome (_load_via_child_chunk self connection our_states
                         none_states chunk sts)); cbn.
    + destruct (IH (drop (CHUNKSIZE self) (e :: l))
                  (states (_load_via_child_chunk self connection our_states
                             none_states chunk sts)))
        as [n Hn].
      exists (CHUNKSIZE self + n)%nat.
      rewrite <- take_take_drop, bound_lists_app, Hb.
      cbn [mjoin list_join app]. by apply tuple_of_app.
    + exists (CHUNKSIZE self). rewrite Hb. cbn. by rewrite app_nil_r.
    + exists (CHUNKSIZE self). rewrite Hb. cbn. by rewrite app_nil_r.
Qed.

(** C8, amended. The keys are sorted in the MANYTOONE path, all of them
    and once, before the first batch is taken: the queries are bound, one
    after the other, to the first keys of the sorted list of all the keys,
    so the keys of every query are in ascending order, and so are the keys
    of all the queries of the call taken together, across the batches. In
    the ONETOMANY and MANYTOMANY path, the path that groups the fetched
    rows by their foreign key tuple, no key is sorted: the entries are the
    parents in the order of the parent list, and the queries are bound, one
    after the other, to the primary keys of the first parents of that
    list, in that order. *)
Theorem C8_keys_sorted_in_via_child_only (parents : list SARowDict) :
  (load_only_child (query_info self) = true →
   bound_keys_sorted (events (load self connection parents))
   ∧ all_bound_keys_sorted (events (load self connection parents))
   ∧ ∀ our_states none_states our_keys,
       prepare_states self parents = Ok (ByKey our_states none_states) →
       sorted (pd_keys our_states) = Ok our_keys →
       our_keys ≡ₚ pd_keys our_states
       ∧ Sorted key_le our_keys
       ∧ ∃ n, tuple_of (bind_key (zero_idx (query_info self))) (take n our_keys)
              = Ok (mjoin (bound_lists (events (load self connection parents)))))
  ∧ (load_only_child (query_info self) = false →
     ∀ our_states, prepare_states self parents = Ok (Listed our_states) →
       our_states.*2 = seq 0 (length parents)
       ∧ Forall2 (fun st e => get_primary_key_tuple (source_mapper self) st = Ok e.1)
           parents our_states
       ∧ ∃ n, tuple_of (fun ks => bind_key (zero_idx (query_info self)) ks.1)
                (take n our_states)
              = Ok (mjoin (bound_lists (events (load self connection parents))))).
Proof.
  split.
  - intros Hc.
    assert (∀ our_states none_states our_keys,
       prepare_states self parents = Ok (ByKey our_states none_states) →
       sorted (pd_keys our_states) = Ok our_keys →
       our_keys ≡ₚ pd_keys our_states
       ∧ Sorted key_le our_keys
       ∧ ∃ n, tuple_of (bind_key (zero_idx (query_info self))) (take n our_keys)
              = Ok (mjoin (bound_lists (events (load self connection parents)))))
      as Hprefix.
    { intros our none keys Hp Hs. unfold load. rewrite Hp.
      unfold fetch_results_and_populate_states. rewrite Hc.
      unfold _load_via_child. rewrite bind_lift_and_then, Hs. cbn [and_then].
      destruct (sorted_outcome (pd_keys our)) as [[Hs' Hsorted]|Hs'];
        [|congruence].
      assert (keys = insertion_sort (pd_keys our)) as -> by congruence.
      split_and!; [apply insertion_sort_Permutation|done|].
      apply via_child_loop_bound_lists. }
    split_and!; [| |exact Hprefix].
    + unfold load.
      destruct (prepare_states self parents) as [st| |]; try by constructor.
      unfold fetch_results_and_populate_states. rewrite Hc.
      destruct st; [apply via_child_sorted|constructor].
    + unfold all_bound_keys_sorted.
      destruct (prepare_states self parents) as [[our none|l]| |] eqn:Hp.
      * destruct (sorted_outcome (pd_keys our)) as [[Hs Hsorted]|Hs].
        -- destruct (Hprefix our none _ eq_refl Hs) as (_ & _ & n & Hn).
           eapply Sorted_bound_keys; [exact Hn|]. by apply Sorted_take.
        -- unfold load. rewrite Hp. unfold fetch_results_and_populate_states.
           rewrite Hc. unfold _load_via_child.
           rewrite bind_lift_and_then, Hs. constructor.
      * unfold load. rewrite Hp. unfold fetch_results_and_populate_states.
        rewrite Hc. constructor.
      * unfold load. rewrite Hp. constructor.
      * unfold load. rewrite Hp. constructor.
  - intros Hc l Hp. unfold load. rewrite Hp.
    unfold fetch_results_and_populate_states. rewrite Hc.
    unfold prepare_states in Hp. rewrite Hc in Hp.
    destruct (load_with_join (query_info self)); [done|].
    destruct (prepare_parent (source_mapper self) 0 parents) as [l'| |] eqn:El;
      [|done..].
    injection Hp as ->. destruct (prepare_parent_spec _ _ _ _ El) as [H1 H2].
    split_and!; [done..|]. apply via_parent_loop_bound_lists.
Qed.
End via_parent_bound.

Lemma C8_keys_sorted_in_via_child_only_witness :
  (bound_keys_sorted
     (events (load (many_to_one false 2)
                (table_connection ["id"] true [target 5; target 6; target 7])
                [child 1 (SInt 7); child 2 (SInt 5); child 3 (SInt 6)]))
   ∧ all_bound_keys_sorted
       (events (load (many_to_one false 2)
                  (table_connection ["id"] true [target 5; target 6; target 7])
                  [child 1 (SInt 7); child 2 (SInt 5); child 3 (SInt 6)]))
   ∧ bound_lists
       (events (load (many_to_one false 2)
                  (table_connection ["id"] true [target 5; target 6; target 7])
                  [child 1 (SInt 7); child 2 (SInt 5); child 3 (SInt 6)]))
     = [[BScalar (VInt 5); BScalar (VInt 6)]; [BScalar (VInt 7)]])
  ∧ ∃ n, tuple_of (fun ks : key_tuple * nat => bind_key true ks.1)
           (take n [([VInt 20], 0%nat); ([VInt 10], 1%nat)])
         = Ok (mjoin (bound_lists
                 (events (load (one_to_many true 500)
                            (table_connection ["owner_id"] true items)
                            [owner 20; owner 10])))).
Proof.
  split.
  - destruct (proj1 (C8_keys_sorted_in_via_child_only (many_to_one false 2)
             (table_connection ["id"] true [target 5; target 6; target 7])
             [child 1 (SInt 7); child 2 (SInt 5); child 3 (SInt 6)]) eq_refl)
      as (H1 & H2 & _).
    split; [exact H1|]. split; [exact H2|]. vm_compute. reflexivity.
  - apply (proj2 (C8_keys_sorted_in_via_child_only (one_to_many true 500)
             (table_connection ["owner_id"] true items)
             [owner 20; owner 10]) eq_refl
             [([VInt 20], 0%nat); ([VInt 10], 1%nat)]).
    vm_compute. reflexivity.
Defined.

(** Keys in ascending order within each query only do not pass for sorted:
    the batches [[5; 7]] and [[6]] are each in order, the keys of the call
    are not. *)
Lemma all_bound_keys_sorted_across_batches :
  bound_keys_sorted [EvExecute [BScalar (VInt 5); BScalar (VInt 7)];
                     EvExecute [BScalar (VInt 6)]]
  ∧ ¬ all_bound_keys_sorted [EvExecute [BScalar (VInt 5); BScalar (VInt 7)];
                             EvExecute [BScalar (VInt 6)]].
Proof.
  split.
  - repeat constructor.
  - unfold all_bound_keys_sorted. cbn. intros H.
    inversion H as [|? ? H1 _]; subst. inversion H1 as [|? ? _ Hd]; subst.
    inversion Hd as [|? ? Hle]; subst. vm_compute in Hle. discriminate.
Qed.

(** ** The chunked loops *)

Lemma via_parent_loop_eq self connection fuel our_states sts :
  _load_via_parent_loop self connection fuel our_states sts
  = chunk_loop (CHUNKSIZE self) (_load_via_parent_chunk self connection) fuel
      our_states sts.
Proof.
  revert our_states sts. induction fuel as [|fuel IH]; intros [|e l] sts; try done.
  cbn [_load_via_parent_loop chunk_loop]. apply bind_ext; [done|].
  intros _ s. apply IH.
Qed.

Lemma via_child_loop_eq self connection fuel our_states none_states our_keys sts :
  _load_via_child_loop self connection fuel our_states none_states our_keys sts
  = chunk_loop (CHUNKSIZE self)
      (_load_via_child_chunk self connection our_states none_states) fuel
      our_keys sts.
Proof.
  revert our_keys sts. induction fuel as [|fuel IH]; intros [|e l] sts; try done.
  cbn [_load_via_child_loop chunk_loop]. apply bind_ext; [done|].
  intros _ s. apply IH.
Qed.

Lemma take_nonempty {A} n (l : list A) : (1 ≤ n)%nat → l ≠ [] → take n l ≠ [].
Proof. destruct n, l; cbn; try done. lia. Qed.

Section chunk_loop.
Context {A : Type} (n : nat) (step : list A -> M unit).

Lemma chunk_loop_cons fuel x l sts :
  chunk_loop n step (S fuel) (x :: l) sts
  = (step (take n (x :: l))
     ≫= fun _ => chunk_loop n step fuel (drop n (x :: l))) sts.
Proof. done. Qed.

(** An invariant of the store, indexed by the part of the list that has
    been processed, holds at the end of a loop that returns. *)
Lemma chunk_loop_inv (Inv : list SARowDict -> list A -> Prop) (L : list A)
    fuel l done sts :
  (∀ done rem sts, done ++ rem = L → rem ≠ [] → Inv sts done →
     outcome (step (take n rem) sts) = Ok tt →
     Inv (states (step (take n rem) sts)) (done ++ take n rem)) →
  done ++ l = L →
  Inv sts done →
  outcome (chunk_loop n step fuel l sts) = Ok tt →
  Inv (states (chunk_loop n step fuel l sts)) L.
Proof.
  intros Hstep. revert l done sts.
  induction fuel as [|fuel IH]; intros [|x l] done sts HL HI Ho.
  - rewrite app_nil_r in HL. by subst.
  - done.
  - rewrite app_nil_r in HL. by subst.
  - rewrite chunk_loop_cons in *. unfold mbind, M_bind in *.
    destruct (outcome (step (take n (x :: l)) sts)) as [[]| |] eqn:E; [|done..].
    cbn in *. eapply (IH _ (done ++ take n (x :: l))); [| |done].
    + by rewrite <- app_assoc, take_drop.
    + by apply Hstep.
Qed.


(** A loop whose turns all return, returns. *)
Lemma chunk_loop_returns fuel l sts :
  (1 ≤ n)%nat → (length l ≤ fuel)%nat →
  (∀ chunk sts, chunk ≠ [] → chunk ⊆ l → outcome (step chunk sts) = Ok tt) →
  outcome (chunk_loop n step fuel l sts) = Ok tt.
Proof.
  intros Hn. revert l sts.
  induction fuel as [|fuel IH]; intros [|x l] sts Hf Hstep; try done.
  - cbn in Hf. lia.
  - rewrite chunk_loop_cons. unfold mbind, M_bind.
    rewrite Hstep; cycle 1.
    { by apply take_nonempty. }
    { apply subseteq_take. }
    cbn. apply IH.
    + rewrite length_drop. cbn in *. lia.
    + intros chunk s Hne Hsub. apply Hstep; [done|].
      intros y Hy. eapply subseteq_drop. by apply Hsub.
Qed.

(** When every turn that returns has executed one query, a loop that
    returns has executed one query per chunk. *)
Lemma chunk_loop_executed fuel l sts :
  (∀ chunk sts, outcome (step chunk sts) = Ok tt →
     executed (events (step chunk sts)) = 1%nat) →
  outcome (chunk_loop n step fuel l sts) = Ok tt →
  executed (events (chunk_loop n step fuel l sts)) = length (chunked fuel n l).
Proof.
  intros Hstep. revert l sts.
  induction fuel as [|fuel IH]; intros [|x l] sts Ho; try done.
  rewrite chunk_loop_cons in *. unfold mbind, M_bind in *.
  destruct (outcome (step (take n (x :: l)) sts)) as [[]| |] eqn:E; [|done..].
  cbn in *. unfold executed in *. rewrite List.filter_app, length_app.
  rewrite (Hstep _ _ E). by rewrite IH.
Qed.

(** The store and the outcome of the loop are those of a plain loop over the
    entries, when each turn leaves the store and the outcome of the plain
    loop over its chunk. *)
Lemma chunk_loop_for_each (body : A -> M unit) fuel l sts :
  (1 ≤ n)%nat → (length l ≤ fuel)%nat →
  (∀ chunk sts, chunk ≠ [] → chunk ⊆ l →
     states (step chunk sts) = states (for_each chunk body sts)
     ∧ outcome (step chunk sts) = outcome (for_each chunk body sts)) →
  states (chunk_loop n step fuel l sts) = states (for_each l body sts)
  ∧ outcome (chunk_loop n step fuel l sts) = outcome (for_each l body sts).
Proof.
  intros Hn. revert l sts.
  induction fuel as [|fuel IH]; intros [|x l] sts Hf Hstep; try done.
  - cbn in Hf. lia.
  - rewrite chunk_loop_cons.
    rewrite <- (take_drop n (x :: l)) at 2 4. rewrite for_each_app.
    destruct (Hstep (take n (x :: l)) sts) as [Hs Ho].
    { by apply take_nonempty. }
    { apply subseteq_take. }
    unfold mbind, M_bind. rewrite Ho.
    destruct (outcome (for_each (take n (x :: l)) body sts)) as [[]| |]; cbn;
      [|done..].
    rewrite Hs. apply IH.
    + rewrite length_drop. cbn in *. lia.
    + intros chunk s Hne Hsub. apply Hstep; [done|].
      intros y Hy. eapply subseteq_drop. by apply Hsub.
Qed.
End chunk_loop.

Lemma ceil_div_step len b : (1 ≤ b)%nat → (1 ≤ len)%nat →
  ceil_div len b = S (ceil_div (len - b) b).
Proof.
  intros Hb Hl. unfold ceil_div.
  destruct (decide (len ≤ b)%nat) as [Hle|Hgt].
  - replace (len - b + b - 1)%nat with (b - 1)%nat by lia.
    rewrite (Nat.div_small (b - 1) b) by lia.
    symmetry. apply (Nat.div_unique _ b 1 (len - 1)); lia.
  - replace (len + b - 1)%nat with ((len - b + b - 1) + 1 * b)%nat by lia.
    rewrite Nat.div_add by lia. lia.
Qed.

Lemma length_chunked {A} fuel b (l : list A) :
  (1 ≤ b)%nat → (length l ≤ fuel)%nat →
  length (chunked fuel b l) = ceil_div (length l) b.
Proof.
  intros Hb. revert l. induction fuel as [|fuel IH]; intros [|x l] Hf.
  - cbn. unfold ceil_div. symmetry. apply Nat.div_small. lia.
  - cbn in Hf. lia.
  - cbn. unfold ceil_div. symmetry. apply Nat.div_small. lia.
  - cbn [chunked length]. rewrite IH by (rewrite length_drop; cbn in *; lia).
    rewrite length_drop. symmetry. apply ceil_div_step; cbn; lia.
Qed.

(** ** Python dicts *)

Section pydict_facts.
Context {K V : Type} `{EqDecision K}.
Implicit Types (d : list (K * V)) (k : K) (v : V).

Lemma pd_get_set k k' v d :
  pd_get k (pd_set k' v d) = if decide (k = k') then Some v else pd_get k d.
Proof.
  induction d as [|[k0 v0] d IH]; cbn.
  - by destruct (decide (k = k')).
  - destruct (decide (k' = k0)) as [->|Hne]; cbn.
    + destruct (decide (k = k0)); done.
    + destruct (decide (k = k0)) as [->|]; [|done].
      by rewrite decide_False by congruence.
Qed.

Lemma pd_get_Some_keys k v d : pd_get k d = Some v → k ∈ pd_keys d.
Proof.
  induction d as [|[k0 v0] d IH]; cbn; [done|].
  destruct (decide (k = k0)) as [->|]; intros; apply elem_of_cons; auto.
Qed.

Lemma pd_get_None_keys k d : pd_get k d = None ↔ k ∉ pd_keys d.
Proof.
  induction d as [|[k0 v0] d IH]; cbn.
  - split; [intros _; apply not_elem_of_nil|done].
  - rewrite not_elem_of_cons. destruct (decide (k = k0)) as [->|]; [|tauto].
    split; [done|tauto].
Qed.

Lemma pd_keys_set k v d :
  pd_keys (pd_set k v d)
  = if pd_get k d is Some _ then pd_keys d else pd_keys d ++ [k].
Proof.
  induction d as [|[k0 v0] d IH]; cbn; [done|].
  destruct (decide (k = k0)) as [->|]; cbn; [done|].
  unfold pd_keys in *. rewrite IH. by destruct (pd_get k d).
Qed.

Lemma pd_keys_set_NoDup k v d : NoDup (pd_keys d) → NoDup (pd_keys (pd_set k v d)).
Proof.
  intros Hd. rewrite pd_keys_set. destruct (pd_get k d) eqn:E; [done|].
  apply NoDup_app. split_and!; [done| |apply NoDup_singleton].
  intros x Hx ->%list_elem_of_singleton. by apply pd_get_None_keys in E.
Qed.

Lemma pd_values_elem k v d : pd_get k d = Some v → v ∈ pd_values d.
Proof.
  induction d as [|[k0 v0] d IH]; cbn; [done|].
  destruct (decide (k = k0)); [intros [= ->]|intros]; apply elem_of_cons; auto.
Qed.
End pydict_facts.

(** ** The rows of a batch, grouped *)

Section grouping.
Context {K A : Type} `{EqDecision K}.
Implicit Types (d : list (K * list A)) (l : list (K * A)).

Lemma dd_extend_twice d k g1 g2 :
  dd_extend (dd_extend d (k, g1)) (k, g2) = dd_extend d (k, g1 ++ g2).
Proof.
  unfold dd_extend. cbn. rewrite pd_get_set, decide_True by done. cbn.
  rewrite <- app_assoc. generalize (default [] (pd_get k d) ++ g1 ++ g2).
  generalize (default [] (pd_get k d) ++ g1).
  intros v1 v2. induction d as [|[k0 v0] d IH]; cbn.
  - by rewrite decide_True.
  - destruct (decide (k = k0)); cbn.
    + by rewrite decide_True.
    + rewrite decide_False by done. by rewrite IH.
Qed.

Lemma groupby_extend d l :
  foldl dd_extend d (groupby l) = foldl dd_extend1 d l.
Proof.
  revert d. induction l as [|[k a] l IH]; intros d; [done|].
  cbn [groupby foldl]. rewrite <- IH.
  destruct (groupby l) as [|[k' g] gs]; [done|].
  destruct (decide (k = k')) as [<-|]; [|done].
  cbn [foldl]. unfold dd_extend1 at 1. cbn [fst snd].
  by rewrite dd_extend_twice.
Qed.
End grouping.

Lemma rows_for_cons {A} (k k' : key_tuple) (a : A) keyed :
  rows_for k ((k', a) :: keyed)
  = if decide (k' = k) then a :: rows_for k keyed else rows_for k keyed.
Proof.
  unfold rows_for. rewrite filter_cons. cbn.
  by destruct (decide (k' = k)).
Qed.

Lemma pd_get_extend1 {A} (k : key_tuple) (d : list (key_tuple * list A)) keyed :
  pd_get k (foldl dd_extend1 d keyed)
  = match pd_get k d, rows_for k keyed with
    | Some g, rs => Some (g ++ rs)
    | None, [] => None
    | None, rs => Some rs
    end.
Proof.
  revert d. induction keyed as [|[k' a] keyed IH]; intros d.
  - cbn. destruct (pd_get k d); [by rewrite app_nil_r|done].
  - cbn [foldl]. rewrite IH, rows_for_cons.
    unfold dd_extend1, dd_extend. cbn [fst snd]. rewrite pd_get_set.
    destruct (decide (k = k')) as [->|Hne].
    + rewrite decide_True by done. destruct (pd_get k' d); cbn.
      * by rewrite <- app_assoc.
      * done.
    + rewrite decide_False by congruence. done.
Qed.

Section data.
Context (self : JSelectInLoader).

Lemma keyed_rows rows keyed :
  tuple_of (fun row => k ← get_foreign_key_tuple row (query_info self);
                       Ok (embed_key k, row)) rows = Ok keyed →
  ∀ k, rows_for k keyed = matching_rows self k rows.
Proof.
  revert keyed. induction rows as [|row rows IH]; intros keyed.
  - by intros [= <-].
  - rewrite tuple_of_cons.
    destruct (get_foreign_key_tuple row (query_info self)) as [kk| |] eqn:Ek;
      cbn; [|done..].
    destruct (tuple_of _ rows) as [keyed'| |]; [|done..].
    intros [= <-] k. rewrite rows_for_cons, (IH _ eq_refl).
    unfold matching_rows. cbn. rewrite Ek. cbn.
    destruct (decide (embed_key kk = k)) as [->|Hne].
    + by rewrite bool_decide_eq_true_2.
    + rewrite bool_decide_eq_false_2; [done|]. by intros [=].
Qed.

(** What [data.get(key)] finds in [_load_via_parent]: the fetched rows whose
    foreign key tuple is the key, in the order they were fetched. *)
Lemma group_rows_get rows data k :
  group_rows self rows = Ok data →
  pd_get k data = match matching_rows self k rows with
                  | [] => None
                  | rs => Some rs
                  end.
Proof.
  unfold group_rows.
  destruct (tuple_of _ rows) as [keyed| |] eqn:E; cbn; [|done..].
  intros [= <-]. rewrite groupby_extend, pd_get_extend1. cbn.
  by rewrite (keyed_rows _ _ E).
Qed.

Lemma matching_rows_key k rows row :
  row ∈ matching_rows self k rows →
  row ∈ rows ∧ embed_key <$> get_foreign_key_tuple row (query_info self) = Ok k.
Proof.
  unfold matching_rows. rewrite list_elem_of_In, List.filter_In, <- list_elem_of_In.
  intros [? ?%bool_decide_eq_true]. done.
Qed.

(** What [data.get(key)] finds in [_load_via_child]: the last fetched row
    whose primary key tuple is the key. *)
Lemma rows_by_pk_get rows d data k :
  rows_by_pk self rows d = Ok data →
  pd_get k data = match last_with_key self k rows with
                  | Some row => Some row
                  | None => pd_get k d
                  end.
Proof.
  revert d. induction rows as [|row rows IH]; intros d.
  - by intros [= <-].
  - cbn [rows_by_pk].
    destruct (get_primary_key_tuple (target_mapper self) row) as [kk| |] eqn:Ek;
      cbn; [|done..].
    intros Hd. rewrite (IH _ Hd), pd_get_set.
    unfold last_with_key. cbn. rewrite Ek. cbn.
    destruct (decide (k = embed_key kk)) as [->|Hne].
    + rewrite bool_decide_eq_true_2 by done. rewrite last_cons.
      by destruct (last _).
    + rewrite bool_decide_eq_false_2; [done|]. intros [=]. congruence.
Qed.

Lemma last_with_key_key k rows row :
  last_with_key self k rows = Some row →
  row ∈ rows
  ∧ embed_key <$> get_primary_key_tuple (target_mapper self) row = Ok k.
Proof.
  unfold last_with_key. intros H%last_Some_elem_of.
  apply list_elem_of_In, List.filter_In in H as [? ?%bool_decide_eq_true].
  by rewrite list_elem_of_In.
Qed.
End data.

(** ** The events of each batch *)

Lemma batch_body_no_execute body rest :
  Forall (fun ev => is_execute ev = false) body →
  batch_body (body ++ rest) = body ++ batch_body rest.
Proof.
  induction 1 as [|ev body Hev _ IH]; [done|]. cbn. by rewrite Hev, IH.
Qed.

Lemma segments_no_execute body rest :
  Forall (fun ev => is_execute ev = false) body →
  segments (body ++ rest) = segments rest.
Proof. induction 1 as [|ev body Hev _ IH]; [done|]. cbn. by rewrite Hev. Qed.

Lemma yield_after_prefix (l1 pre post : list event) (l2 : list SARow) row :
  l1 ++ (EvYield <$> l2) = pre ++ EvYield row :: post →
  EvYield row ∉ l1 →
  ∃ mid, pre = l1 ++ mid.
Proof.
  intros Heq Hnot. apply app_eq_inv in Heq as [(k & H1 & H2)|(k & H1 & H2)].
  - destruct k as [|ev k].
    + exists []. by rewrite H1, !app_nil_r.
    + exfalso. apply Hnot. rewrite H1. injection H2 as <- _.
      apply elem_of_app. right. apply elem_of_cons. auto.
  - by exists k.
Qed.

Section segments.
Context {A : Type} (n : nat) (step : list A -> M unit).
Context (Pseg : list A -> list event -> Prop).

(** One turn either fails before it executes its query, or executes it and
    then does things that satisfy [Pseg], none of them a query. *)
Hypothesis step_shape : ∀ chunk sts,
  (events (step chunk sts) = [] ∧ ∀ a, outcome (step chunk sts) ≠ Ok a)
  ∨ (∃ pks body, events (step chunk sts) = EvExecute pks :: body
       ∧ Forall (fun ev => is_execute ev = false) body
       ∧ Pseg chunk body).

Lemma chunk_loop_batch_body fuel l sts :
  batch_body (events (chunk_loop n step fuel l sts)) = [].
Proof.
  destruct fuel as [|fuel], l as [|x l]; try done.
  rewrite chunk_loop_cons.
  destruct (step_shape (take n (x :: l)) sts) as [[He Hne]|(pks & body & He & _)].
  - destruct (bind_not_ok (step (take n (x :: l)))
                (fun _ => chunk_loop n step fuel (drop n (x :: l))) sts Hne)
      as (_ & -> & _).
    by rewrite He.
  - unfold mbind, M_bind.
    destruct (outcome (step (take n (x :: l)) sts)); cbn; by rewrite He.
Qed.

Lemma chunk_loop_segments fuel l sts i chunk seg :
  chunked fuel n l !! i = Some chunk →
  segments (events (chunk_loop n step fuel l sts)) !! i = Some seg →
  Pseg chunk seg.
Proof.
  revert l sts i. induction fuel as [|fuel IH]; intros [|x l] sts i; try done.
  rewrite chunk_loop_cons. cbn [chunked].
  destruct (step_shape (take n (x :: l)) sts)
    as [[He Hne]|(pks & body & He & Hbody & HP)].
  - destruct (bind_not_ok (step (take n (x :: l)))
                (fun _ => chunk_loop n step fuel (drop n (x :: l))) sts Hne)
      as (_ & -> & _).
    by rewrite He.
  - unfold mbind, M_bind.
    destruct (outcome (step (take n (x :: l)) sts)); cbn [events]; rewrite He.
    + cbn [app segments is_execute].
      rewrite batch_body_no_execute, segments_no_execute by done.
      rewrite chunk_loop_batch_body, app_nil_r.
      destruct i as [|i]; cbn.
      * by intros [= <-] [= <-].
      * apply IH.
    + cbn [segments is_execute].
      rewrite <- (app_nil_r body), batch_body_no_execute, segments_no_execute by done.
      rewrite app_nil_r. destruct i as [|i]; cbn; [|done].
      by intros [= <-] [= <-].
    + cbn [segments is_execute].
      rewrite <- (app_nil_r body), batch_body_no_execute, segments_no_execute by done.
      rewrite app_nil_r. destruct i as [|i]; cbn; [|done].
      by intros [= <-] [= <-].
Qed.
End segments.

Section yield_order.
Context (self : JSelectInLoader) (connection : list bound -> result (list SARow)).

Lemma child_writes_elem our_states none_states data chunk i v :
  (i, v) ∈ child_writes self our_states none_states data chunk ↔
  (∃ k, k ∈ chunk ∧ i ∈ default [] (pd_get k our_states)
        ∧ v = related_value self (pd_get k data))
  ∨ (i ∈ none_states ∧ v = VNone).
Proof.
  unfold child_writes. rewrite elem_of_app, list_elem_of_bind, list_elem_of_fmap.
  split.
  - intros [(k & Hi & Hk)|(j & [= -> ->] & Hj)]; [left|by right].
    apply list_elem_of_fmap in Hi as (j & [= -> ->] & Hj). by exists k.
  - intros [(k & Hk & Hi & ->)|[Hi ->]]; [left|right].
    + exists k. split; [|done]. apply list_elem_of_fmap. by exists i.
    + by exists i.
Qed.

Lemma via_child_chunk_shape our_states none_states chunk sts :
  let r := _load_via_child_chunk self connection our_states none_states chunk sts in
  (events r = [] ∧ ∀ a, outcome r ≠ Ok a)
  ∨ (∃ pks body, events r = EvExecute pks :: body
       ∧ Forall (fun ev => is_execute ev = false) body
       ∧ yields_after_population (key self)
           (mjoin ((fun k => default [] (pd_get k our_states)) <$> chunk)) body).
Proof.
  cbn. rewrite via_child_chunk_run.
  destruct (tuple_of _ chunk) as [pks| |]; cbn [and_then]; [|by left..].
  right. exists pks.
  assert (yields_after_population (key self)
            (mjoin ((fun k => default [] (pd_get k our_states)) <$> chunk)) [])
    as Hnil.
  { intros pre row post Heq. by destruct pre. }
  destruct (connection pks) as [rows| |]; cbn [and_then];
    [|by eexists; split_and!..].
  destruct (rows_by_pk self rows []) as [data| |]; cbn [and_then];
    [|by eexists; split_and!..].
  eexists. split_and!; [done| |].
  - apply Forall_app. split; [apply no_execute_write_events|apply no_execute_yields].
  - intros pre row post Heq i Hi.
    apply yield_after_prefix in Heq as [mid ->].
    + apply list_elem_of_join in Hi as (g & Hi & Hg).
      apply list_elem_of_fmap in Hg as (k & -> & Hk).
      exists (related_value self (pd_get k data)).
      apply elem_of_app. left.
      apply (list_elem_of_fmap_2' _ _ (i, related_value self (pd_get k data)));
        [|done].
      apply child_writes_elem. left. by exists k.
    + intros (w & [=] & _)%list_elem_of_fmap.
Qed.

(** In the MANYTOONE path, no row of a batch is yielded before the
    relationship field of every parent in the groups of that batch has
    been written, for every executor and however the call ends. *)
Theorem via_child_populates_batch_before_yield (parents : list SARowDict)
    (st : prepared) :
  prepare_states self parents = Ok st →
  load_only_child (query_info self) = true →
  populated_before_yield self st (events (load self connection parents)).
Proof.
  intros Hp Hc. unfold load. rewrite Hp.
  unfold fetch_results_and_populate_states. rewrite Hc.
  destruct st as [our_states none_states|l]; [|done].
  intros n batch seg Hb Hs. cbn [batch_members] in Hb.
  unfold _load_via_child in Hs. rewrite bind_lift_and_then in Hs.
  destruct (sorted (pd_keys our_states)) as [our_keys| |]; cbn [and_then] in Hs;
    [|done..].
  rewrite list_lookup_fmap in Hb.
  destruct (chunked _ _ our_keys !! n) as [chunk|] eqn:Hchunk; [|done].
  injection Hb as <-.
  rewrite via_child_loop_eq in Hs.
  eapply (chunk_loop_segments (CHUNKSIZE self)
           (_load_via_child_chunk self connection our_states none_states)
           (fun chunk seg => yields_after_population (key self)
              (mjoin ((fun k => default [] (pd_get k our_states)) <$> chunk)) seg));
    [|done..].
  intros c s. apply via_child_chunk_shape.
Qed.
End yield_order.

Lemma via_child_populates_batch_before_yield_witness :
  populated_before_yield (many_to_one false 2)
    (ByKey [([VInt 5], [0; 2]%nat)] [1%nat])
    (events (load (many_to_one false 2) (table_connection ["id"] true [target_X])
               [child 1 (SInt 5); child 2 SNone; child 3 (SInt 5)])).
Proof.
  apply (via_child_populates_batch_before_yield (many_to_one false 2)
           (table_connection ["id"] true [target_X])
           [child 1 (SInt 5); child 2 SNone; child 3 (SInt 5)]
           (ByKey [([VInt 5], [0; 2]%nat)] [1%nat])
           ltac:(vm_compute; reflexivity)).
  reflexivity.
Defined.

(** ** What [prepare_states] builds in the MANYTOONE branch *)

Lemma prepare_child_cons cols i p rest our none :
  prepare_child cols i (p :: rest) our none =
  match tuple_of (getitem p) cols with
  | Ok k =>
      if contains_None k then prepare_child cols (S i) rest our (none ++ [i])
      else match hash_check k with
           | Ok _ => prepare_child cols (S i) rest (dd_append k i our) none
           | Raise e => Raise e
           | Hang => Hang
           end
  | Raise e => Raise e
  | Hang => Hang
  end.
Proof.
  cbn. destruct (tuple_of (getitem p) cols) as [k| |]; cbn; [|done..].
  destruct (contains_None k); cbn; [done|]. by destruct (hash_check k).
Qed.

Lemma parent_key_at cols done p rest k :
  tuple_of (getitem p) cols = Ok k →
  parent_key cols (done ++ p :: rest) (length done) = Some k.
Proof.
  intros Hk. unfold parent_key. rewrite list_lookup_middle by done. cbn.
  by rewrite Hk.
Qed.

Lemma prepared_ok_start cols parents : prepared_ok cols parents 0 [] [].
Proof.
  split; try done.
  - intros i Hi. by apply elem_of_nil in Hi.
  - intros k Hk. by apply elem_of_nil in Hk.
  - constructor.
  - intros i Hi. lia.
Qed.

Lemma prepared_ok_group cols done p rest our none k :
  tuple_of (getitem p) cols = Ok k → length k = length cols →
  contains_None k = false →
  prepared_ok cols (done ++ p :: rest) (length done) our none →
  prepared_ok cols (done ++ p :: rest) (S (length done))
    (dd_append k (length done) our) none.
Proof.
  intros Hk Hlen Hnn [Hg Hn Hks Hnd Hc]. unfold dd_append. split.
  - intros k' l i. rewrite pd_get_set.
    destruct (decide (k' = k)) as [->|Hne]; [|apply Hg].
    intros [= <-] [Hi|Hi%list_elem_of_singleton]%elem_of_app.
    + destruct (pd_get k our) as [old|] eqn:E; [by eapply Hg|].
      by apply elem_of_nil in Hi.
    + subst i. by apply parent_key_at.
  - done.
  - intros k'. rewrite pd_keys_set.
    destruct (pd_get k our); [apply Hks|].
    intros [Hin|Hin%list_elem_of_singleton]%elem_of_app; [by apply Hks|by subst].
  - by apply pd_keys_set_NoDup.
  - intros i Hi. destruct (decide (i = length done)) as [->|Hne].
    + exists k. split; [by apply parent_key_at|]. rewrite Hnn.
      eexists. rewrite pd_get_set, decide_True by done. split; [done|].
      apply elem_of_app. right. by apply list_elem_of_singleton.
    + destruct (Hc i ltac:(lia)) as (k' & Hk' & Hin). exists k'. split; [done|].
      destruct (contains_None k'); [done|]. destruct Hin as (l & Hl & Hil).
      rewrite pd_get_set. destruct (decide (k' = k)) as [->|]; [|by exists l].
      eexists. split; [done|]. rewrite Hl. cbn. apply elem_of_app. auto.
Qed.

Lemma prepared_ok_none cols done p rest our none k :
  tuple_of (getitem p) cols = Ok k →
  contains_None k = true →
  prepared_ok cols (done ++ p :: rest) (length done) our none →
  prepared_ok cols (done ++ p :: rest) (S (length done)) our
    (none ++ [length done]).
Proof.
  intros Hk Hnn [Hg Hn Hks Hnd Hc]. split; try done.
  - intros i [Hi|Hi%list_elem_of_singleton]%elem_of_app; [by apply Hn|].
    subst i. exists k. split; [by apply parent_key_at|done].
  - intros i Hi. destruct (decide (i = length done)) as [->|Hne].
    + exists k. split; [by apply parent_key_at|]. rewrite Hnn.
      apply elem_of_app. right. by apply list_elem_of_singleton.
    + destruct (Hc i ltac:(lia)) as (k' & Hk' & Hin). exists k'. split; [done|].
      destruct (contains_None k'); [|done]. apply elem_of_app. auto.
Qed.

Lemma prepare_child_ok cols rest : ∀ done our none st,
  prepare_child cols (length done) rest our none = Ok st →
  prepared_ok cols (done ++ rest) (length done) our none →
  ∃ our' none', st = ByKey our' none'
    ∧ prepared_ok cols (done ++ rest) (length (done ++ rest)) our' none'.
Proof.
  induction rest as [|p rest IH]; intros done our none st.
  - intros [= <-] Hok. exists our, none. by rewrite app_nil_r in *.
  - rewrite prepare_child_cons.
    destruct (tuple_of_getitem_outcome p cols) as [(k & Hk & Hlen & _)|(c & Hk & _)];
      rewrite Hk; [|done].
    assert (S (length done) = length (done ++ [p])) as Hl
      by (rewrite length_app; cbn; lia).
    assert (done ++ p :: rest = (done ++ [p]) ++ rest) as Happ
      by (by rewrite <- app_assoc).
    destruct (contains_None k) eqn:Hnn.
    + intros Hp Hok. rewrite Hl in Hp. rewrite Happ.
      apply (IH _ _ _ _ Hp). rewrite <- Happ, <- Hl.
      by eapply prepared_ok_none.
    + destruct (hash_check k); [|done..].
      intros Hp Hok. rewrite Hl in Hp. rewrite Happ.
      apply (IH _ _ _ _ Hp). rewrite <- Happ, <- Hl.
      by eapply prepared_ok_group.
Qed.

Lemma prepare_states_child_ok self parents st :
  load_only_child (query_info self) = true →
  prepare_states self parents = Ok st →
  ∃ our none, st = ByKey our none
    ∧ prepared_ok (child_lookup_cols (query_info self)) parents (length parents)
        our none.
Proof.
  intros Hc. unfold prepare_states. rewrite Hc.
  destruct (load_with_join (query_info self)); [done|].
  intros Hp. apply (prepare_child_ok _ parents [] [] [] st Hp).
  apply prepared_ok_start.
Qed.

(** ** Lists of writes *)

Lemma apply_writes_cons k w ws sts :
  apply_writes k (w :: ws) sts
  = apply_writes k ws (alter (insert k w.2) w.1 sts).
Proof. done. Qed.






(** ** The keys bound over a whole run *)

Lemma tuple_of_Forall2 {A B} (f : A -> result B) l t :
  tuple_of f l = Ok t → Forall2 (fun x y => f x = Ok y) l t.
Proof.
  revert t. induction l as [|x l IH]; intros t.
  - intros [= <-]. constructor.
  - rewrite tuple_of_cons. destruct (f x) as [y| |] eqn:E; [|done..].
    destruct (tuple_of f l) as [t'| |]; [|done..].
    intros [= <-]. constructor; [done|by apply IH].
Qed.



Section chunk_loop_bound.
Context {A : Type} (n : nat) (step : list A -> M unit) (bindf : A -> result bound).

Lemma chunk_loop_bound fuel l sts :
  (∀ chunk sts, outcome (step chunk sts) = Ok tt →
     ∃ pks, tuple_of bindf chunk = Ok pks
            ∧ bound_lists (events (step chunk sts)) = [pks]) →
  outcome (chunk_loop n step fuel l sts) = Ok tt →
  ∃ pks, tuple_of bindf l = Ok pks
         ∧ mjoin (bound_lists (events (chunk_loop n step fuel l sts))) = pks.
Proof.
  intros Hstep. revert l sts.
  induction fuel as [|fuel IH]; intros [|x l] sts Ho; try done;
    try (by exists []).
  rewrite chunk_loop_cons in *. unfold mbind, M_bind in *.
  destruct (outcome (step (take n (x :: l)) sts)) as [[]| |] eqn:E; [|done..].
  cbn [events outcome states] in Ho |- *.
  destruct (Hstep _ _ E) as (pks1 & Hp1 & Hb1).
  destruct (IH _ _ Ho) as (pks2 & Hp2 & Hb2).
  exists (pks1 ++ pks2). split.
  - rewrite <- (take_drop n (x :: l)). by apply tuple_of_app.
  - rewrite bound_lists_app, Hb1, join_app, Hb2. cbn. by rewrite app_nil_r.
Qed.
End chunk_loop_bound.

Section via_child_run.
Context (self : JSelectInLoader) (connection : list bound -> result (list SARow)).

(** A turn of the loop of [_load_via_child] that returns. *)
Lemma via_child_chunk_ok our_states none_states chunk sts :
  outcome (_load_via_child_chunk self connection our_states none_states chunk sts)
    = Ok tt →
  ∃ pks rows data,
    tuple_of (bind_key (zero_idx (query_info self))) chunk = Ok pks
    ∧ connection pks = Ok rows
    ∧ rows_by_pk self rows [] = Ok data
    ∧ _load_via_child_chunk self connection our_states none_states chunk sts =
        let ws := child_writes self our_states none_states data chunk in
        Run (apply_writes (key self) ws sts)
            (EvExecute pks :: write_events (key self) ws
               ++ (EvYield <$> pd_values data))
            (Ok tt).
Proof.
  rewrite via_child_chunk_run.
  destruct (tuple_of _ chunk) as [pks| |]; cbn [and_then]; [|done..].
  destruct (connection pks) as [rows| |] eqn:Hc; cbn [and_then]; [|done..].
  destruct (rows_by_pk self rows []) as [data| |] eqn:Hd; cbn [and_then]; [|done..].
  intros _. by exists pks, rows, data.
Qed.

Lemma via_child_chunk_ok_bound our_states none_states chunk sts :
  outcome (_load_via_child_chunk self connection our_states none_states chunk sts)
    = Ok tt →
  ∃ pks, tuple_of (bind_key (zero_idx (query_info self))) chunk = Ok pks
         ∧ bound_lists (events (_load_via_child_chunk self connection our_states
                                  none_states chunk sts)) = [pks].
Proof.
  intros Ho.
  destruct (via_child_chunk_bound_lists self connection our_states none_states
              chunk sts) as [Hb|H]; [|done].
  exfalso. destruct (via_child_chunk_ok _ _ _ _ Ho) as (? & ? & ? & _ & _ & _ & Hr).
  by rewrite Hr in Hb.
Qed.

Lemma via_child_chunk_ok_executed our_states none_states chunk sts :
  outcome (_load_via_child_chunk self connection our_states none_states chunk sts)
    = Ok tt →
  executed (events (_load_via_child_chunk self connection our_states
                      none_states chunk sts)) = 1%nat.
Proof.
  intros Ho. destruct (via_child_chunk_ok _ _ _ _ Ho) as (? & ? & ? & _ & _ & _ & ->).
  cbn. unfold executed. cbn. f_equal.
  rewrite List.filter_app, length_app.
  assert (∀ evs, Forall (fun ev => is_execute ev = false) evs →
                 length (List.filter is_execute evs) = 0%nat) as Hz.
  { induction 1 as [|ev evs Hev _ IH]; [done|]. cbn. by rewrite Hev. }
  by rewrite (Hz _ (no_execute_write_events _ _)), (Hz _ (no_execute_yields _)).
Qed.
End via_child_run.

(** ** Parents that share a key *)

Lemma parent_key_lt cols parents i k :
  parent_key cols parents i = Some k → (i < length parents)%nat.
Proof.
  unfold parent_key. destruct (parents !! i) eqn:E; [|done].
  intros _. by eapply lookup_lt_Some.
Qed.


Section shared_key.
Context (self : JSelectInLoader) (connection : list bound -> result (list SARow)).
Context (parents : list SARowDict).
Context (our : list (key_tuple * list nat)) (none : list nat).
Context (Hok : prepared_ok (child_lookup_cols (query_info self)) parents
                 (length parents) our none).


End shared_key.

Section C7.
Context (self : JSelectInLoader) (connection : list bound -> result (list SARow)).

End C7.


(** ** Queries over a fixed table *)

Lemma filter_filter_imp {A} (p q : A -> bool) l :
  (∀ x, p x = true → q x = true) →
  List.filter p (List.filter q l) = List.filter p l.
Proof.
  intros H. induction l as [|x l IH]; [done|]. cbn.
  destruct (q x) eqn:Eq; cbn.
  - by rewrite IH.
  - destruct (p x) eqn:Ep; [|done]. rewrite (H x Ep) in Eq. done.
Qed.

Lemma row_bound_key cols zero row kk :
  tuple_of (getitem row) cols = Ok kk →
  row_bound cols zero row = bind_key zero (embed_key kk).
Proof. intros H. unfold row_bound. by rewrite H. Qed.

Lemma row_matches_key cols zero pks row k b :
  embed_key <$> tuple_of (getitem row) cols = Ok k →
  bind_key zero k = Ok b → b ∈ pks →
  row_matches cols zero pks row = true.
Proof.
  intros Hk Hb Hin. unfold row_matches.
  destruct (tuple_of (getitem row) cols) as [kk| |] eqn:E; [|done..].
  injection Hk as <-. rewrite (row_bound_key _ _ _ _ E), Hb.
  by apply bool_decide_eq_true.
Qed.

Lemma row_matches_has_key cols zero pks row :
  row_matches cols zero pks row = true →
  ∃ kk, tuple_of (getitem row) cols = Ok kk.
Proof.
  unfold row_matches, row_bound.
  destruct (tuple_of (getitem row) cols) as [kk| |]; [by exists kk|done..].
Qed.

Lemma bind_key_total zero k : (zero = true → k ≠ []) → ∃ b, bind_key zero k = Ok b.
Proof.
  unfold bind_key. destruct zero; [|by eexists].
  destruct k; [intros H; by destruct (H eq_refl)|by eexists].
Qed.

Lemma tuple_of_total {A B} (f : A -> result B) l :
  (∀ x, x ∈ l → ∃ y, f x = Ok y) → ∃ t, tuple_of f l = Ok t.
Proof.
  induction l as [|x l IH]; intros H; [by exists []|].
  destruct (H x) as [y Hy]; [apply elem_of_cons; auto|].
  destruct IH as [t Ht]; [intros z Hz; apply H, elem_of_cons; auto|].
  exists (y :: t). by rewrite tuple_of_cons, Hy, Ht.
Qed.

Lemma tuple_of_elem {A B} (f : A -> result B) l t x y :
  tuple_of f l = Ok t → x ∈ l → f x = Ok y → y ∈ t.
Proof.
  intros Ht Hx Hy. apply tuple_of_Forall2 in Ht.
  apply list_elem_of_lookup in Hx as [i Hi].
  destruct (Forall2_lookup_l _ _ _ _ _ Ht Hi) as (y' & Hy' & Hf).
  assert (y' = y) as -> by congruence. by eapply list_elem_of_lookup_2.
Qed.

Lemma written_as_start k tv sts0 : written_as k tv sts0 sts0 [].
Proof. intros i. rewrite decide_False; [done|apply not_elem_of_nil]. Qed.

Lemma written_as_apply k tv sts0 ws : ∀ sts W,
  written_as k tv sts0 sts W →
  (∀ i v, (i, v) ∈ ws → v = tv i) →
  written_as k tv sts0 (apply_writes k ws sts) (W ++ ws.*1).
Proof.
  induction ws as [|[j v] ws IH]; intros sts W HW Hv.
  - cbn. by rewrite app_nil_r.
  - rewrite apply_writes_cons. cbn [fst snd fmap list_fmap].
    rewrite (cons_middle j W), app_assoc. apply IH.
    + intros i. destruct (decide (i = j)) as [->|Hne].
      * rewrite list_lookup_alter_eq, HW.
        rewrite (decide_True (P := j ∈ W ++ [j]))
          by (apply elem_of_app; right; by apply list_elem_of_singleton).
        rewrite (Hv j v) by (apply elem_of_cons; auto).
        destruct (decide (j ∈ W)); [|done].
        destruct (sts0 !! j); cbn; [|done]. by rewrite insert_insert_eq.
      * rewrite list_lookup_alter_ne by done. rewrite HW.
        destruct (decide (i ∈ W)) as [Hi|Hi].
        -- rewrite (decide_True (P := i ∈ W ++ [j])); [done|].
           apply elem_of_app. auto.
        -- rewrite (decide_False (P := i ∈ W ++ [j])); [done|].
           intros [?|?%list_elem_of_singleton]%elem_of_app; done.
    + intros i v' Hin. apply Hv, elem_of_cons. auto.
Qed.

Lemma written_as_unique k tv sts0 sts1 sts2 W1 W2 :
  written_as k tv sts0 sts1 W1 → written_as k tv sts0 sts2 W2 →
  (∀ i, i ∈ W1 ↔ i ∈ W2) → sts1 = sts2.
Proof.
  intros H1 H2 HW. apply list_eq. intros i. rewrite H1, H2.
  destruct (decide (i ∈ W1)) as [Hi|Hi].
  - rewrite (decide_True (P := i ∈ W2)); [done|]. by apply HW.
  - rewrite (decide_False (P := i ∈ W2)); [done|]. by rewrite <- HW.
Qed.

(** ** The MANYTOONE path over a fixed table *)

Section via_child_table.
Context (self : JSelectInLoader) (table : list SARow) (parents : list SARowDict).
Context (our : list (key_tuple * list nat)) (none : list nat).
Context (Hok : prepared_ok (child_lookup_cols (query_info self)) parents
                 (length parents) our none).

Let connection :=
  table_connection (primary_key (target_mapper self))
    (zero_idx (query_info self)) table.

Let touched (L : list key_tuple) (i : nat) : Prop :=
  (∃ k, k ∈ L ∧ i ∈ default [] (pd_get k our)) ∨ (L ≠ [] ∧ i ∈ none).

Lemma rows_by_pk_total rows : ∀ d,
  Forall (fun row => ∃ kk, get_primary_key_tuple (target_mapper self) row = Ok kk)
    rows →
  ∃ data, rows_by_pk self rows d = Ok data.
Proof.
  induction rows as [|row rows IH]; intros d Hall; [by exists d|].
  apply Forall_cons in Hall as [[kk Hkk] Hall]. cbn [rows_by_pk].
  rewrite Hkk. cbn. by apply IH.
Qed.

Lemma table_rows_have_key pks :
  Forall (fun row => ∃ kk, get_primary_key_tuple (target_mapper self) row = Ok kk)
    (List.filter (row_matches (primary_key (target_mapper self))
                    (zero_idx (query_info self)) pks) table).
Proof.
  apply Forall_forall. intros row Hrow.
  apply list_elem_of_In, List.filter_In in Hrow as [_ Hm].
  by apply row_matches_has_key in Hm.
Qed.

(** What a batch finds for one of its keys is what the whole table holds
    for it. *)
Lemma table_data_get pks data k b :
  rows_by_pk self
    (List.filter (row_matches (primary_key (target_mapper self))
                    (zero_idx (query_info self)) pks) table) [] = Ok data →
  bind_key (zero_idx (query_info self)) k = Ok b → b ∈ pks →
  pd_get k data = last_with_key self k table.
Proof.
  intros Hd Hb Hin. rewrite (rows_by_pk_get _ _ _ _ k Hd). cbn.
  unfold last_with_key. rewrite filter_filter_imp.
  - by destruct (last _).
  - intros row Hrow%bool_decide_eq_true. by eapply row_matches_key.
Qed.

Lemma child_writes_expected data chunk i v :
  (∀ k, k ∈ chunk → pd_get k data = last_with_key self k table) →
  (i, v) ∈ child_writes self our none data chunk →
  v = expected_value self table parents i.
Proof.
  intros Hdata [(k & Hk & Hi & ->)|[Hn ->]]%child_writes_elem;
    unfold expected_value.
  - destruct (pd_get k our) as [g|] eqn:Eg; [|by apply elem_of_nil in Hi].
    rewrite (po_group _ _ _ _ _ Hok _ _ _ Eg Hi).
    destruct (po_keys _ _ _ _ _ Hok k (pd_get_Some_keys _ _ _ Eg)) as [-> _].
    by rewrite Hdata.
  - destruct (po_none _ _ _ _ _ Hok _ Hn) as (k & -> & ->). done.
Qed.

Lemma child_writes_index data chunk i :
  i ∈ (child_writes self our none data chunk).*1 ↔
  (∃ k, k ∈ chunk ∧ i ∈ default [] (pd_get k our)) ∨ i ∈ none.
Proof.
  rewrite list_elem_of_fmap. split.
  - intros ([j v] & -> & [(k & ? & ? & _)|[? _]]%child_writes_elem); eauto.
  - intros [(k & Hk & Hi)|Hn].
    + exists (i, related_value self (pd_get k data)). split; [done|].
      apply child_writes_elem. left. by exists k.
    + exists (i, VNone). split; [done|]. apply child_writes_elem. by right.
Qed.

(** With keys that can all be bound, the loop returns, and it has written
    the expected value to the members of every group and, if there is any
    group, to the parents with a null key. *)
Lemma via_child_table_loop our_keys :
  (1 ≤ CHUNKSIZE self)%nat →
  (∀ k, k ∈ our_keys → ∃ b, bind_key (zero_idx (query_info self)) k = Ok b) →
  let r := _load_via_child_loop self connection (length our_keys) our none
             our_keys parents in
  outcome r = Ok tt
  ∧ ∃ W, written_as (key self) (expected_value self table parents) parents
           (states r) W
         ∧ ∀ i, i ∈ W ↔ touched our_keys i.
Proof.
  intros HB Hbind. cbn zeta. rewrite via_child_loop_eq.
  assert (outcome (chunk_loop (CHUNKSIZE self)
            (_load_via_child_chunk self connection our none) (length our_keys)
            our_keys parents) = Ok tt) as Ho.
  { apply chunk_loop_returns; [done..|].
    intros chunk sts _ Hsub. rewrite via_child_chunk_run.
    destruct (tuple_of_total (bind_key (zero_idx (query_info self))) chunk)
      as [pks ->]; [intros k Hk; by apply Hbind, Hsub|].
    cbn [and_then]. unfold connection, table_connection. cbn [and_then].
    destruct (rows_by_pk_total _ [] (table_rows_have_key pks)) as [data ->].
    done. }
  split; [done|].
  apply (chunk_loop_inv _ _
    (fun sts done => ∃ W,
       written_as (key self) (expected_value self table parents) parents sts W
       ∧ ∀ i, i ∈ W ↔ touched done i)
    our_keys (length our_keys) our_keys [] parents); [|done| |done].
  - intros done rem sts Hdr Hrem (W & HW & Hmem) Hstep.
    destruct (via_child_chunk_ok _ _ _ _ _ _ Hstep)
      as (pks & rows & data & Hpks & Hrows & Hdata & ->).
    cbn zeta. cbn [states].
    unfold connection, table_connection in Hrows. injection Hrows as <-.
    assert (∀ k, k ∈ take (CHUNKSIZE self) rem →
                 pd_get k data = last_with_key self k table) as Hget.
    { intros k Hk. destruct (Hbind k) as [b Hb].
      - rewrite <- Hdr. apply elem_of_app. right. by eapply subseteq_take.
      - eapply table_data_get; [done..|]. by eapply tuple_of_elem. }
    exists (W ++ (child_writes self our none data (take (CHUNKSIZE self) rem)).*1).
    split.
    + apply written_as_apply; [done|]. intros i v. by apply child_writes_expected.
    + intros i. rewrite elem_of_app, Hmem, child_writes_index. unfold touched.
      pose proof (take_nonempty _ _ HB Hrem) as Hne.
      split.
      * intros [[(k & Hk & Hi)|[Hd Hi]]|[(k & Hk & Hi)|Hi]].
        -- left. exists k. split; [|done]. apply elem_of_app. auto.
        -- right. split; [|done]. by destruct done.
        -- left. exists k. split; [|done]. apply elem_of_app. auto.
        -- right. split; [|done].
           destruct done; [by rewrite app_nil_l|done].
      * intros [(k & [Hk|Hk]%elem_of_app & Hi)|[_ Hi]]; eauto.
  - exists []. split; [apply written_as_start|].
    intros i. split; [by intros ?%elem_of_nil|].
    intros [(k & ?%elem_of_nil & _)|[? _]]; done.
Qed.

(** With keys of no column and [zero_idx] set, the first batch fails on
    [key[0]], whatever the chunk size. *)
Lemma via_child_table_loop_index_error fuel our_keys :
  (1 ≤ CHUNKSIZE self)%nat →
  zero_idx (query_info self) = true →
  _load_via_child_loop self connection (S fuel) our none ([] :: our_keys) parents
  = Run parents [] (Raise IndexError).
Proof.
  intros HB Hz. cbn [_load_via_child_loop].
  assert (_load_via_child_chunk self connection our none
            (take (CHUNKSIZE self) ([] :: our_keys)) parents
          = Run parents [] (Raise IndexError)) as Hr.
  { rewrite via_child_chunk_run.
    destruct (CHUNKSIZE self) as [|n]; [lia|]. cbn [take].
    rewrite tuple_of_cons, Hz. done. }
  unfold mbind, M_bind. by rewrite Hr.
Qed.
End via_child_table.

(** ** The ONETOMANY and MANYTOMANY path over a fixed table *)

Section via_parent_table.
Context (self : JSelectInLoader) (table : list SARow).

Let connection :=
  table_connection (pk_cols (query_info self)) (zero_idx (query_info self)) table.

Lemma populate_parent_as_from data ks sts :
  populate_parent self data ks sts
  = populate_parent_from self (collection_of self data) ks sts.
Proof. destruct ks as [k i]. by rewrite populate_parent_run. Qed.

Lemma group_rows_total rows :
  Forall (fun row => ∃ kk, get_foreign_key_tuple row (query_info self) = Ok kk)
    rows →
  ∃ data, group_rows self rows = Ok data.
Proof.
  intros Hall. unfold group_rows.
  destruct (tuple_of_total
    (fun row => k ← get_foreign_key_tuple row (query_info self);
                Ok (embed_key k, row)) rows) as [keyed ->]; [|by eexists].
  intros row Hrow. rewrite Forall_forall in Hall.
  destruct (Hall row Hrow) as [kk ->]. by eexists.
Qed.

Lemma table_collection_eq pks data k b :
  group_rows self
    (List.filter (row_matches (pk_cols (query_info self))
                    (zero_idx (query_info self)) pks) table) = Ok data →
  bind_key (zero_idx (query_info self)) k = Ok b → b ∈ pks →
  collection_of self data k = table_collection self table k.
Proof.
  intros Hd Hb Hin. unfold collection_of, table_collection.
  rewrite (group_rows_get _ _ _ k Hd). unfold matching_rows.
  rewrite filter_filter_imp.
  - clear Hd. by destruct (List.filter _ table).
  - intros row Hrow%bool_decide_eq_true. by eapply row_matches_key.
Qed.

Lemma via_parent_table_chunk chunk sts :
  (∀ ks, ks ∈ chunk → ∃ b, bind_key (zero_idx (query_info self)) ks.1 = Ok b) →
  let r := _load_via_parent_chunk self connection chunk sts in
  let r' := for_each chunk
              (populate_parent_from self (table_collection self table)) sts in
  states r = states r' ∧ outcome r = outcome r'.
Proof.
  intros Hbind. cbn zeta. rewrite via_parent_chunk_run.
  destruct (tuple_of_total
    (fun ks : key_tuple * nat => bind_key (zero_idx (query_info self)) ks.1) chunk)
    as [pks Hpks]; [done|].
  rewrite Hpks. cbn [and_then]. unfold connection, table_connection.
  cbn [and_then].
  destruct (group_rows_total
    (List.filter (row_matches (pk_cols (query_info self))
                    (zero_idx (query_info self)) pks) table)) as [data Hd].
  { apply Forall_forall. intros row Hrow.
    apply list_elem_of_In, List.filter_In in Hrow as [_ Hm].
    by apply row_matches_has_key in Hm. }
  rewrite Hd. cbn [and_then]. cbn zeta. cbn [states outcome].
  rewrite (for_each_ext_in chunk (populate_parent self data)
             (populate_parent_from self (table_collection self table))); [by split|].
  intros [k i] s Hin. rewrite populate_parent_as_from.
  destruct (Hbind _ Hin) as [b Hb]. unfold populate_parent_from. cbn [fst snd].
  rewrite (table_collection_eq pks data k b); [done..|].
  by apply (tuple_of_elem _ _ _ (k, i) b Hpks Hin).
Qed.

(** With keys that can all be bound, the loop leaves the store and the
    outcome of populating the parents one after the other from the table. *)
Lemma via_parent_table_loop our_states sts :
  (1 ≤ CHUNKSIZE self)%nat →
  (∀ ks, ks ∈ our_states →
     ∃ b, bind_key (zero_idx (query_info self)) ks.1 = Ok b) →
  let r := _load_via_parent self connection our_states sts in
  let r' := for_each our_states
              (populate_parent_from self (table_collection self table)) sts in
  states r = states r' ∧ outcome r = outcome r'.
Proof.
  intros HB Hbind. cbn zeta. unfold _load_via_parent.
  rewrite via_parent_loop_eq. apply chunk_loop_for_each; [done..|].
  intros chunk s _ Hsub. apply via_parent_table_chunk.
  intros ks Hks. by apply Hbind, Hsub.
Qed.

Lemma via_parent_table_loop_index_error i our_states sts :
  (1 ≤ CHUNKSIZE self)%nat →
  zero_idx (query_info self) = true →
  _load_via_parent self connection (([], i) :: our_states) sts
  = Run sts [] (Raise IndexError).
Proof.
  intros HB Hz. unfold _load_via_parent. cbn [length _load_via_parent_loop].
  assert (_load_via_parent_chunk self connection
            (take (CHUNKSIZE self) (([], i) :: our_states)) sts
          = Run sts [] (Raise IndexError)) as Hr.
  { rewrite via_parent_chunk_run.
    destruct (CHUNKSIZE self) as [|n]; [lia|]. cbn [take].
    rewrite tuple_of_cons. cbn [fst]. rewrite Hz. done. }
  unfold mbind, M_bind. by rewrite Hr.
Qed.
End via_parent_table.

(** ** The number of queries of a load call that returns *)

Lemma executed_no_execute evs :
  Forall (fun ev => is_execute ev = false) evs → executed evs = 0%nat.
Proof.
  unfold executed. induction 1 as [|ev evs Hev _ IH]; [done|]. cbn. by rewrite Hev.
Qed.

Section executed.
Context (self : JSelectInLoader) (connection : list bound -> result (list SARow)).

Lemma via_parent_chunk_ok_executed chunk sts :
  outcome (_load_via_parent_chunk self connection chunk sts) = Ok tt →
  executed (events (_load_via_parent_chunk self connection chunk sts)) = 1%nat.
Proof.
  rewrite via_parent_chunk_run.
  destruct (tuple_of _ chunk) as [pks| |]; cbn [and_then]; [|done..].
  destruct (connection pks) as [rows| |]; cbn [and_then]; [|done..].
  destruct (group_rows self rows) as [data| |]; cbn [and_then]; [|done..].
  intros _. cbn zeta. cbn [events].
  change (EvExecute pks :: ?l) with ([EvExecute pks] ++ l).
  unfold executed. rewrite List.filter_app, length_app. cbn.
  f_equal. apply (executed_no_execute _ (for_each_populate_no_execute _ _ _ _)).
Qed.

Lemma load_executed parents st :
  (1 ≤ CHUNKSIZE self)%nat →
  prepare_states self parents = Ok st →
  outcome (load self connection parents) = Ok tt →
  executed (events (load self connection parents))
  = ceil_div (group_count st) (CHUNKSIZE self).
Proof.
  intros HB Hp. unfold load. rewrite Hp.
  unfold fetch_results_and_populate_states.
  destruct (load_only_child (query_info self)) eqn:Hc, st as [our none|l];
    try done.
  - unfold _load_via_child. rewrite bind_lift_and_then.
    destruct (sorted_outcome (pd_keys our)) as [[-> _]| ->]; cbn [and_then];
      [|done].
    rewrite via_child_loop_eq. intros Ho.
    rewrite (chunk_loop_executed _ _ _ _ _
               (via_child_chunk_ok_executed self connection our none) Ho).
    rewrite length_chunked by done. cbn [group_count].
    rewrite (Permutation_length (insertion_sort_Permutation _)).
    unfold pd_keys. by rewrite length_fmap.
  - unfold _load_via_parent. rewrite via_parent_loop_eq. intros Ho.
    rewrite (chunk_loop_executed _ _ _ _ _ via_parent_chunk_ok_executed Ho).
    by rewrite length_chunked.
Qed.
End executed.

(** ** Chunk size invariance *)

Lemma keys_bindable_or_empty zero (keys : list key_tuple) n :
  (∀ k, k ∈ keys → length k = n) →
  (∀ k, k ∈ keys → ∃ b, bind_key zero k = Ok b)
  ∨ (zero = true ∧ ∀ k, k ∈ keys → k = []).
Proof.
  intros Hlen. destruct zero; [|left; intros k _; by apply bind_key_total].
  destruct n as [|n].
  - right. split; [done|]. intros k Hk. by apply nil_length_inv, Hlen.
  - left. intros k Hk. apply bind_key_total. intros _ ->.
    by specialize (Hlen _ Hk).
Qed.

Section invariance.
Context (self : JSelectInLoader) (table : list SARow) (parents : list SARowDict).
Context (B1 B2 : nat) (HB1 : (1 ≤ B1)%nat) (HB2 : (1 ≤ B2)%nat).

Lemma via_child_invariant our none :
  load_only_child (query_info self) = true →
  prepared_ok (child_lookup_cols (query_info self)) parents (length parents)
    our none →
  let connection :=
    table_connection (primary_key (target_mapper self))
      (zero_idx (query_info self)) table in
  let r1 := _load_via_child (with_chunksize B1 self) connection our none parents in
  let r2 := _load_via_child (with_chunksize B2 self) connection our none parents in
  states r1 = states r2 ∧ outcome r1 = outcome r2.
Proof.
  intros Hc Hok. cbn zeta. unfold _load_via_child. rewrite !bind_lift_and_then.
  destruct (sorted_outcome (pd_keys our)) as [[-> _]| ->]; cbn [and_then];
    [|done].
  assert (∀ k, k ∈ insertion_sort (pd_keys our) →
               length k = length (child_lookup_cols (query_info self))) as Hlen.
  { intros k Hk. rewrite insertion_sort_Permutation in Hk.
    by destruct (po_keys _ _ _ _ _ Hok k Hk). }
  destruct (keys_bindable_or_empty (zero_idx (query_info self)) _ _ Hlen)
    as [Hb|[Hz Hempty]].
  - destruct (via_child_table_loop (with_chunksize B1 self) table parents our none
                Hok _ HB1 Hb) as (Ho1 & W1 & HW1 & Hm1).
    destruct (via_child_table_loop (with_chunksize B2 self) table parents our none
                Hok _ HB2 Hb) as (Ho2 & W2 & HW2 & Hm2).
    split.
    + eapply written_as_unique; [exact HW1|exact HW2|].
      intros i. by rewrite Hm1, Hm2.
    + transitivity (Ok tt : result unit); [exact Ho1|symmetry; exact Ho2].
  - destruct (insertion_sort (pd_keys our)) as [|k l] eqn:Ek; [done|].
    assert (k = []) as -> by (apply Hempty, elem_of_cons; auto).
    pose proof (via_child_table_loop_index_error (with_chunksize B1 self) table
                  parents our none (length l) l HB1 Hz) as E1.
    pose proof (via_child_table_loop_index_error (with_chunksize B2 self) table
                  parents our none (length l) l HB2 Hz) as E2.
    match goal with
    | |- states ?a = states ?b ∧ _ =>
        assert (a = Run parents [] (Raise IndexError)) as -> by exact E1;
        assert (b = Run parents [] (Raise IndexError)) as -> by exact E2
    end.
    done.
Qed.

Lemma via_parent_invariant our_states :
  (∀ ks, ks ∈ our_states →
     length ks.1 = length (primary_key (source_mapper self))) →
  let connection :=
    table_connection (pk_cols (query_info self)) (zero_idx (query_info self))
      table in
  let r1 := _load_via_parent (with_chunksize B1 self) connection our_states parents in
  let r2 := _load_via_parent (with_chunksize B2 self) connection our_states parents in
  states r1 = states r2 ∧ outcome r1 = outcome r2.
Proof.
  intros Hlen. cbn zeta.
  destruct (keys_bindable_or_empty (zero_idx (query_info self)) our_states.*1
              (length (primary_key (source_mapper self))))
    as [Hb|[Hz Hempty]].
  { intros k (ks & -> & Hks)%list_elem_of_fmap. by apply Hlen. }
  - assert (∀ ks, ks ∈ our_states →
              ∃ b, bind_key (zero_idx (query_info self)) ks.1 = Ok b) as Hb'.
    { intros ks Hks. apply Hb. by apply list_elem_of_fmap_2. }
    destruct (via_parent_table_loop (with_chunksize B1 self) table our_states
                parents HB1 Hb') as [Hs1 Ho1].
    destruct (via_parent_table_loop (with_chunksize B2 self) table our_states
                parents HB2 Hb') as [Hs2 Ho2].
    split.
    + etransitivity; [exact Hs1|symmetry; exact Hs2].
    + etransitivity; [exact Ho1|symmetry; exact Ho2].
  - destruct our_states as [|[k i] l]; [done|].
    assert (k = []) as ->.
    { apply Hempty. apply (list_elem_of_fmap_2 fst _ ([], i)) || apply elem_of_cons.
      auto. }
    pose proof (via_parent_table_loop_index_error (with_chunksize B1 self) table
                  i l parents HB1 Hz) as E1.
    pose proof (via_parent_table_loop_index_error (with_chunksize B2 self) table
                  i l parents HB2 Hz) as E2.
    match goal with
    | |- states ?a = states ?b ∧ _ =>
        assert (a = Run parents [] (Raise IndexError)) as -> by exact E1;
        assert (b = Run parents [] (Raise IndexError)) as -> by exact E2
    end.
    done.
Qed.

Lemma load_invariant :
  let connection :=
    table_connection (match_cols self) (zero_idx (query_info self)) table in
  let r1 := load (with_chunksize B1 self) connection parents in
  let r2 := load (with_chunksize B2 self) connection parents in
  states r1 = states r2 ∧ outcome r1 = outcome r2.
Proof.
  cbn zeta. unfold load.
  change (prepare_states (with_chunksize B1 self) parents)
    with (prepare_states self parents).
  change (prepare_states (with_chunksize B2 self) parents)
    with (prepare_states self parents).
  destruct (prepare_states self parents) as [st| |] eqn:Hp; [|done..].
  unfold fetch_results_and_populate_states, match_cols.
  change (query_info (with_chunksize B1 self)) with (query_info self).
  change (query_info (with_chunksize B2 self)) with (query_info self).
  destruct (load_only_child (query_info self)) eqn:Hc.
  - destruct (prepare_states_child_ok self parents st Hc Hp)
      as (our & none & -> & Hok).
    by apply via_child_invariant.
  - unfold prepare_states in Hp. rewrite Hc in Hp.
    destruct (load_with_join (query_info self)); [done|].
    destruct (prepare_parent (source_mapper self) 0 parents) as [l| |] eqn:El;
      [|done..].
    injection Hp as <-. apply via_parent_invariant.
    destruct (prepare_parent_spec _ _ _ _ El) as [_ HF].
    intros ks Hks. apply list_elem_of_lookup in Hks as [n Hn].
    destruct (Forall2_lookup_r _ _ _ _ _ HF Hn) as (p & _ & Hk).
    unfold get_primary_key_tuple in Hk.
    destruct (tuple_of_getitem_outcome p (primary_key (source_mapper self)))
      as [(t & Ht & Hl & _)|(c & Ht & _)]; congruence.
Qed.

(** C6, amended. For an executor that returns the rows of a fixed table
    whose key columns are among the bound values, in table order, and for
    two chunk sizes of at least one, a load call leaves the same parent
    records and ends the same way with either chunk size. When the call
    returns, the number of queries it has executed is the number of groups
    divided by the chunk size, rounded up, where the groups are the
    distinct non-null keys in the MANYTOONE path and the parent records in
    the other path. *)
Theorem C6_chunk_size_invariance :
  let connection :=
    table_connection (match_cols self) (zero_idx (query_info self)) table in
  let r1 := load (with_chunksize B1 self) connection parents in
  let r2 := load (with_chunksize B2 self) connection parents in
  states r1 = states r2
  ∧ outcome r1 = outcome r2
  ∧ ∀ st, prepare_states self parents = Ok st → outcome r1 = Ok tt →
      executed (events r1) = ceil_div (group_count st) B1
      ∧ executed (events r2) = ceil_div (group_count st) B2.
Proof.
  cbn zeta. destruct load_invariant as [Hs Ho]. split_and!; [done..|].
  intros st Hp Ho1. split.
  - by apply (load_executed (with_chunksize B1 self) _ parents st HB1 Hp).
  - rewrite Ho in Ho1.
    by apply (load_executed (with_chunksize B2 self) _ parents st HB2 Hp).
Qed.
End invariance.

Lemma C6_chunk_size_invariance_witness :
  let self := many_to_one false 500 in
  let connection := table_connection ["id"] true
                      [target 5; target 6; target 7; target 8; target 9] in
  let parents := [child 1 (SInt 5); child 2 (SInt 6); child 3 (SInt 7);
                  child 4 (SInt 8); child 5 (SInt 9); child 6 SNone] in
  states (load (with_chunksize 2 self) connection parents)
  = states (load (with_chunksize 5 self) connection parents)
  ∧ executed (events (load (with_chunksize 2 self) connection parents)) = 3%nat
  ∧ executed (events (load (with_chunksize 5 self) connection parents)) = 1%nat.
Proof.
  intros self connection parents.
  destruct (C6_chunk_size_invariance self
              [target 5; target 6; target 7; target 8; target 9] parents 2 5
              ltac:(lia) ltac:(lia)) as (Hs & _ & Hn).
  split; [exact Hs|].
  exact (Hn (ByKey [([VInt 5], [0%nat]); ([VInt 6], [1%nat]); ([VInt 7], [2%nat]);
                    ([VInt 8], [3%nat]); ([VInt 9], [4%nat])] [5%nat])
            ltac:(vm_compute; reflexivity) ltac:(vm_compute; reflexivity)).
Defined.

(** ** The loops end *)

Lemma tuple_of_no_hang {A B} (f : A -> result B) l :
  (∀ x, f x ≠ Hang) → tuple_of f l ≠ Hang.
Proof.
  intros Hf. induction l as [|x l IH]; [done|]. rewrite tuple_of_cons.
  pose proof (Hf x). destruct (f x); [|done..]. by destruct (tuple_of f l).
Qed.

Lemma getitem_no_hang {V} (row : gmap string V) k : getitem row k ≠ Hang.
Proof. unfold getitem. by destruct (row !! k). Qed.

Lemma bind_key_no_hang zero k : bind_key zero k ≠ Hang.
Proof. unfold bind_key. by destruct zero, k. Qed.

Lemma for_each_no_hang {A} (l : list A) (body : A -> M unit) sts :
  (∀ x s, outcome (body x s) ≠ Hang) → outcome (for_each l body sts) ≠ Hang.
Proof.
  intros Hb. revert sts. induction l as [|x l IH]; intros sts; [done|].
  cbn. unfold mbind, M_bind. pose proof (Hb x sts).
  destruct (outcome (body x sts)); cbn; [apply IH|done..].
Qed.

Lemma chunk_loop_no_hang {A} n (step : list A -> M unit) fuel l sts :
  (1 ≤ n)%nat → (length l ≤ fuel)%nat →
  (∀ chunk s, outcome (step chunk s) ≠ Hang) →
  outcome (chunk_loop n step fuel l sts) ≠ Hang.
Proof.
  intros Hn. revert l sts. induction fuel as [|fuel IH]; intros [|x l] sts Hf Hs;
    try done.
  - cbn in Hf. lia.
  - rewrite chunk_loop_cons. unfold mbind, M_bind.
    pose proof (Hs (take n (x :: l)) sts).
    destruct (outcome (step (take n (x :: l)) sts)); cbn; [|done..].
    apply IH; [|done]. rewrite length_drop. cbn in *. lia.
Qed.

Section no_hang.
Context (self : JSelectInLoader) (connection : list bound -> result (list SARow)).
Context (Hconn : ∀ pks, connection pks ≠ Hang).

Lemma rows_by_pk_no_hang rows : ∀ d, rows_by_pk self rows d ≠ Hang.
Proof.
  induction rows as [|row rows IH]; intros d; [done|]. cbn [rows_by_pk].
  pose proof (tuple_of_no_hang (getitem row) (primary_key (target_mapper self))
                (getitem_no_hang row)) as H.
  unfold get_primary_key_tuple.
  destruct (tuple_of (getitem row) _); cbn; [apply IH|done..].
Qed.

Lemma group_rows_no_hang rows : group_rows self rows ≠ Hang.
Proof.
  unfold group_rows.
  assert (tuple_of (fun row => k ← get_foreign_key_tuple row (query_info self);
                               Ok (embed_key k, row)) rows ≠ Hang) as H.
  { apply tuple_of_no_hang. intros row.
    pose proof (tuple_of_no_hang (getitem row) (pk_cols (query_info self))
                  (getitem_no_hang row)) as H.
    unfold get_foreign_key_tuple. by destruct (tuple_of (getitem row) _). }
  by destruct (tuple_of _ rows).
Qed.

(** With a chunk size of at least one and an executor that answers, a load
    call returns or raises: the loops have turns enough. *)
Lemma load_no_hang parents :
  (1 ≤ CHUNKSIZE self)%nat → outcome (load self connection parents) ≠ Hang.
Proof.
  intros HB. unfold load.
  destruct (prepare_states self parents) as [st| |] eqn:Hp; [|done|].
  - unfold fetch_results_and_populate_states.
    destruct (load_only_child (query_info self)), st as [our none|l]; try done.
    + unfold _load_via_child. rewrite bind_lift_and_then.
      destruct (sorted_outcome (pd_keys our)) as [[-> _]| ->]; cbn [and_then];
        [|done].
      rewrite via_child_loop_eq. apply chunk_loop_no_hang; [done..|].
      intros chunk s. rewrite via_child_chunk_run.
      pose proof (tuple_of_no_hang (bind_key (zero_idx (query_info self))) chunk
                    (bind_key_no_hang _)).
      destruct (tuple_of _ chunk) as [pks| |]; cbn [and_then]; [|done..].
      pose proof (Hconn pks).
      destruct (connection pks) as [rows| |]; cbn [and_then]; [|done..].
      pose proof (rows_by_pk_no_hang rows []).
      by destruct (rows_by_pk self rows []).
    + unfold _load_via_parent. rewrite via_parent_loop_eq.
      apply chunk_loop_no_hang; [done..|].
      intros chunk s. rewrite via_parent_chunk_run.
      pose proof (tuple_of_no_hang
                    (fun ks : key_tuple * nat => bind_key (zero_idx (query_info self)) ks.1)
                    chunk (fun ks => bind_key_no_hang _ _)).
      destruct (tuple_of _ chunk) as [pks| |]; cbn [and_then]; [|done..].
      pose proof (Hconn pks).
      destruct (connection pks) as [rows| |]; cbn [and_then]; [|done..].
      pose proof (group_rows_no_hang rows).
      destruct (group_rows self rows) as [data| |]; cbn [and_then]; [|done..].
      cbn. apply for_each_no_hang. intros [k i] s'.
      rewrite populate_parent_run. unfold hash_check.
      destruct (forallb is_scalar k); cbn; [|done].
      by destruct (collection_of self data k).
  - exfalso. unfold prepare_states in Hp.
    destruct (load_with_join (query_info self)); [done|].
    destruct (load_only_child (query_info self)).
    + clear -Hp. revert Hp. generalize 0%nat, (@nil (key_tuple * list nat)), (@nil nat).
      induction parents as [|p ps IH]; intros i our none; [done|].
      rewrite prepare_child_cons.
      pose proof (tuple_of_no_hang (getitem p)
                    (child_lookup_cols (query_info self)) (getitem_no_hang p)).
      destruct (tuple_of (getitem p) _) as [k| |]; [|done..].
      destruct (contains_None k); [apply IH|].
      unfold hash_check. destruct (forallb is_scalar k); [apply IH|done].
    + destruct (prepare_parent (source_mapper self) 0 parents) eqn:E; try done.
      clear -E. revert E. generalize 0%nat.
      induction parents as [|p ps IH]; intros i; [done|].
      rewrite prepare_parent_cons. unfold get_primary_key_tuple.
      pose proof (tuple_of_no_hang (getitem p)
                    (primary_key (source_mapper self)) (getitem_no_hang p)).
      destruct (tuple_of (getitem p) _) as [k| |]; [|done..].
      specialize (IH (S i)). by destruct (prepare_parent _ (S i) ps).
Qed.
End no_hang.

(** * Further properties of the loader *)

(** ** Key extraction *)

Lemma tuple_of_getitem_spec {V} (row : gmap string V) cols :
  match tuple_of (getitem row) cols with
  | Ok t => Forall2 (fun c v => row !! c = Some v) cols t
  | Raise e =>
      ∃ before c after, cols = before ++ c :: after ∧ e = KeyError c
        ∧ row !! c = None ∧ ∀ c', c' ∈ before → is_Some (row !! c')
  | Hang => False
  end.
Proof.
  induction cols as [|c cols IH]; [constructor|].
  rewrite tuple_of_cons. destruct (row !! c) as [v|] eqn:E.
  - rewrite (getitem_Some _ _ _ E).
    destruct (tuple_of (getitem row) cols) as [t|e|]; [by constructor| |done].
    destruct IH as (before & c' & after & -> & -> & Hn & Hb).
    exists (c :: before), c', after. split_and!; [done..|].
    intros c0 [->|?]%elem_of_cons; [by eexists|by apply Hb].
  - rewrite (getitem_None _ _ E). exists [], c, cols. split_and!; [done..|].
    intros c0 Hc0. by apply elem_of_nil in Hc0.
Qed.

(** [get_primary_key_tuple] and [get_foreign_key_tuple] return the values of
    the key columns, one per column and in the order of the columns, when
    the row has them all; otherwise they raise the [KeyError] of the first
    column, in that order, that the row lacks. They raise nothing else. *)
Theorem key_tuple_extraction {V} (mapper : Mapper) (qi : query_info_t)
    (row : gmap string V) :
  match get_primary_key_tuple mapper row with
  | Ok t => Forall2 (fun c v => row !! c = Some v) (primary_key mapper) t
  | Raise e =>
      ∃ before c after, primary_key mapper = before ++ c :: after
        ∧ e = KeyError c ∧ row !! c = None
        ∧ ∀ c', c' ∈ before → is_Some (row !! c')
  | Hang => False
  end
  ∧ match get_foreign_key_tuple row qi with
    | Ok t => Forall2 (fun c v => row !! c = Some v) (pk_cols qi) t
    | Raise e =>
        ∃ before c after, pk_cols qi = before ++ c :: after
          ∧ e = KeyError c ∧ row !! c = None
          ∧ ∀ c', c' ∈ before → is_Some (row !! c')
    | Hang => False
    end.
Proof. split; apply tuple_of_getitem_spec. Qed.

(** ** The outcome of [prepare_states] *)

Lemma prepare_child_outcome cols rest : ∀ done our none,
  match prepare_child cols (length done) rest our none with
  | Ok st => ∃ our' none', st = ByKey our' none'
  | Raise (KeyError c) =>
      c ∈ cols ∧ ∃ i st, (done ++ rest) !! i = Some st ∧ st !! c = None
  | Raise TypeError =>
      ∃ i k, parent_key cols (done ++ rest) i = Some k
             ∧ contains_None k = false ∧ forallb is_scalar k = false
  | Raise _ => False
  | Hang => False
  end.
Proof.
  induction rest as [|p rest IH]; intros done our none; [by eexists _, _|].
  rewrite prepare_child_cons.
  assert (S (length done) = length (done ++ [p])) as Hl
    by (rewrite length_app; cbn; lia).
  assert (done ++ p :: rest = (done ++ [p]) ++ rest) as Happ
    by (by rewrite <- app_assoc).
  destruct (tuple_of_getitem_outcome p cols) as [(k & Hk & _ & _)|(c & Hk & Hc & Hn)];
    rewrite Hk.
  - destruct (contains_None k) eqn:Hnn.
    + rewrite Hl, Happ. apply IH.
    + unfold hash_check. destruct (forallb is_scalar k) eqn:Hs.
      * rewrite Hl, Happ. apply IH.
      * exists (length done), k. split_and!; [|done..]. by apply parent_key_at.
  - split; [done|]. exists (length done), p. split; [|done].
    by apply list_lookup_middle.
Qed.

Lemma prepare_parent_outcome mapper parents : ∀ i0,
  match prepare_parent mapper i0 parents with
  | Ok l => length l = length parents
  | Raise (KeyError c) =>
      c ∈ primary_key mapper ∧ ∃ i st, parents !! i = Some st ∧ st !! c = None
  | Raise _ => False
  | Hang => False
  end.
Proof.
  induction parents as [|p parents IH]; intros i0; [done|].
  rewrite prepare_parent_cons. unfold get_primary_key_tuple.
  destruct (tuple_of_getitem_outcome p (primary_key mapper))
    as [(k & -> & _ & _)|(c & -> & Hc & Hn)].
  - specialize (IH (S i0)).
    destruct (prepare_parent mapper (S i0) parents) as [l|[]|]; try done.
    + cbn. by rewrite IH.
    + destruct IH as (Hc & i & st & Hi & Hn). split; [done|]. by exists (S i), st.
  - split; [done|]. by exists 0%nat, p.
Qed.

(** The ways [prepare_states] ends. *)
Lemma prepare_states_cases (self : JSelectInLoader) (parents : list SARowDict) :
  match prepare_states self parents with
  | Ok st =>
      load_with_join (query_info self) = false
      ∧ if load_only_child (query_info self)
        then ∃ our_states none_states, st = ByKey our_states none_states
        else ∃ our_states, st = Listed our_states
                           ∧ length our_states = length parents
  | Raise AssertionError => load_with_join (query_info self) = true
  | Raise (KeyError c) =>
      load_with_join (query_info self) = false
      ∧ c ∈ required_cols self
      ∧ ∃ i st, parents !! i = Some st ∧ st !! c = None
  | Raise TypeError =>
      load_with_join (query_info self) = false
      ∧ load_only_child (query_info self) = true
      ∧ ∃ i k, parent_key (child_lookup_cols (query_info self)) parents i = Some k
               ∧ contains_None k = false ∧ forallb is_scalar k = false
  | Raise _ => False
  | Hang => False
  end.
Proof.
  unfold prepare_states, required_cols.
  destruct (load_with_join (query_info self)); [done|].
  destruct (load_only_child (query_info self)).
  - pose proof (prepare_child_outcome (child_lookup_cols (query_info self))
                  parents [] [] []) as H.
    cbn [length app] in H.
    destruct (prepare_child _ 0 parents [] []) as [st|[]|]; try done.
  - pose proof (prepare_parent_outcome (source_mapper self) parents 0) as H.
    destruct (prepare_parent _ 0 parents) as [l|[]|]; cbn; try done.
    split; [done|]. by exists l.
Qed.

(** [prepare_states] returns or raises one of three errors, each for its
    own reason: [AssertionError] exactly for a descriptor with
    [load_with_join]; [KeyError] for a key column that some parent record
    lacks; [TypeError], in the MANYTOONE branch only, for a foreign key
    tuple without [None] that holds an unhashable value. What it returns is
    keyed by tuple in the MANYTOONE branch and is a list with one entry per
    parent otherwise. *)
Theorem prepare_states_outcome (self : JSelectInLoader) (parents : list SARowDict) :
  match prepare_states self parents with
  | Ok st =>
      load_with_join (query_info self) = false
      ∧ if load_only_child (query_info self)
        then ∃ our_states none_states, st = ByKey our_states none_states
        else ∃ our_states, st = Listed our_states
                           ∧ length our_states = length parents
  | Raise AssertionError => load_with_join (query_info self) = true
  | Raise (KeyError c) =>
      load_with_join (query_info self) = false
      ∧ c ∈ required_cols self
      ∧ ∃ i st, parents !! i = Some st ∧ st !! c = None
  | Raise TypeError =>
      load_with_join (query_info self) = false
      ∧ load_only_child (query_info self) = true
      ∧ ∃ i k, parent_key (child_lookup_cols (query_info self)) parents i = Some k
               ∧ contains_None k = false ∧ forallb is_scalar k = false
  | Raise _ => False
  | Hang => False
  end.
Proof.
  unfold prepare_states, required_cols.
  destruct (load_with_join (query_info self)); [done|].
  destruct (load_only_child (query_info self)).
  - pose proof (prepare_child_outcome (child_lookup_cols (query_info self))
                  parents [] [] []) as H.
    cbn [length app] in H.
    destruct (prepare_child _ 0 parents [] []) as [st|[]|]; try done.
  - pose proof (prepare_parent_outcome (source_mapper self) parents 0) as H.
    destruct (prepare_parent _ 0 parents) as [l|[]|]; cbn; try done.
    split; [done|]. by exists l.
Qed.

(** [prepare_states] returns whenever the descriptor has no
    [load_with_join] and every parent record has a column value ([None], an
    integer or a string) in each of the key columns. *)
Theorem prepare_states_returns (self : JSelectInLoader) (parents : list SARowDict) :
  load_with_join (query_info self) = false →
  (∀ i st c, parents !! i = Some st → c ∈ required_cols self →
     ∃ s, st !! c = Some (VScalar s)) →
  ∃ st, prepare_states self parents = Ok st.
Proof.
  intros Hj Hall. pose proof (prepare_states_cases self parents) as H.
  destruct (prepare_states self parents) as [st|[]|]; try done.
  - by exists st.
  - destruct H as (_ & Hc & i & st & Hi & Hn).
    destruct (Hall i st k Hi Hc) as [s Hs]. congruence.
  - destruct H as (_ & Hc & i & k & Hk & _ & Hs). exfalso.
    unfold parent_key in Hk. destruct (parents !! i) as [st|] eqn:Hi; [|done].
    cbn in Hk.
    pose proof (tuple_of_getitem_spec st (child_lookup_cols (query_info self)))
      as Ht.
    destruct (tuple_of (getitem st) _) as [t| |]; [|done..].
    injection Hk as ->.
    assert (forallb is_scalar k = true); [|congruence].
    apply forallb_forall. intros v Hv%list_elem_of_In.
    apply list_elem_of_lookup in Hv as [n Hn].
    destruct (Forall2_lookup_r _ _ _ _ _ Ht Hn) as (c & Hcn & Hv).
    destruct (Hall i st c Hi) as [s Hsc].
    { unfold required_cols. rewrite Hc. by eapply list_elem_of_lookup_2. }
    assert (v = VScalar s) as -> by congruence. done.
  - congruence.
Qed.

Lemma prepare_states_returns_witness :
  ∃ st, prepare_states (many_to_one false 500)
          [child 1 (SInt 5); child 2 SNone] = Ok st.
Proof.
  apply (prepare_states_returns (many_to_one false 500)
           [child 1 (SInt 5); child 2 SNone] eq_refl).
  intros i st c Hi Hc. apply list_elem_of_singleton in Hc as ->.
  destruct i as [|[|i]]; cbn in Hi; [| |done]; injection Hi as <-.
  - by exists (SInt 5).
  - by exists SNone.
Defined.

(** ** The partition [prepare_states] makes in the MANYTOONE branch *)

Lemma dd_append_members k i (our : list (key_tuple * list nat)) :
  mjoin (dd_append k i our).*2 ≡ₚ i :: mjoin our.*2.
Proof.
  unfold dd_append. induction our as [|[k' g] our IH]; cbn.
  - done.
  - destruct (decide (k = k')) as [->|Hne]; cbn.
    + rewrite <- app_assoc. cbn. symmetry. apply Permutation_middle.
    + rewrite IH. symmetry. apply Permutation_middle.
Qed.

Lemma prepare_child_members cols rest : ∀ i0 our none our' none',
  prepare_child cols i0 rest our none = Ok (ByKey our' none') →
  mjoin our'.*2 ++ none' ≡ₚ (mjoin our.*2 ++ none) ++ seq i0 (length rest).
Proof.
  induction rest as [|p rest IH]; intros i0 our none our' none'.
  - intros [= <- <-]. cbn. by rewrite app_nil_r.
  - rewrite prepare_child_cons.
    destruct (tuple_of (getitem p) cols) as [k| |]; [|done..].
    destruct (contains_None k).
    + intros Hp. rewrite (IH _ _ _ _ _ Hp). cbn [length seq].
      rewrite <- !app_assoc. cbn. done.
    + destruct (hash_check k); [|done..].
      intros Hp. rewrite (IH _ _ _ _ _ Hp), dd_append_members. cbn [length seq].
      rewrite <- !app_assoc. cbn. rewrite !app_assoc. apply Permutation_middle.
Qed.

(** In the MANYTOONE branch [prepare_states] puts every parent in exactly
    one place: the positions in the groups and in [none_states], taken
    together, are the positions of the parent list, each once. The keys of
    the groups are distinct and hold no [None]; the members of a group are
    the parents whose foreign key tuple is the key of the group; the
    parents in [none_states] are those whose tuple holds a [None]. *)
Theorem prepare_states_partition (self : JSelectInLoader)
    (parents : list SARowDict) (our_states : list (key_tuple * list nat))
    (none_states : list nat) :
  prepare_states self parents = Ok (ByKey our_states none_states) →
  let cols := child_lookup_cols (query_info self) in
  mjoin our_states.*2 ++ none_states ≡ₚ seq 0 (length parents)
  ∧ NoDup (pd_keys our_states)
  ∧ (∀ k group i, pd_get k our_states = Some group →
       (i ∈ group ↔ parent_key cols parents i = Some k)
       ∧ contains_None k = false)
  ∧ (∀ i, i ∈ none_states ↔
       ∃ k, parent_key cols parents i = Some k ∧ contains_None k = true).
Proof.
  intros Hp. cbn zeta.
  pose proof (prepare_states_cases self parents) as Ho. rewrite Hp in Ho.
  destruct Ho as [Hj Hc].
  destruct (load_only_child (query_info self)) eqn:Hchild;
    [|by destruct Hc as (? & ? & _)].
  destruct (prepare_states_child_ok self parents _ Hchild Hp)
    as (our & none & [= <- <-] & Hok).
  unfold prepare_states in Hp. rewrite Hj, Hchild in Hp.
  split_and!.
  - by rewrite (prepare_child_members _ _ _ _ _ _ _ Hp).
  - apply (po_nodup _ _ _ _ _ Hok).
  - intros k group i Hg.
    destruct (po_keys _ _ _ _ _ Hok k (pd_get_Some_keys _ _ _ Hg)) as [Hnn _].
    split; [|done]. split; [by apply (po_group _ _ _ _ _ Hok)|].
    intros Hk.
    destruct (po_cover _ _ _ _ _ Hok i (parent_key_lt _ _ _ _ Hk))
      as (k' & Hk' & Hin).
    assert (k' = k) as -> by congruence. rewrite Hnn in Hin.
    destruct Hin as (l & Hl & Hil). congruence.
  - intros i. split; [by apply (po_none _ _ _ _ _ Hok)|].
    intros (k & Hk & Hnn).
    destruct (po_cover _ _ _ _ _ Hok i (parent_key_lt _ _ _ _ Hk))
      as (k' & Hk' & Hin).
    assert (k' = k) as -> by congruence. by rewrite Hnn in Hin.
Qed.

Lemma prepare_states_partition_witness :
  mjoin [([VInt 5], [0; 2]%nat)].*2 ++ [1%nat] ≡ₚ seq 0 3.
Proof.
  apply (prepare_states_partition (many_to_one false 500)
           [child 1 (SInt 5); child 2 SNone; child 3 (SInt 5)]
           [([VInt 5], [0; 2]%nat)] [1%nat]).
  vm_compute. reflexivity.
Defined.

(** ** What every load call does *)

Lemma for_each_events {A} (Q : list event -> Prop) (l : list A)
    (body : A -> M unit) sts :
  Q [] → (∀ a b, Q a → Q b → Q (a ++ b)) →
  (∀ x s, x ∈ l → Q (events (body x s))) →
  Q (events (for_each l body sts)).
Proof.
  intros Hnil Happ. revert sts. induction l as [|x l IH]; intros sts Hb; [done|].
  cbn. unfold mbind, M_bind.
  assert (Q (events (body x sts))) as Hx by (apply Hb, elem_of_cons; auto).
  destruct (outcome (body x sts)); cbn; [|done..].
  apply Happ; [done|]. apply IH. intros y s Hy. apply Hb, elem_of_cons. auto.
Qed.

Lemma chunk_loop_events {A} n (step : list A -> M unit)
    (Q : list event -> Prop) (L : list A) fuel l sts :
  Q [] → (∀ a b, Q a → Q b → Q (a ++ b)) →
  (∀ rem s, rem ≠ [] → rem ⊆ L → Q (events (step (take n rem) s))) →
  l ⊆ L →
  Q (events (chunk_loop n step fuel l sts)).
Proof.
  intros Hnil Happ Hstep. revert l sts.
  induction fuel as [|fuel IH]; intros [|x l] sts Hsub; try done.
  rewrite chunk_loop_cons. unfold mbind, M_bind.
  assert (Q (events (step (take n (x :: l)) sts))) as Hx by by apply Hstep.
  destruct (outcome (step (take n (x :: l)) sts)); cbn; [|done..].
  apply Happ; [done|]. apply IH.
  intros y Hy. by eapply Hsub, subseteq_drop.
Qed.

Section load_events.
Context (self : JSelectInLoader) (connection : list bound -> result (list SARow)).
Context (parents : list SARowDict) (Q : list event -> Prop).
Context (Hnil : Q []) (Happ : ∀ a b, Q a → Q b → Q (a ++ b)).

(** What holds of no events, of the events of every turn of the two loops,
    and of two lists of events put together, holds of the events of a load
    call. *)
Lemma load_events :
  (∀ our none rem sts,
     prepare_states self parents = Ok (ByKey our none) →
     load_only_child (query_info self) = true →
     rem ≠ [] → rem ⊆ insertion_sort (pd_keys our) →
     Q (events (_load_via_child_chunk self connection our none
                  (take (CHUNKSIZE self) rem) sts))) →
  (∀ l rem sts,
     prepare_states self parents = Ok (Listed l) →
     load_only_child (query_info self) = false →
     rem ≠ [] → rem ⊆ l →
     Q (events (_load_via_parent_chunk self connection
                  (take (CHUNKSIZE self) rem) sts))) →
  Q (events (load self connection parents)).
Proof.
  intros Hchild Hparent. unfold load.
  destruct (prepare_states self parents) as [st| |] eqn:Hp; [|done..].
  unfold fetch_results_and_populate_states.
  destruct (load_only_child (query_info self)) eqn:Hc, st as [our none|l];
    try done.
  - unfold _load_via_child. rewrite bind_lift_and_then.
    destruct (sorted_outcome (pd_keys our)) as [[-> _]| ->]; cbn [and_then];
      [|done].
    rewrite via_child_loop_eq.
    apply (chunk_loop_events _ _ Q (insertion_sort (pd_keys our))); [done..| |done].
    intros rem s Hne Hsub. by apply Hchild.
  - unfold _load_via_parent. rewrite via_parent_loop_eq.
    apply (chunk_loop_events _ _ Q l); [done..| |done].
    intros rem s Hne Hsub. by apply (Hparent l).
Qed.
End load_events.

Lemma tuple_of_length {A B} (f : A -> result B) l t :
  tuple_of f l = Ok t → length t = length l.
Proof. intros H%tuple_of_Forall2. symmetry. by eapply Forall2_length. Qed.

(** In the MANYTOONE path no query is ever bound to a value with a [None]
    in it: a parent whose foreign key tuple has a null component never
    makes it into a query, whatever the executor does and however the call
    ends. *)
Theorem null_keys_never_bound (self : JSelectInLoader)
    (connection : list bound -> result (list SARow)) (parents : list SARowDict) :
  load_only_child (query_info self) = true →
  Forall (fun pks => ∀ b, b ∈ pks → VNone ∉ unbind b)
    (bound_lists (events (load self connection parents))).
Proof.
  intros Hc.
  apply (load_events self connection parents
           (fun evs => Forall (fun pks => ∀ b, b ∈ pks → VNone ∉ unbind b)
                         (bound_lists evs))).
  - constructor.
  - intros a b Ha Hb. rewrite bound_lists_app. by apply Forall_app.
  - intros our none rem sts Hp _ Hne Hsub.
    destruct (prepare_states_child_ok self parents _ Hc Hp)
      as (our' & none' & [= <- <-] & Hok).
    destruct (via_child_chunk_bound_lists self connection our none
                (take (CHUNKSIZE self) rem) sts) as [->|(pks & Hpks & ->)];
      [constructor|].
    apply Forall_singleton. intros b Hb.
    apply tuple_of_Forall2 in Hpks. apply list_elem_of_lookup in Hb as [n Hn].
    destruct (Forall2_lookup_r _ _ _ _ _ Hpks Hn) as (k & Hk & Hbk).
    assert (contains_None k = false) as Hnn.
    { apply (po_keys _ _ _ _ _ Hok k).
      rewrite <- (insertion_sort_Permutation (pd_keys our)).
      apply Hsub. eapply subseteq_take. by eapply list_elem_of_lookup_2. }
    apply bool_decide_eq_false in Hnn.
    unfold bind_key in Hbk. destruct (zero_idx (query_info self)).
    + destruct k as [|v k]; [done|]. injection Hbk as <-. cbn.
      intros Hv%list_elem_of_singleton. subst v. apply Hnn, elem_of_cons. auto.
    + by injection Hbk as <-.
  - intros l rem sts _ Hc'. congruence.
Qed.

Lemma null_keys_never_bound_witness :
  Forall (fun pks => ∀ b, b ∈ pks → VNone ∉ unbind b)
    (bound_lists (events (load (many_to_one false 500)
                            (table_connection ["id"] true [target_X])
                            [child 1 (SInt 5); child 2 SNone; child 3 (SInt 5)]))).
Proof.
  apply (null_keys_never_bound (many_to_one false 500)
           (table_connection ["id"] true [target_X])
           [child 1 (SInt 5); child 2 SNone; child 3 (SInt 5)]).
  reflexivity.
Defined.

(** With a chunk size of at least one, every query of a load call is bound
    to at least one key and to at most [CHUNKSIZE] keys, in both paths. *)
Theorem batches_are_bounded (self : JSelectInLoader)
    (connection : list bound -> result (list SARow)) (parents : list SARowDict) :
  (1 ≤ CHUNKSIZE self)%nat →
  Forall (fun pks => (1 ≤ length pks ≤ CHUNKSIZE self)%nat)
    (bound_lists (events (load self connection parents))).
Proof.
  intros HB.
  assert (∀ {A} (rem : list A), rem ≠ [] →
            (1 ≤ length (take (CHUNKSIZE self) rem) ≤ CHUNKSIZE self)%nat) as Hlen.
  { intros A rem Hne. rewrite length_take. destruct rem; [done|]. cbn. lia. }
  apply (load_events self connection parents
           (fun evs => Forall (fun pks => (1 ≤ length pks ≤ CHUNKSIZE self)%nat)
                         (bound_lists evs))).
  - constructor.
  - intros a b Ha Hb. rewrite bound_lists_app. by apply Forall_app.
  - intros our none rem sts _ _ Hne _.
    destruct (via_child_chunk_bound_lists self connection our none
                (take (CHUNKSIZE self) rem) sts) as [->|(pks & Hpks & ->)];
      [constructor|].
    apply Forall_singleton. rewrite (tuple_of_length _ _ _ Hpks). by apply Hlen.
  - intros l rem sts _ _ Hne _.
    destruct (via_parent_chunk_bound_lists self connection
                (take (CHUNKSIZE self) rem) sts) as [[-> _]|(pks & Hpks & ->)];
      [constructor|].
    apply Forall_singleton. rewrite (tuple_of_length _ _ _ Hpks). by apply Hlen.
Qed.

Lemma batches_are_bounded_witness :
  Forall (fun pks => (1 ≤ length pks ≤ 2)%nat)
    (bound_lists (events (load (many_to_one false 2)
                            (table_connection ["id"] true [target 5; target 6])
                            [child 1 (SInt 5); child 2 (SInt 6); child 3 (SInt 7)]))).
Proof.
  apply (batches_are_bounded (many_to_one false 2)
           (table_connection ["id"] true [target 5; target 6])
           [child 1 (SInt 5); child 2 (SInt 6); child 3 (SInt 7)]).
  cbn. lia.
Defined.

Lemma via_parent_chunk_ok_bound self connection chunk sts :
  outcome (_load_via_parent_chunk self connection chunk sts) = Ok tt →
  ∃ pks, tuple_of (fun ks : key_tuple * nat =>
                     bind_key (zero_idx (query_info self)) ks.1) chunk = Ok pks
         ∧ bound_lists (events (_load_via_parent_chunk self connection chunk sts))
           = [pks].
Proof.
  intros Ho.
  destruct (via_parent_chunk_bound_lists self connection chunk sts)
    as [[_ Hne]|H]; [|done].
  by destruct (Hne tt).
Qed.

(** Over a load call that returns, the queries are bound, taken together
    and in order, to every key once: to the sorted keys of the groups in the
    MANYTOONE path, to the primary keys of the parents, in the order of the
    parent list, in the other path. *)
Theorem returning_call_binds_every_key (self : JSelectInLoader)
    (connection : list bound -> result (list SARow)) (parents : list SARowDict)
    (st : prepared) :
  prepare_states self parents = Ok st →
  outcome (load self connection parents) = Ok tt →
  let bound_keys := mjoin (bound_lists (events (load self connection parents))) in
  match st with
  | ByKey our_states _ =>
      ∃ our_keys, sorted (pd_keys our_states) = Ok our_keys
        ∧ our_keys ≡ₚ pd_keys our_states
        ∧ tuple_of (bind_key (zero_idx (query_info self))) our_keys
          = Ok bound_keys
  | Listed our_states =>
      tuple_of (fun ks : key_tuple * nat =>
                  bind_key (zero_idx (query_info self)) ks.1) our_states
      = Ok bound_keys
  end.
Proof.
  intros Hp. cbn zeta. unfold load. rewrite Hp.
  unfold fetch_results_and_populate_states.
  destruct (load_only_child (query_info self)), st as [our none|l]; try done.
  - unfold _load_via_child. rewrite bind_lift_and_then.
    destruct (sorted_outcome (pd_keys our)) as [[-> _]| ->]; cbn [and_then];
      [|done].
    rewrite via_child_loop_eq. intros Ho.
    destruct (chunk_loop_bound _ _ (bind_key (zero_idx (query_info self))) _ _ _
                (via_child_chunk_ok_bound self connection our none) Ho)
      as (pks & Hpks & ->).
    exists (insertion_sort (pd_keys our)).
    split_and!; [done|apply insertion_sort_Permutation|done].
  - unfold _load_via_parent. rewrite via_parent_loop_eq. intros Ho.
    by destruct (chunk_loop_bound _ _
                   (fun ks : key_tuple * nat =>
                      bind_key (zero_idx (query_info self)) ks.1) _ _ _
                   (via_parent_chunk_ok_bound self connection) Ho)
      as (pks & Hpks & ->).
Qed.

Lemma returning_call_binds_every_key_witness :
  tuple_of (fun ks : key_tuple * nat => bind_key true ks.1)
    [([VInt 20], 0%nat); ([VInt 10], 1%nat)]
  = Ok (mjoin (bound_lists (events (load (one_to_many true 1)
                 (table_connection ["owner_id"] true items)
                 [owner 20; owner 10])))).
Proof.
  apply (returning_call_binds_every_key (one_to_many true 1)
           (table_connection ["owner_id"] true items) [owner 20; owner 10]
           (Listed [([VInt 20], 0%nat); ([VInt 10], 1%nat)])).
  - vm_compute. reflexivity.
  - vm_compute. reflexivity.
Defined.

(** ** Rows yielded and rows attached *)

Lemma pd_values_set {K V} `{EqDecision K} (k : K) (v v' : V) d :
  v' ∈ pd_values (pd_set k v d) → v' = v ∨ v' ∈ pd_values d.
Proof.
  unfold pd_values. induction d as [|[k0 v0] d IH]; cbn.
  - intros ->%list_elem_of_singleton. by left.
  - destruct (decide (k = k0)); cbn; intros [->|Hin]%elem_of_cons.
    + by left.
    + right. apply elem_of_cons. auto.
    + right. apply elem_of_cons. auto.
    + destruct (IH Hin) as [->|?]; [by left|]. right. apply elem_of_cons. auto.
Qed.

Lemma rows_by_pk_values self rows : ∀ d data row,
  rows_by_pk self rows d = Ok data → row ∈ pd_values data →
  row ∈ rows ∨ row ∈ pd_values d.
Proof.
  induction rows as [|r rows IH]; intros d data row.
  - intros [= <-] Hin. by right.
  - cbn [rows_by_pk].
    destruct (get_primary_key_tuple (target_mapper self) r) as [kk| |]; cbn;
      [|done..].
    intros Hd Hin. destruct (IH _ _ _ Hd Hin) as [?|[->|?]%pd_values_set].
    + left. apply elem_of_cons. auto.
    + left. apply elem_of_cons. auto.
    + by right.
Qed.

Lemma write_events_elem k ws ev :
  ev ∈ write_events k ws ↔ ∃ i v, ev = EvSetItem i k v ∧ (i, v) ∈ ws.
Proof.
  unfold write_events. rewrite list_elem_of_fmap. split.
  - intros ([i v] & -> & Hin). by exists i, v.
  - intros (i & v & -> & Hin). by exists (i, v).
Qed.

Lemma warning_elem self c ev : ev ∈ warning self c → ev = EvWarn.
Proof.
  unfold warning. destruct (uselist self), c as [[|? [|? ?]]|];
    try (by intros ?%elem_of_nil).
  by intros ?%list_elem_of_singleton.
Qed.

Section rows.
Context (self : JSelectInLoader) (connection : list bound -> result (list SARow)).
Context (parents : list SARowDict).

Lemma collection_rows_fetched rows data k row :
  group_rows self rows = Ok data →
  row ∈ default [] (collection_of self data k) → row ∈ rows.
Proof.
  intros Hd. unfold collection_of, _empty_result.
  rewrite (group_rows_get _ _ _ k Hd).
  destruct (matching_rows self k rows) as [|r rs] eqn:E.
  - destruct (uselist self); by intros ?%elem_of_nil.
  - cbn. rewrite <- E. by intros [? _]%matching_rows_key.
Qed.

(** The generator invents no row: every row it yields is a row that a
    query of this call returned. *)
Theorem yielded_rows_were_fetched (row : SARow) :
  EvYield row ∈ events (load self connection parents) →
  ∃ pks rows, EvExecute pks ∈ events (load self connection parents)
              ∧ connection pks = Ok rows ∧ row ∈ rows.
Proof.
  revert row.
  apply (load_events self connection parents
    (fun evs => ∀ row, EvYield row ∈ evs →
       ∃ pks rows, EvExecute pks ∈ evs ∧ connection pks = Ok rows ∧ row ∈ rows)).
  - intros row Hin. by apply elem_of_nil in Hin.
  - intros a b Ha Hb row [Hin|Hin]%elem_of_app.
    + destruct (Ha row Hin) as (pks & rows & ? & ? & ?).
      exists pks, rows. split_and!; [|done..]. apply elem_of_app. auto.
    + destruct (Hb row Hin) as (pks & rows & ? & ? & ?).
      exists pks, rows. split_and!; [|done..]. apply elem_of_app. auto.
  - intros our none rem sts _ _ _ _ row. rewrite via_child_chunk_run.
    destruct (tuple_of _ (take _ rem)) as [pks| |]; cbn [and_then events];
      try (by intros ?%elem_of_nil).
    destruct (connection pks) as [rows| |] eqn:Hc; cbn [and_then events];
      try (by intros [[=]|?%elem_of_nil]%elem_of_cons).
    destruct (rows_by_pk self rows []) as [data| |] eqn:Hd; cbn [and_then events];
      try (by intros [[=]|?%elem_of_nil]%elem_of_cons).
    cbn zeta. cbn [events].
    intros [[=]|[Hin|Hin]%elem_of_app]%elem_of_cons.
    + by apply write_events_elem in Hin as (? & ? & [=] & _).
    + apply list_elem_of_fmap in Hin as (row' & [= <-] & Hin).
      exists pks, rows. split_and!; [apply elem_of_cons; auto|done|].
      destruct (rows_by_pk_values _ _ _ _ _ Hd Hin) as [?|?%elem_of_nil]; done.
  - intros l rem sts _ _ _ _ row. rewrite via_parent_chunk_run.
    destruct (tuple_of _ (take _ rem)) as [pks| |]; cbn [and_then events];
      try (by intros ?%elem_of_nil).
    destruct (connection pks) as [rows| |] eqn:Hc; cbn [and_then events];
      try (by intros [[=]|?%elem_of_nil]%elem_of_cons).
    destruct (group_rows self rows) as [data| |] eqn:Hd; cbn [and_then events];
      try (by intros [[=]|?%elem_of_nil]%elem_of_cons).
    cbn zeta. cbn [events]. intros [[=]|Hin]%elem_of_cons.
    exists pks, rows. split_and!; [apply elem_of_cons; auto|done|].
    revert row Hin.
    apply (for_each_events (fun evs => ∀ row, EvYield row ∈ evs → row ∈ rows)).
    + intros row Hin. by apply elem_of_nil in Hin.
    + intros a b Ha Hb row [?|?]%elem_of_app; auto.
    + intros [k i] s _ row. rewrite populate_parent_run.
      destruct (hash_check k); cbn [and_then events];
        try (by intros ?%elem_of_nil).
      cbn zeta. cbn [events].
      intros [Hin%warning_elem|[[=]|Hin]%elem_of_cons]%elem_of_app; [done|].
      apply list_elem_of_fmap in Hin as (row' & [= <-] & Hin).
      by eapply collection_rows_fetched.
Qed.

Lemma holds_row_related o row :
  holds_row (related_value self o) row → o = Some row.
Proof.
  unfold related_value. destruct (uselist self); cbn.
  - intros [[=]|(l & [= <-] & Hin)]. by apply list_elem_of_singleton in Hin.
  - destruct o as [r|]; intros [[=]|(l & [=] & _)]. congruence.
Qed.

Lemma holds_row_stored c row :
  holds_row (stored_value self c) row → row ∈ default [] c.
Proof.
  unfold stored_value, collection_value.
  assert (∀ rows : list SARow,
            holds_row (VList (Some <$> rows)) row → row ∈ rows) as Hlist.
  { intros rows [[=]|(l & [= <-] & Hin)].
    by apply list_elem_of_fmap in Hin as (r & [= <-] & ?). }
  destruct (uselist self), c as [[|first others]|];
    try (by apply Hlist); try (by intros [[=]|(l & [=] & _)]).
  intros [[= ->]|(l & [=] & _)]. apply elem_of_cons. auto.
Qed.

(** Every row the generator attaches to a parent record, as the related
    row or in the list of related rows, it also yields, in the same call
    and however the call ends. *)
Theorem attached_rows_are_yielded (i : nat) (f : string) (v : value)
    (row : SARow) :
  EvSetItem i f v ∈ events (load self connection parents) →
  holds_row v row →
  EvYield row ∈ events (load self connection parents).
Proof.
  revert i f v row.
  apply (load_events self connection parents
    (fun evs => ∀ i f v row, EvSetItem i f v ∈ evs → holds_row v row →
                             EvYield row ∈ evs)).
  - intros i f v row Hin. by apply elem_of_nil in Hin.
  - intros a b Ha Hb i f v row [Hin|Hin]%elem_of_app Hh; apply elem_of_app;
      [left|right]; eauto.
  - intros our none rem sts _ _ _ _ i f v row. rewrite via_child_chunk_run.
    destruct (tuple_of _ (take _ rem)) as [pks| |]; cbn [and_then events];
      try (by intros ?%elem_of_nil).
    destruct (connection pks) as [rows| |] eqn:Hc; cbn [and_then events];
      try (by intros [[=]|?%elem_of_nil]%elem_of_cons).
    destruct (rows_by_pk self rows []) as [data| |] eqn:Hd; cbn [and_then events];
      try (by intros [[=]|?%elem_of_nil]%elem_of_cons).
    cbn zeta. cbn [events].
    intros [[=]|[Hin|Hin]%elem_of_app]%elem_of_cons Hh.
    + apply write_events_elem in Hin as (i' & v' & [= -> _ ->] & Hin).
      apply elem_of_cons. right. apply elem_of_app. right.
      apply list_elem_of_fmap_2.
      apply child_writes_elem in Hin as [(k & _ & _ & ->)|[_ ->]].
      * apply holds_row_related in Hh. by eapply pd_values_elem.
      * by destruct Hh as [[=]|(l & [=] & _)].
    + by apply list_elem_of_fmap in Hin as (? & [=] & _).
  - intros l rem sts _ _ _ _ i f v row. rewrite via_parent_chunk_run.
    destruct (tuple_of _ (take _ rem)) as [pks| |]; cbn [and_then events];
      try (by intros ?%elem_of_nil).
    destruct (connection pks) as [rows| |] eqn:Hc; cbn [and_then events];
      try (by intros [[=]|?%elem_of_nil]%elem_of_cons).
    destruct (group_rows self rows) as [data| |] eqn:Hd; cbn [and_then events];
      try (by intros [[=]|?%elem_of_nil]%elem_of_cons).
    cbn zeta. cbn [events]. intros [[=]|Hin]%elem_of_cons Hh.
    apply elem_of_cons. right. revert i f v row Hin Hh.
    apply (for_each_events (fun evs => ∀ i f v row, EvSetItem i f v ∈ evs →
                                         holds_row v row → EvYield row ∈ evs)).
    + intros i f v row Hin. by apply elem_of_nil in Hin.
    + intros a b Ha Hb i f v row [Hin|Hin]%elem_of_app Hh; apply elem_of_app;
        [left|right]; eauto.
    + intros [k j] s _ i f v row. rewrite populate_parent_run.
      destruct (hash_check k); cbn [and_then events];
        try (by intros ?%elem_of_nil).
      cbn zeta. cbn [events].
      intros [Hin%warning_elem|[[= _ _ ->]|Hin]%elem_of_cons]%elem_of_app Hh;
        [done| |by apply list_elem_of_fmap in Hin as (? & [=] & _)].
      apply elem_of_app. right. apply elem_of_cons. right.
      apply list_elem_of_fmap_2. by apply holds_row_stored.
Qed.
End rows.

Lemma attached_rows_are_yielded_witness :
  EvYield target_X
  ∈ events (load (many_to_one false 500)
              (table_connection ["id"] true [target_X])
              [child 1 (SInt 5); child 2 SNone; child 3 (SInt 5)]).
Proof.
  apply (attached_rows_are_yielded (many_to_one false 500)
           (table_connection ["id"] true [target_X])
           [child 1 (SInt 5); child 2 SNone; child 3 (SInt 5)]
           0 "parent" (VDict target_X) target_X).
  - vm_compute. apply elem_of_cons. right. apply elem_of_cons. by left.
  - by left.
Defined.

Lemma yielded_rows_were_fetched_witness :
  ∃ pks rows,
    EvExecute pks ∈ events (load (many_to_one false 500)
                              (table_connection ["id"] true [target_X])
                              [child 1 (SInt 5)])
    ∧ table_connection ["id"] true [target_X] pks = Ok rows
    ∧ target_X ∈ rows.
Proof.
  apply (yielded_rows_were_fetched (many_to_one false 500)
           (table_connection ["id"] true [target_X]) [child 1 (SInt 5)] target_X).
  vm_compute. apply elem_of_cons. right. apply elem_of_cons. right.
  apply elem_of_cons. by left.
Defined.

(** ** Failing queries, termination *)

Lemma chunk_loop_runs {A} n (step : list A -> M unit)
    (R : list event -> result unit -> Prop) fuel l sts :
  (∀ o, R [] o) →
  (∀ e1 e2 o, R e1 (Ok tt) → R e2 o → R (e1 ++ e2) o) →
  (∀ chunk s, R (events (step chunk s)) (outcome (step chunk s))) →
  R (events (chunk_loop n step fuel l sts))
    (outcome (chunk_loop n step fuel l sts)).
Proof.
  intros Hnil Hseq Hstep. revert l sts.
  induction fuel as [|fuel IH]; intros [|x l] sts; try apply Hnil.
  rewrite chunk_loop_cons. unfold mbind, M_bind.
  pose proof (Hstep (take n (x :: l)) sts) as Hx.
  destruct (outcome (step (take n (x :: l)) sts)) as [[]| |]; cbn; [|done..].
  by apply Hseq.
Qed.

Section load_runs.
Context (self : JSelectInLoader) (connection : list bound -> result (list SARow)).
Context (parents : list SARowDict) (R : list event -> result unit -> Prop).
Context (Hnil : ∀ o, R [] o).
Context (Hseq : ∀ e1 e2 o, R e1 (Ok tt) → R e2 o → R (e1 ++ e2) o).

(** What holds of a run without events, of every turn of the two loops, and
    of a run that goes on after a turn that returned, holds of a load
    call. *)
Lemma load_runs :
  (∀ our none chunk sts,
     prepare_states self parents = Ok (ByKey our none) →
     load_only_child (query_info self) = true →
     let r := _load_via_child_chunk self connection our none chunk sts in
     R (events r) (outcome r)) →
  (∀ l chunk sts,
     prepare_states self parents = Ok (Listed l) →
     load_only_child (query_info self) = false →
     let r := _load_via_parent_chunk self connection chunk sts in
     R (events r) (outcome r)) →
  R (events (load self connection parents))
    (outcome (load self connection parents)).
Proof.
  intros Hchild Hparent. unfold load.
  destruct (prepare_states self parents) as [st| |] eqn:Hp; [|apply Hnil..].
  unfold fetch_results_and_populate_states.
  destruct (load_only_child (query_info self)) eqn:Hc, st as [our none|l];
    try apply Hnil.
  - unfold _load_via_child. rewrite bind_lift_and_then.
    destruct (sorted_outcome (pd_keys our)) as [[-> _]| ->]; cbn [and_then];
      [|apply Hnil].
    rewrite via_child_loop_eq. apply chunk_loop_runs; [done..|].
    intros chunk s. by apply Hchild.
  - unfold _load_via_parent. rewrite via_parent_loop_eq.
    apply chunk_loop_runs; [done..|]. intros chunk s. by apply (Hparent l).
Qed.
End load_runs.

(** A query that raises ends the call: the generator raises the query's
    exception, and the failed query is the last thing the call did (no
    write, no yield and no further query after it). *)
Theorem execution_failure_propagates (self : JSelectInLoader)
    (connection : list bound -> result (list SARow))
    (parents : list SARowDict) (pks : list bound) (e : exn) :
  EvExecute pks ∈ events (load self connection parents) →
  connection pks = Raise e →
  outcome (load self connection parents) = Raise e
  ∧ last (events (load self connection parents)) = Some (EvExecute pks).
Proof.
  revert pks e.
  apply (load_runs self connection parents
    (fun evs o => ∀ pks e, EvExecute pks ∈ evs → connection pks = Raise e →
                           o = Raise e ∧ last evs = Some (EvExecute pks))).
  - intros o pks e Hin. by apply elem_of_nil in Hin.
  - intros e1 e2 o H1 H2 pks e [Hin|Hin]%elem_of_app Hc.
    + by destruct (H1 pks e Hin Hc).
    + destruct (H2 pks e Hin Hc) as [-> Hl]. split; [done|].
      by rewrite last_app, Hl.
  - intros our none chunk sts _ _. cbn zeta. rewrite via_child_chunk_run.
    intros pks e.
    destruct (tuple_of _ chunk) as [pks0| |]; cbn [and_then events outcome];
      try (by intros ?%elem_of_nil).
    destruct (connection pks0) as [rows| |] eqn:Hc0; cbn [and_then events outcome].
    + assert (EvExecute pks ∈ [EvExecute pks0] → connection pks = Raise e → False)
        as Hno by (intros [= ->]%list_elem_of_singleton; congruence).
      destruct (rows_by_pk self rows []) as [data| |];
        cbn [and_then events outcome]; try (by intros ? ?; destruct Hno).
      cbn zeta. cbn [events outcome].
      intros [[= ->]|[Hin|Hin]%elem_of_app]%elem_of_cons; [congruence| |].
      * by apply write_events_elem in Hin as (? & ? & [=] & _).
      * by apply list_elem_of_fmap in Hin as (? & [=] & _).
    + intros [= ->]%list_elem_of_singleton Hc. split; [congruence|done].
    + intros [= ->]%list_elem_of_singleton Hc. congruence.
  - intros l chunk sts _ _. cbn zeta. rewrite via_parent_chunk_run.
    intros pks e.
    destruct (tuple_of _ chunk) as [pks0| |]; cbn [and_then events outcome];
      try (by intros ?%elem_of_nil).
    destruct (connection pks0) as [rows| |] eqn:Hc0; cbn [and_then events outcome].
    + assert (EvExecute pks ∈ [EvExecute pks0] → connection pks = Raise e → False)
        as Hno by (intros [= ->]%list_elem_of_singleton; congruence).
      destruct (group_rows self rows) as [data| |];
        cbn [and_then events outcome]; try (by intros ? ?; destruct Hno).
      cbn zeta. cbn [events outcome].
      intros [[= ->]|Hin]%elem_of_cons; [congruence|].
      pose proof (for_each_populate_no_execute self data chunk sts) as Hf.
      rewrite Forall_forall in Hf. by apply Hf in Hin.
    + intros [= ->]%list_elem_of_singleton Hc. split; [congruence|done].
    + intros [= ->]%list_elem_of_singleton Hc. congruence.
Qed.

Lemma execution_failure_propagates_witness :
  outcome (load (one_to_many true 1) (fun _ => Raise (ExecutionError 7))
             [owner 1; owner 2]) = Raise (ExecutionError 7)
  ∧ last (events (load (one_to_many true 1) (fun _ => Raise (ExecutionError 7))
                    [owner 1; owner 2]))
    = Some (EvExecute [BScalar (VScalar (SInt 1))]).
Proof.
  apply (execution_failure_propagates (one_to_many true 1)
           (fun _ => Raise (ExecutionError 7)) [owner 1; owner 2]).
  - vm_compute. apply elem_of_cons. by left.
  - reflexivity.
Defined.

Lemma load_no_hang_witness :
  outcome (load (many_to_one false 2)
             (table_connection ["id"] true [target 5; target 6; target 7])
             [child 1 (SInt 5); child 2 (SInt 6); child 3 (SInt 7);
              child 4 SNone]) ≠ Hang.
Proof.
  apply (load_no_hang (many_to_one false 2)
           (table_connection ["id"] true [target 5; target 6; target 7])).
  - intros pks. unfold table_connection. discriminate.
  - vm_compute. lia.
Defined.

(** ** A chunk size of zero *)

Lemma chunk_loop_zero {A} (step : list A -> M unit) fuel l sts :
  (∀ s, outcome (step [] s) = Ok tt ∧ bound_lists (events (step [] s)) = [[]]) →
  l ≠ [] →
  let r := chunk_loop 0 step fuel l sts in
  outcome r = Hang ∧ bound_lists (events r) = replicate fuel [].
Proof.
  intros Hstep Hl. cbn zeta. revert sts.
  induction fuel as [|fuel IH]; intros sts; destruct l as [|x l]; try done.
  rewrite chunk_loop_cons. cbn [take drop]. unfold mbind, M_bind.
  destruct (Hstep sts) as [-> Hb]. cbn [states events outcome].
  destruct (IH (states (step [] sts))) as [-> Hb']. split; [done|].
  by rewrite bound_lists_app, Hb, Hb'.
Qed.

(** With a chunk size of zero neither loop ever finishes once there is
    something to load: every turn takes an empty slice, leaves the pending
    list as it was and executes one more query with an empty list of bound
    values. Whatever number of turns is allowed, the loop is still running
    after them. *)
Theorem zero_chunksize_never_returns (self : JSelectInLoader)
    (connection : list bound -> result (list SARow)) (fuel : nat)
    (sts : list SARowDict) (listed : list (key_tuple * nat))
    (our_states : list (key_tuple * list nat)) (none_states : list nat)
    (our_keys : list key_tuple) :
  CHUNKSIZE self = 0%nat → connection [] = Ok [] →
  listed ≠ [] → our_keys ≠ [] →
  let r1 := _load_via_parent_loop self connection fuel listed sts in
  let r2 := _load_via_child_loop self connection fuel our_states none_states
              our_keys sts in
  outcome r1 = Hang ∧ bound_lists (events r1) = replicate fuel []
  ∧ outcome r2 = Hang ∧ bound_lists (events r2) = replicate fuel [].
Proof.
  intros HB Hc Hl Hk. cbn zeta.
  rewrite via_parent_loop_eq, via_child_loop_eq, HB.
  assert (∀ A B, A ∧ B → ∀ C D, C ∧ D → A ∧ B ∧ C ∧ D) as Hand by tauto.
  apply Hand; apply chunk_loop_zero; try done.
  - intros s. rewrite via_parent_chunk_run. cbn. rewrite Hc. cbn. done.
  - intros s. rewrite via_child_chunk_run. cbn. rewrite Hc. cbn.
    split; [done|]. f_equal. rewrite app_nil_r.
    apply bound_lists_no_execute, no_execute_write_events.
Qed.

Lemma zero_chunksize_never_returns_witness :
  outcome (_load_via_parent_loop (one_to_many true 0)
             (table_connection ["owner_id"] true items) 3
             [([VInt 10], 0%nat)] [owner 10]) = Hang
  ∧ bound_lists (events (_load_via_parent_loop (one_to_many true 0)
             (table_connection ["owner_id"] true items) 3
             [([VInt 10], 0%nat)] [owner 10])) = [[]; []; []].
Proof.
  destruct (zero_chunksize_never_returns (one_to_many true 0)
              (table_connection ["owner_id"] true items) 3 [owner 10]
              [([VInt 10], 0%nat)] [] [] [[VInt 10]])
    as (H1 & H2 & _); [reflexivity|reflexivity|discriminate|discriminate|].
  split; [exact H1|exact H2].
Defined.

(** ** What a MANYTOONE load leaves in the parent records *)

(** MANYTOONE over a table of target rows, with a chunk size of at least
    one, at least one foreign key column, keys that [sorted] can compare and
    at least one parent whose foreign key has no null in it: the call
    returns, and every parent record is left as it was but for the
    relationship field. That field is [None] for a parent whose foreign key
    has a null in it; for any other parent it is the row of the table with
    that primary key (the last one if several have it), or [None] if there
    is none, wrapped in a one-element list when the relationship is
    plural. *)
Theorem many_to_one_attaches_referenced_row (self : JSelectInLoader)
    (table : list SARow) (parents : list SARowDict)
    (our : list (key_tuple * list nat)) (none : list nat) :
  load_only_child (query_info self) = true →
  (1 ≤ CHUNKSIZE self)%nat →
  child_lookup_cols (query_info self) ≠ [] →
  prepare_states self parents = Ok (ByKey our none) →
  our ≠ [] →
  pairwise_comparable (pd_keys our) = true →
  let r := load self
             (table_connection (primary_key (target_mapper self))
                (zero_idx (query_info self)) table) parents in
  outcome r = Ok tt
  ∧ ∀ i p, parents !! i = Some p →
      ∃ k, tuple_of (getitem p) (child_lookup_cols (query_info self)) = Ok k
           ∧ states r !! i
             = Some (<[key self :=
                        if contains_None k then VNone
                        else related_value self (last_with_key self k table)]> p).
Proof.
  intros Hc HB Hcols Hp Hour Hcmp. cbn zeta.
  destruct (prepare_states_child_ok self parents _ Hc Hp)
    as (our' & none' & [= <- <-] & Hok).
  unfold load. rewrite Hp. unfold fetch_results_and_populate_states.
  rewrite Hc. unfold _load_via_child. rewrite bind_lift_and_then.
  unfold sorted. rewrite Hcmp. cbn [and_then].
  assert (∀ k, k ∈ insertion_sort (pd_keys our) →
               ∃ b, bind_key (zero_idx (query_info self)) k = Ok b) as Hbind.
  { intros k Hk. rewrite insertion_sort_Permutation in Hk.
    destruct (po_keys _ _ _ _ _ Hok k Hk) as [_ Hlen].
    apply bind_key_total. intros _ ->.
    by destruct (child_lookup_cols (query_info self)). }
  destruct (via_child_table_loop self table parents our none Hok _ HB Hbind)
    as (Ho & W & HW & Hmem).
  split; [exact Ho|].
  intros i p Hi.
  destruct (po_cover _ _ _ _ _ Hok i (lookup_lt_Some _ _ _ Hi)) as (k & Hk & Hin).
  assert (tuple_of (getitem p) (child_lookup_cols (query_info self)) = Ok k)
    as Ht.
  { unfold parent_key in Hk. rewrite Hi in Hk. cbn in Hk.
    destruct (tuple_of (getitem p) _); congruence. }
  exists k. split; [done|].
  assert (i ∈ W) as HiW.
  { apply Hmem. destruct (contains_None k).
    - right. split; [|done]. intros Hs.
      assert (length (insertion_sort (pd_keys our)) = length our) as Hl.
      { rewrite (Permutation_length (insertion_sort_Permutation _)).
        unfold pd_keys. by rewrite length_fmap. }
      rewrite Hs in Hl. by destruct our.
    - destruct Hin as (l & Hl & Hil). left. exists k. split.
      + rewrite insertion_sort_Permutation. by eapply pd_get_Some_keys.
      + by rewrite Hl. }
  rewrite (HW i), decide_True, Hi by done. cbn. do 2 f_equal.
  unfold expected_value. by rewrite Hk.
Qed.

Lemma many_to_one_attaches_referenced_row_witness :
  let r := load (many_to_one false 1)
             (table_connection ["id"] true [target 5; target_X; target 6])
             [child 1 (SInt 5); child 2 SNone; child 3 (SInt 7)] in
  outcome r = Ok tt
  ∧ states r = [<["parent" := VDict target_X]> (child 1 (SInt 5));
                <["parent" := VNone]> (child 2 SNone);
                <["parent" := VNone]> (child 3 (SInt 7))].
Proof.
  destruct (many_to_one_attaches_referenced_row (many_to_one false 1)
              [target 5; target_X; target 6]
              [child 1 (SInt 5); child 2 SNone; child 3 (SInt 7)]
              [([VInt 5], [0%nat]); ([VInt 7], [2%nat])] [1%nat])
    as [Ho Hs]; [reflexivity|vm_compute; lia|discriminate|reflexivity
                |discriminate|reflexivity|].
  split; [exact Ho|]. vm_compute. reflexivity.
Defined.

(** ** What a ONETOMANY load leaves in the parent records *)

Lemma for_each_populate_from_states (self : JSelectInLoader)
    (coll : key_tuple -> option (list SARow)) (l : list (key_tuple * nat)) :
  ∀ sts,
  (∀ ks, ks ∈ l → hash_check ks.1 = Ok tt ∧ is_Some (coll ks.1)) →
  NoDup l.*2 →
  let r := for_each l (populate_parent_from self coll) sts in
  outcome r = Ok tt
  ∧ (∀ i, i ∉ l.*2 → states r !! i = sts !! i)
  ∧ (∀ k i, (k, i) ∈ l →
       states r !! i = insert (key self) (stored_value self (coll k)) <$> sts !! i).
Proof.
  induction l as [|[k i] l IH]; intros sts Hall Hnd; cbn zeta.
  - split_and!; [done..|]. intros k i Hin. by apply elem_of_nil in Hin.
  - rewrite fmap_cons in Hnd. cbn [snd] in Hnd.
    apply NoDup_cons in Hnd as [Hi Hnd].
    destruct (Hall (k, i)) as [Hh [c Hc]]; [apply elem_of_cons; auto|].
    cbn [fst] in Hh, Hc. cbn [for_each]. unfold mbind, M_bind.
    assert (populate_parent_from self coll (k, i) sts
            = Run (alter (insert (key self) (stored_value self (Some c))) i sts)
                (warning self (Some c)
                   ++ EvSetItem i (key self) (stored_value self (Some c))
                   :: (EvYield <$> c)) (Ok tt)) as ->.
    { unfold populate_parent_from. cbn [fst snd]. by rewrite Hh, Hc. }
    cbn [states events outcome].
    destruct (IH (alter (insert (key self) (stored_value self (Some c))) i sts))
      as (Ho & Hout & Hin); [|done|].
    { intros ks Hks. apply Hall, elem_of_cons. auto. }
    cbn zeta in Ho, Hout, Hin. split_and!.
    + exact Ho.
    + intros j Hj. rewrite fmap_cons, not_elem_of_cons in Hj.
      destruct Hj as [Hne Hj]. rewrite (Hout j Hj).
      by apply list_lookup_alter_ne.
    + intros k' j [[= -> ->]|Hj]%elem_of_cons.
      * rewrite (Hout i Hi), Hc. apply list_lookup_alter_eq.
      * rewrite (Hin k' j Hj).
        rewrite list_lookup_alter_ne; [done|].
        intros ->. apply Hi. by apply (list_elem_of_fmap_2 snd _ (k', j)).
Qed.

Section via_parent_result.
Context (self : JSelectInLoader) (table : list SARow) (parents : list SARowDict).
Context (Hj : load_with_join (query_info self) = false).
Context (Hc : load_only_child (query_info self) = false).
Context (HB : (1 ≤ CHUNKSIZE self)%nat).
Context (Hcols : primary_key (source_mapper self) ≠ []).

Lemma via_parent_table_states :
  (∀ p, p ∈ parents →
     ∃ k, get_primary_key_tuple (source_mapper self) p = Ok k
          ∧ hash_check k = Ok tt ∧ is_Some (table_collection self table k)) →
  let r := load self
             (table_connection (pk_cols (query_info self))
                (zero_idx (query_info self)) table) parents in
  outcome r = Ok tt
  ∧ ∀ i p, parents !! i = Some p →
      ∃ k, get_primary_key_tuple (source_mapper self) p = Ok k
           ∧ states r !! i
             = Some (<[key self :=
                        stored_value self (table_collection self table k)]> p).
Proof.
  intros Hall. cbn zeta. unfold load, prepare_states. rewrite Hj, Hc.
  destruct (prepare_parent (source_mapper self) 0 parents) as [l| |] eqn:El.
  2,3: exfalso; revert El; clear -Hall; generalize 0%nat;
    induction parents as [|p ps IH]; intros i0; [done|];
    rewrite prepare_parent_cons;
    destruct (Hall p) as (k & -> & _); [apply elem_of_cons; auto|]; cbn;
    specialize (IH (fun q Hq => Hall q (proj2 (elem_of_cons _ _ _) (or_intror Hq)))
                   (S i0));
    by destruct (prepare_parent (source_mapper self) (S i0) ps).
  destruct (prepare_parent_spec _ _ _ _ El) as [Hidx HF].
  unfold fetch_results_and_populate_states. rewrite Hc.
  assert (∀ ks, ks ∈ l →
            ∃ p, p ∈ parents
                 ∧ get_primary_key_tuple (source_mapper self) p = Ok ks.1) as Hl.
  { intros ks [n Hn]%list_elem_of_lookup.
    destruct (Forall2_lookup_r _ _ _ _ _ HF Hn) as (p & Hp & Hk).
    exists p. split; [by eapply list_elem_of_lookup_2|done]. }
  destruct (via_parent_table_loop self table l parents HB) as [Hs Ho'].
  { intros ks (p & Hp & Hk)%Hl. apply bind_key_total. intros _ Hnil.
    unfold get_primary_key_tuple in Hk. apply tuple_of_length in Hk.
    rewrite Hnil in Hk. by destruct (primary_key (source_mapper self)). }
  change (Listed <$> Ok l) with (Ok (Listed l) : result prepared).
  cbv beta iota. cbn zeta in Hs, Ho'. rewrite Hs, Ho'. clear Hs Ho'.
  destruct (for_each_populate_from_states self (table_collection self table) l
              parents) as (Ho & _ & Hin).
  { intros ks (p & Hp & Hk)%Hl.
    destruct (Hall p Hp) as (k & Hk' & Hh & Hs).
    assert (k = ks.1) as -> by congruence. done. }
  { rewrite Hidx. apply NoDup_seq. }
  split; [exact Ho|].
  intros i p Hi.
  destruct (Forall2_lookup_l _ _ _ _ _ HF Hi) as ([k j] & Hli & Hk).
  cbn [fst] in Hk. exists k. split; [done|].
  assert (j = i) as ->.
  { assert (l.*2 !! i = Some j) as Hji by by rewrite list_lookup_fmap, Hli.
    rewrite Hidx in Hji. apply lookup_seq in Hji as [-> _]. done. }
  rewrite (Hin k i), Hi; [done|]. by eapply list_elem_of_lookup_2.
Qed.

(** A plural ONETOMANY or MANYTOMANY relationship over a table of target
    rows, with a chunk size of at least one, at least one primary key
    column, and parents that all have their primary key loaded with
    hashable, non-null values: the call returns, and every parent record
    is left as it was but for the relationship field, which holds the list
    of all rows of the table whose foreign key tuple is the parent's
    primary key tuple, in table order (the empty list when there is
    none). *)
Theorem one_to_many_collects_matching_rows :
  uselist self = true →
  (∀ p, p ∈ parents →
     ∃ k, get_primary_key_tuple (source_mapper self) p = Ok k
          ∧ hash_check k = Ok tt ∧ contains_None k = false) →
  let r := load self
             (table_connection (pk_cols (query_info self))
                (zero_idx (query_info self)) table) parents in
  outcome r = Ok tt
  ∧ ∀ i p, parents !! i = Some p →
      ∃ k, get_primary_key_tuple (source_mapper self) p = Ok k
           ∧ states r !! i
             = Some (<[key self :=
                        VList (Some <$> matching_rows self k table)]> p).
Proof.
  intros Hul Hall. cbn zeta.
  assert (∀ k, table_collection self table k
               = Some (matching_rows self k table)) as Hcoll.
  { intros k. unfold table_collection, _empty_result. rewrite Hul.
    by destruct (matching_rows self k table). }
  destruct via_parent_table_states as [Ho Hs].
  { intros p Hp. destruct (Hall p Hp) as (k & Hk & Hh & _).
    exists k. split_and!; [done..|]. by rewrite Hcoll. }
  split; [exact Ho|]. intros i p Hi.
  destruct (Hs i p Hi) as (k & Hk & ->). exists k. split; [done|].
  rewrite Hcoll. unfold stored_value. by rewrite Hul.
Qed.

(** A singular relationship loaded through the ONETOMANY path, under the
    same conditions and with at least one matching row in the table for
    every parent: the call returns, and the relationship field of every
    parent holds the first row of the table whose foreign key tuple is the
    parent's primary key tuple. *)
Theorem singular_via_parent_takes_first_match :
  uselist self = false →
  (∀ p, p ∈ parents →
     ∃ k, get_primary_key_tuple (source_mapper self) p = Ok k
          ∧ hash_check k = Ok tt ∧ contains_None k = false
          ∧ matching_rows self k table ≠ []) →
  let r := load self
             (table_connection (pk_cols (query_info self))
                (zero_idx (query_info self)) table) parents in
  outcome r = Ok tt
  ∧ ∀ i p, parents !! i = Some p →
      ∃ k first others,
        get_primary_key_tuple (source_mapper self) p = Ok k
        ∧ matching_rows self k table = first :: others
        ∧ states r !! i = Some (<[key self := VDict first]> p).
Proof.
  intros Hul Hall. cbn zeta.
  destruct via_parent_table_states as [Ho Hs].
  { intros p Hp. destruct (Hall p Hp) as (k & Hk & Hh & _ & Hm).
    exists k. split_and!; [done..|]. unfold table_collection.
    by destruct (matching_rows self k table). }
  split; [exact Ho|]. intros i p Hi.
  destruct (Hs i p Hi) as (k & Hk & ->).
  destruct (Hall p (list_elem_of_lookup_2 _ _ _ Hi)) as (k' & Hk' & _ & _ & Hm).
  assert (k' = k) as -> by congruence.
  destruct (matching_rows self k table) as [|first others] eqn:Em; [done|].
  exists k, first, others. split_and!; [done..|].
  unfold table_collection, stored_value. by rewrite Em, Hul.
Qed.
End via_parent_result.

Lemma one_to_many_collects_matching_rows_witness :
  let r := load (one_to_many true 1)
             (table_connection ["owner_id"] true items)
             [owner 10; owner 20; owner 30] in
  outcome r = Ok tt
  ∧ states r
    = [<["items" := VList [Some (item 100 10); Some (item 101 10)]]> (owner 10);
       <["items" := VList [Some (item 200 20)]]> (owner 20);
       <["items" := VList []]> (owner 30)].
Proof.
  destruct (one_to_many_collects_matching_rows (one_to_many true 1) items
              [owner 10; owner 20; owner 30])
    as [Ho Hs]; [reflexivity|reflexivity|vm_compute; lia|discriminate
                |reflexivity| |].
  - intros p Hp. apply list_elem_of_In in Hp.
    destruct Hp as [<-|[<-|[<-|[]]]]; eexists; split_and!; reflexivity.
  - split; [exact Ho|]. vm_compute. reflexivity.
Defined.

Lemma singular_via_parent_takes_first_match_witness :
  let r := load (one_to_many false 2)
             (table_connection ["owner_id"] true items)
             [owner 10; owner 20] in
  outcome r = Ok tt
  ∧ states r = [<["items" := VDict (item 100 10)]> (owner 10);
                <["items" := VDict (item 200 20)]> (owner 20)].
Proof.
  destruct (singular_via_parent_takes_first_match (one_to_many false 2) items
              [owner 10; owner 20])
    as [Ho Hs]; [reflexivity|reflexivity|vm_compute; lia|discriminate
                |reflexivity| |].
  - intros p Hp. apply list_elem_of_In in Hp.
    destruct Hp as [<-|[<-|[]]]; eexists; split_and!;
      try reflexivity; discriminate.
  - split; [exact Ho|]. vm_compute. reflexivity.
Defined.

(** ** The two dicts built from the fetched rows *)

Lemma pd_set_members {K A} `{EqDecision K} (k : K) (a : A)
    (d : list (K * list A)) :
  mjoin (pd_values (pd_set k (default [] (pd_get k d) ++ [a]) d))
  ≡ₚ a :: mjoin (pd_values d).
Proof.
  unfold pd_values. induction d as [|[k' g] d IH]; cbn; [done|].
  destruct (decide (k = k')) as [->|Hne]; cbn.
  - rewrite <- app_assoc. cbn. symmetry. apply Permutation_middle.
  - rewrite IH. symmetry. apply Permutation_middle.
Qed.

Lemma foldl_extend1_members {A} (keyed : list (key_tuple * A)) : ∀ d,
  NoDup (pd_keys d) →
  NoDup (pd_keys (foldl dd_extend1 d keyed))
  ∧ mjoin (pd_values (foldl dd_extend1 d keyed))
    ≡ₚ mjoin (pd_values d) ++ keyed.*2.
Proof.
  induction keyed as [|[k a] keyed IH]; intros d Hd.
  - cbn. by rewrite app_nil_r.
  - cbn [foldl]. destruct (IH (dd_extend1 d (k, a))) as [Hn Hp].
    { by apply pd_keys_set_NoDup. }
    split; [done|]. rewrite Hp. unfold dd_extend1, dd_extend. cbn [fst snd].
    rewrite pd_set_members. cbn. apply Permutation_middle.
Qed.

Lemma keyed_rows_snd (self : JSelectInLoader) rows : ∀ keyed,
  tuple_of (fun row => k ← get_foreign_key_tuple row (query_info self);
                       Ok (embed_key k, row)) rows = Ok keyed →
  keyed.*2 = rows.
Proof.
  induction rows as [|row rows IH]; intros keyed.
  - by intros [= <-].
  - rewrite tuple_of_cons.
    destruct (get_foreign_key_tuple row (query_info self)) as [kk| |]; cbn;
      [|done..].
    destruct (tuple_of _ rows) as [keyed'| |]; [|done..].
    intros [= <-]. cbn. by rewrite (IH _ eq_refl).
Qed.

Lemma rows_with_columns {V} (cols : list string) (rows : list (gmap string V)) :
  (∀ row c, row ∈ rows → c ∈ cols → is_Some (row !! c)) →
  Forall (fun row => ∃ kk, tuple_of (getitem row) cols = Ok kk) rows.
Proof.
  intros Hall. apply Forall_forall. intros row Hrow.
  destruct (tuple_of_getitem_outcome row cols)
    as [(t & Ht & _)|(c & _ & Hc & Hn)]; [by exists t|].
  destruct (Hall row c Hrow Hc) as [v Hv]. congruence.
Qed.

(** When every fetched row has the foreign key columns, the grouping of
    [_load_via_parent] succeeds and loses nothing: the dict has each key
    once, a key is in it exactly when some row has that foreign key tuple,
    its list holds all the rows with that tuple in the order they were
    fetched, whether or not they came one after the other, and the lists
    together hold every fetched row exactly once. *)
Theorem group_rows_collects (self : JSelectInLoader) (rows : list SARow) :
  (∀ row c, row ∈ rows → c ∈ pk_cols (query_info self) → is_Some (row !! c)) →
  ∃ data, group_rows self rows = Ok data
    ∧ NoDup (pd_keys data)
    ∧ (∀ k, pd_get k data = match matching_rows self k rows with
                            | [] => None
                            | rs => Some rs
                            end)
    ∧ mjoin (pd_values data) ≡ₚ rows.
Proof.
  intros Hall.
  destruct (group_rows_total self rows) as [data Hd].
  { by apply rows_with_columns. }
  exists data. split; [done|]. split_and!.
  - unfold group_rows in Hd.
    destruct (tuple_of _ rows) as [keyed| |]; [|done..]. cbn in Hd.
    injection Hd as <-. rewrite groupby_extend.
    apply foldl_extend1_members, NoDup_nil_2.
  - intros k. by apply group_rows_get.
  - unfold group_rows in Hd.
    destruct (tuple_of _ rows) as [keyed| |] eqn:Ek; [|done..]. cbn in Hd.
    injection Hd as <-. rewrite groupby_extend.
    destruct (foldl_extend1_members keyed []) as [_ ->]; [apply NoDup_nil_2|].
    cbn. by rewrite (keyed_rows_snd self rows keyed Ek).
Qed.

Lemma group_rows_collects_witness :
  ∃ data, group_rows (one_to_many true 500)
            [item 100 10; item 200 20; item 101 10] = Ok data
    ∧ pd_get [VInt 10] data = Some [item 100 10; item 101 10].
Proof.
  destruct (group_rows_collects (one_to_many true 500)
              [item 100 10; item 200 20; item 101 10])
    as (data & Hd & _ & Hget & _).
  - intros row c Hrow Hc. apply list_elem_of_In in Hrow, Hc.
    destruct Hc as [<-|[]].
    destruct Hrow as [<-|[<-|[<-|[]]]]; eexists; reflexivity.
  - exists data. split; [exact Hd|]. rewrite Hget. reflexivity.
Defined.

Lemma rows_by_pk_keys (self : JSelectInLoader) rows : ∀ d data,
  rows_by_pk self rows d = Ok data → NoDup (pd_keys d) → NoDup (pd_keys data).
Proof.
  induction rows as [|row rows IH]; intros d data.
  - by intros [= <-].
  - cbn [rows_by_pk].
    destruct (get_primary_key_tuple (target_mapper self) row) as [kk| |]; cbn;
      [|done..].
    intros Hd Hn. eapply IH; [done|]. by apply pd_keys_set_NoDup.
Qed.

(** When every fetched row has the primary key columns of the target, the
    dict comprehension of [_load_via_child] succeeds; the dict has each
    primary key tuple once, it maps a key to the last fetched row with that
    primary key tuple (an earlier row with the same key is dropped), and
    its values, which are the rows the generator yields for the batch, are
    fetched rows, no more of them than there were. *)
Theorem rows_by_pk_last_wins (self : JSelectInLoader) (rows : list SARow) :
  (∀ row c, row ∈ rows → c ∈ primary_key (target_mapper self) →
            is_Some (row !! c)) →
  ∃ data, rows_by_pk self rows [] = Ok data
    ∧ NoDup (pd_keys data)
    ∧ (∀ k, pd_get k data = last_with_key self k rows)
    ∧ (∀ row, row ∈ pd_values data → row ∈ rows)
    ∧ (length data ≤ length rows)%nat.
Proof.
  intros Hall.
  destruct (rows_by_pk_total self rows []) as [data Hd].
  { by apply rows_with_columns. }
  exists data. split; [done|]. split_and!.
  - eapply rows_by_pk_keys; [done|]. apply NoDup_nil_2.
  - intros k. rewrite (rows_by_pk_get _ _ _ _ k Hd). cbn.
    by destruct (last_with_key self k rows).
  - intros row Hrow.
    by destruct (rows_by_pk_values _ _ _ _ _ Hd Hrow) as [?|?%elem_of_nil].
  - clear Hall. change (length data ≤ length (@nil (key_tuple * SARow)) + length rows)%nat.
    revert Hd. generalize (@nil (key_tuple * SARow)). revert data.
    induction rows as [|row rows IH]; intros data d.
    + intros [= <-]. cbn. lia.
    + cbn [rows_by_pk].
      destruct (get_primary_key_tuple (target_mapper self) row) as [kk| |]; cbn;
        [|done..].
      intros Hd%IH. etransitivity; [exact Hd|].
      assert (length (pd_set (embed_key kk) row d) ≤ S (length d))%nat; [|lia].
      clear. induction d as [|[k0 v0] d IHd]; cbn; [lia|].
      destruct (decide (embed_key kk = k0)); cbn; lia.
Qed.

Lemma rows_by_pk_last_wins_witness :
  ∃ data, rows_by_pk (many_to_one false 500) [target 5; target 6; target_X] []
          = Ok data
    ∧ pd_get [VInt 5] data = Some target_X.
Proof.
  destruct (rows_by_pk_last_wins (many_to_one false 500)
              [target 5; target 6; target_X])
    as (data & Hd & _ & Hget & _).
  - intros row c Hrow Hc. apply list_elem_of_In in Hrow, Hc.
    destruct Hc as [<-|[]].
    destruct Hrow as [<-|[<-|[<-|[]]]]; eexists; reflexivity.
  - exists data. split; [exact Hd|]. rewrite Hget. reflexivity.
Defined.

(** ** Nothing to look up *)

Lemma prepare_child_all_null cols rest : ∀ i our none,
  (∀ p, p ∈ rest → ∃ k, tuple_of (getitem p) cols = Ok k
                        ∧ contains_None k = true) →
  prepare_child cols i rest our none
  = Ok (ByKey our (none ++ seq i (length rest))).
Proof.
  induction rest as [|p rest IH]; intros i our none Hall.
  - cbn. by rewrite app_nil_r.
  - rewrite prepare_child_cons.
    destruct (Hall p) as (k & -> & ->); [apply elem_of_cons; auto|].
    rewrite IH.
    + cbn [length seq]. by rewrite <- app_assoc.
    + intros q Hq. apply Hall, elem_of_cons. auto.
Qed.

(** MANYTOONE, and every parent record has a null in its foreign key (or
    there is no parent at all): the call returns without having executed a
    query, written a field or yielded a row. The parents are all in
    [none_states], and the loop that would set their field to [None] is
    inside the [while] loop, which is not entered. *)
Theorem all_null_keys_is_a_no_op (self : JSelectInLoader)
    (connection : list bound -> result (list SARow))
    (parents : list SARowDict) :
  load_with_join (query_info self) = false →
  load_only_child (query_info self) = true →
  (∀ p, p ∈ parents →
     ∃ k, tuple_of (getitem p) (child_lookup_cols (query_info self)) = Ok k
          ∧ contains_None k = true) →
  prepare_states self parents = Ok (ByKey [] (seq 0 (length parents)))
  ∧ load self connection parents = Run parents [] (Ok tt).
Proof.
  intros Hj Hc Hall.
  assert (prepare_states self parents = Ok (ByKey [] (seq 0 (length parents))))
    as Hp.
  { unfold prepare_states. rewrite Hj, Hc.
    by rewrite (prepare_child_all_null _ _ 0 [] [] Hall). }
  split; [done|]. unfold load. rewrite Hp.
  unfold fetch_results_and_populate_states. by rewrite Hc.
Qed.

Lemma all_null_keys_is_a_no_op_witness :
  load (many_to_one true 3) (table_connection ["id"] true [target 5])
    [child 1 SNone; child 2 SNone; child 3 SNone]
  = Run [child 1 SNone; child 2 SNone; child 3 SNone] [] (Ok tt).
Proof.
  apply (all_null_keys_is_a_no_op (many_to_one true 3)
           (table_connection ["id"] true [target 5])
           [child 1 SNone; child 2 SNone; child 3 SNone]);
    [reflexivity|reflexivity|].
  intros p Hp. apply list_elem_of_In in Hp.
  destruct Hp as [<-|[<-|[<-|[]]]]; eexists; split; reflexivity.
Defined.

(** ** What a ONETOMANY load yields, and when it warns *)

Lemma for_each_hom {A X} (h : list event -> list X) (F : A -> list X)
    (body : A -> M unit) (l : list A) :
  h [] = [] → (∀ a b, h (a ++ b) = h a ++ h b) →
  ∀ sts,
  (∀ x s, x ∈ l → outcome (body x s) = Ok tt ∧ h (events (body x s)) = F x) →
  outcome (for_each l body sts) = Ok tt
  ∧ h (events (for_each l body sts)) = l ≫= F.
Proof.
  intros Hnil Happ. induction l as [|x l IH]; intros sts Hb; [done|].
  cbn [for_each]. unfold mbind at 1 2, M_bind.
  destruct (Hb x sts) as [-> Hx]; [apply elem_of_cons; auto|].
  cbn [states events outcome].
  destruct (IH (states (body x sts))) as [-> Hl].
  { intros y s Hy. apply Hb, elem_of_cons. auto. }
  split; [done|]. by rewrite Happ, Hx, Hl.
Qed.

Lemma chunk_loop_hom {A X} n (step : list A -> M unit)
    (h : list event -> list X) (F : A -> list X) fuel l sts :
  h [] = [] → (∀ a b, h (a ++ b) = h a ++ h b) →
  (1 ≤ n)%nat → (length l ≤ fuel)%nat →
  (∀ chunk s, chunk ⊆ l →
     outcome (step chunk s) = Ok tt ∧ h (events (step chunk s)) = chunk ≫= F) →
  h (events (chunk_loop n step fuel l sts)) = l ≫= F.
Proof.
  intros Hnil Happ Hn. revert l sts.
  induction fuel as [|fuel IH]; intros [|x l] sts Hf Hstep; try done.
  - cbn in Hf. lia.
  - rewrite chunk_loop_cons. unfold mbind at 1, M_bind.
    destruct (Hstep (take n (x :: l)) sts) as [-> Hx]; [apply subseteq_take|].
    cbn [states events outcome]. rewrite Happ, Hx, IH.
    + by rewrite <- bind_app, take_drop.
    + rewrite length_drop. cbn in *. lia.
    + intros chunk s Hsub. apply Hstep.
      intros y Hy. eapply subseteq_drop. by apply Hsub.
Qed.

Lemma yielded_app a b : yielded (a ++ b) = yielded a ++ yielded b.
Proof. apply bind_app. Qed.

Lemma warnings_app a b : warnings (a ++ b) = warnings a ++ warnings b.
Proof. apply List.filter_app. Qed.

Lemma yielded_yields (rows : list SARow) : yielded (EvYield <$> rows) = rows.
Proof.
  induction rows as [|r rows IH]; [done|].
  unfold yielded in *. rewrite fmap_cons, bind_cons, IH. done.
Qed.

Lemma warnings_yields (rows : list SARow) : warnings (EvYield <$> rows) = [].
Proof. by induction rows. Qed.

Section via_parent_trace.
Context (self : JSelectInLoader) (table : list SARow) (parents : list SARowDict).
Context (Hj : load_with_join (query_info self) = false).
Context (Hc : load_only_child (query_info self) = false).
Context (HB : (1 ≤ CHUNKSIZE self)%nat).
Context (Hcols : primary_key (source_mapper self) ≠ []).
Context (Hall : ∀ p, p ∈ parents →
     ∃ k, get_primary_key_tuple (source_mapper self) p = Ok k
          ∧ hash_check k = Ok tt ∧ contains_None k = false
          ∧ (uselist self = true ∨ matching_rows self k table ≠ [])).

Let connection :=
  table_connection (pk_cols (query_info self)) (zero_idx (query_info self)) table.

Lemma via_parent_table_hom {X} (h : list event -> list X)
    (F : key_tuple -> list X) :
  h [] = [] → (∀ a b, h (a ++ b) = h a ++ h b) →
  (∀ pks, h [EvExecute pks] = []) →
  (∀ k i, is_Some (table_collection self table k) →
     h (warning self (table_collection self table k)
        ++ EvSetItem i (key self)
             (stored_value self (table_collection self table k))
        :: (EvYield <$> default [] (table_collection self table k))) = F k) →
  ∃ keys,
    Forall2 (fun p k => get_primary_key_tuple (source_mapper self) p = Ok k)
      parents keys
    ∧ h (events (load self connection parents)) = keys ≫= F.
Proof.
  intros Hnil Happ Hex HF. unfold load, prepare_states. rewrite Hj, Hc.
  destruct (prepare_parent (source_mapper self) 0 parents) as [l| |] eqn:El.
  2,3: exfalso; revert El; clear -Hall; generalize 0%nat;
    induction parents as [|p ps IH]; intros i0; [done|];
    rewrite prepare_parent_cons;
    destruct (Hall p) as (k & -> & _); [apply elem_of_cons; auto|]; cbn;
    specialize (IH (fun q Hq => Hall q (proj2 (elem_of_cons _ _ _) (or_intror Hq)))
                   (S i0));
    by destruct (prepare_parent (source_mapper self) (S i0) ps).
  destruct (prepare_parent_spec _ _ _ _ El) as [Hidx HF2].
  change (Listed <$> Ok l) with (Ok (Listed l) : result prepared).
  cbv beta iota. unfold fetch_results_and_populate_states. rewrite Hc.
  exists l.*1. split.
  { apply Forall2_fmap_r. eapply Forall2_impl; [exact HF2|]. done. }
  assert (∀ ks, ks ∈ l →
            hash_check ks.1 = Ok tt
            ∧ is_Some (table_collection self table ks.1)
            ∧ ∃ b, bind_key (zero_idx (query_info self)) ks.1 = Ok b) as Hl.
  { intros ks [n Hn]%list_elem_of_lookup.
    destruct (Forall2_lookup_r _ _ _ _ _ HF2 Hn) as (p & Hp & Hk).
    destruct (Hall p (list_elem_of_lookup_2 _ _ _ Hp)) as (k & Hk' & Hh & _ & Hm).
    assert (k = ks.1) as -> by congruence. split_and!; [done| |].
    - unfold table_collection, _empty_result.
      destruct Hm as [->|Hm]; by destruct (matching_rows self ks.1 table).
    - apply bind_key_total. intros _ Hnl.
      unfold get_primary_key_tuple in Hk. apply tuple_of_length in Hk.
      rewrite Hnl in Hk. by destruct (primary_key (source_mapper self)). }
  unfold _load_via_parent. rewrite via_parent_loop_eq.
  rewrite (chunk_loop_hom _ _ h (fun ks => F ks.1)); [|done..|].
  { clear. induction l as [|ks l IH]; [done|]. cbn. by rewrite IH. }
  intros chunk s Hsub. rewrite via_parent_chunk_run.
  destruct (tuple_of_total
    (fun ks : key_tuple * nat => bind_key (zero_idx (query_info self)) ks.1) chunk)
    as [pks Hpks].
  { intros ks Hks. by destruct (Hl ks (Hsub _ Hks)) as (_ & _ & ?). }
  rewrite Hpks. cbn [and_then]. unfold connection, table_connection.
  cbn [and_then].
  destruct (group_rows_total self
    (List.filter (row_matches (pk_cols (query_info self))
                    (zero_idx (query_info self)) pks) table)) as [data Hd].
  { apply Forall_forall. intros row Hrow.
    apply list_elem_of_In, List.filter_In in Hrow as [_ Hm].
    by apply row_matches_has_key in Hm. }
  rewrite Hd. cbn [and_then]. cbn zeta. cbn [states events outcome].
  destruct (for_each_hom h (fun ks : key_tuple * nat => F ks.1)
              (populate_parent self data) chunk Hnil Happ s) as [Ho Hh].
  { intros [k i] s' Hks. rewrite populate_parent_run.
    destruct (Hl (k, i) (Hsub _ Hks)) as (Hh & Hs & b & Hb). cbn [fst] in *.
    rewrite Hh. cbn [and_then]. cbn zeta. cbn [events outcome].
    assert (b ∈ pks) as Hin by by apply (tuple_of_elem _ _ _ (k, i) b Hpks Hks).
    rewrite (table_collection_eq self table pks data k b Hd Hb Hin).
    split; [by destruct Hs as [c ->]|]. by apply HF. }
  split; [done|].
  change (EvExecute pks :: ?e) with ([EvExecute pks] ++ e).
  by rewrite Happ, Hex, Hh.
Qed.

(** ONETOMANY or MANYTOMANY over a table of target rows, with a chunk size
    of at least one, and parents that all have a hashable, non-null primary
    key and, if the relationship is singular, at least one matching row:
    the rows yielded are, parent by parent in the order the parents were
    given, all the rows of the table whose foreign key tuple is the
    parent's primary key tuple, in table order. For a singular relationship
    this includes the rows after the first one, which are not attached to
    the parent. The chunk size has no part in it. *)
Theorem one_to_many_yields_every_matching_row :
  ∃ keys,
    Forall2 (fun p k => get_primary_key_tuple (source_mapper self) p = Ok k)
      parents keys
    ∧ yielded (events (load self connection parents))
      = keys ≫= fun k => matching_rows self k table.
Proof.
  apply (via_parent_table_hom yielded); [done|apply yielded_app|done|].
  intros k i _. rewrite yielded_app. cbn.
  rewrite yielded_yields.
  assert (yielded (warning self (table_collection self table k)) = []) as ->.
  { unfold warning.
    by destruct (uselist self), (table_collection self table k)
      as [[|? [|? ?]]|]. }
  unfold table_collection, _empty_result.
  by destruct (matching_rows self k table), (uselist self).
Qed.

(** Under the same conditions, the call warns once for every parent of a
    singular relationship that has more than one matching row in the table,
    and never for a plural relationship. *)
Theorem one_warning_per_ambiguous_parent :
  ∃ keys,
    Forall2 (fun p k => get_primary_key_tuple (source_mapper self) p = Ok k)
      parents keys
    ∧ length (warnings (events (load self connection parents)))
      = if uselist self then 0%nat
        else length (List.filter
               (fun k => (2 <=? length (matching_rows self k table))%nat) keys).
Proof.
  destruct (via_parent_table_hom warnings
    (fun k => if uselist self then []
              else if (2 <=? length (matching_rows self k table))%nat
                   then [EvWarn] else []))
    as (keys & HF & ->); [done|apply warnings_app|done| |].
  - intros k i _. rewrite warnings_app. cbn.
    rewrite warnings_yields, app_nil_r.
    unfold warning, table_collection, _empty_result.
    destruct (uselist self); [by destruct (matching_rows self k table)|].
    by destruct (matching_rows self k table) as [|? [|? ?]].
  - exists keys. split; [done|].
    destruct (uselist self).
    + clear. by induction keys.
    + clear. induction keys as [|k keys IH]; [done|].
      rewrite bind_cons, length_app, IH. cbn [List.filter].
      by destruct (2 <=? length (matching_rows self k table))%nat.
Qed.
End via_parent_trace.

Lemma one_to_many_yields_every_matching_row_witness :
  yielded (events (load (one_to_many false 1)
                     (table_connection ["owner_id"] true items)
                     [owner 20; owner 10; owner 10]))
  = [item 200 20; item 100 10; item 101 10; item 100 10; item 101 10].
Proof.
  destruct (one_to_many_yields_every_matching_row (one_to_many false 1) items
              [owner 20; owner 10; owner 10])
    as (keys & HF & Hy);
    [reflexivity|reflexivity|vm_compute; lia|discriminate| |].
  - intros p Hp. apply list_elem_of_In in Hp.
    destruct Hp as [<-|[<-|[<-|[]]]]; eexists; split_and!;
      try reflexivity; right; discriminate.
  - etransitivity; [exact Hy|]. clear Hy.
    apply Forall2_cons_inv_l in HF as (k1 & keys1 & [= <-] & HF & ->).
    apply Forall2_cons_inv_l in HF as (k2 & keys2 & [= <-] & HF & ->).
    apply Forall2_cons_inv_l in HF as (k3 & keys3 & [= <-] & HF & ->).
    apply Forall2_nil_inv_l in HF as ->. reflexivity.
Defined.

Lemma one_warning_per_ambiguous_parent_witness :
  length (warnings (events (load (one_to_many false 1)
                              (table_connection ["owner_id"] true items)
                              [owner 20; owner 10; owner 10]))) = 2%nat.
Proof.
  destruct (one_warning_per_ambiguous_parent (one_to_many false 1) items
              [owner 20; owner 10; owner 10])
    as (keys & HF & Hy);
    [reflexivity|reflexivity|vm_compute; lia|discriminate| |].
  - intros p Hp. apply list_elem_of_In in Hp.
    destruct Hp as [<-|[<-|[<-|[]]]]; eexists; split_and!;
      try reflexivity; right; discriminate.
  - etransitivity; [exact Hy|]. clear Hy.
    apply Forall2_cons_inv_l in HF as (k1 & keys1 & [= <-] & HF & ->).
    apply Forall2_cons_inv_l in HF as (k2 & keys2 & [= <-] & HF & ->).
    apply Forall2_cons_inv_l in HF as (k3 & keys3 & [= <-] & HF & ->).
    apply Forall2_nil_inv_l in HF as ->. reflexivity.
Defined.

(** ** The parents with a null foreign key *)

Lemma writes_to_app i a b : writes_to i (a ++ b) = writes_to i a ++ writes_to i b.
Proof. apply bind_app. Qed.

Lemma executed_add a b : executed (a ++ b) = (executed a + executed b)%nat.
Proof. unfold executed. by rewrite List.filter_app, length_app. Qed.

Lemma writes_to_others i k ws :
  (∀ v, (i, v) ∉ ws) → writes_to i (write_events k ws) = [].
Proof.
  induction ws as [|[j v] ws IH]; intros Hno; [done|].
  unfold writes_to, write_events in *. rewrite fmap_cons, bind_cons. cbn [fst snd].
  rewrite decide_False.
  - cbn. apply IH. intros v' Hv'. apply (Hno v'), elem_of_cons. auto.
  - intros ->. apply (Hno v), elem_of_cons. auto.
Qed.

Lemma writes_to_none i k (none : list nat) :
  NoDup none → i ∈ none →
  writes_to i (write_events k ((fun j => (j, VNone)) <$> none)) = [VNone].
Proof.
  induction 1 as [|j none Hj Hnd IH]; intros Hi; [by apply elem_of_nil in Hi|].
  unfold writes_to, write_events in *. rewrite !fmap_cons, bind_cons. cbn [fst snd].
  destruct (decide (j = i)) as [->|Hne].
  - cbn. f_equal.
    apply (writes_to_others i k ((fun j => (j, VNone)) <$> none)).
    intros v (j & [= <- _] & Hin)%list_elem_of_fmap. done.
  - cbn. apply IH. by apply elem_of_cons in Hi as [->|Hi].
Qed.

Lemma writes_to_yields i (rows : list SARow) : writes_to i (EvYield <$> rows) = [].
Proof. by induction rows. Qed.

(** MANYTOONE, for a call that returns: a parent with a null in its foreign
    key has its relationship field set to [None] once for every query the
    call executed, and to nothing else. The loop over [none_states] is
    inside the [while] loop, so there is no write without a query and one
    more with every further batch. *)
Theorem null_key_parent_written_once_per_query (self : JSelectInLoader)
    (connection : list bound -> result (list SARow))
    (parents : list SARowDict) (our_states : list (key_tuple * list nat))
    (none_states : list nat) (i : nat) :
  prepare_states self parents = Ok (ByKey our_states none_states) →
  i ∈ none_states →
  outcome (load self connection parents) = Ok tt →
  writes_to i (events (load self connection parents))
  = replicate (executed (events (load self connection parents))) VNone.
Proof.
  intros Hp Hi.
  pose proof (prepare_states_cases self parents) as Hout. rewrite Hp in Hout.
  destruct Hout as [Hj Hchild].
  destruct (load_only_child (query_info self)) eqn:Hc;
    [|by destruct Hchild as (? & ? & _)].
  destruct (prepare_states_child_ok self parents _ Hc Hp)
    as (our & none & [= <- <-] & Hok).
  assert (NoDup none_states) as Hnd.
  { pose proof Hp as Hp'. unfold prepare_states in Hp'. rewrite Hj, Hc in Hp'.
    pose proof (prepare_child_members _ _ _ _ _ _ _ Hp') as Hperm.
    cbn in Hperm. eapply (NoDup_app (mjoin our_states.*2)).
    rewrite Hperm. apply NoDup_seq. }
  assert (∀ k, i ∉ default [] (pd_get k our_states)) as Hout.
  { intros k Hin. destruct (pd_get k our_states) as [g|] eqn:Eg;
      [|by apply elem_of_nil in Hin].
    pose proof (po_group _ _ _ _ _ Hok _ _ _ Eg Hin) as Hk.
    destruct (po_keys _ _ _ _ _ Hok k (pd_get_Some_keys _ _ _ Eg)) as [Hnn _].
    destruct (po_none _ _ _ _ _ Hok i Hi) as (k' & Hk' & Hn'). congruence. }
  apply (load_runs self connection parents
    (fun evs o => o = Ok tt →
                  writes_to i evs = replicate (executed evs) VNone)).
  - done.
  - intros e1 e2 o H1 H2 Ho.
    by rewrite writes_to_app, executed_add, replicate_add, H1, H2.
  - intros our none chunk sts Hp' _. cbn zeta.
    assert (our = our_states ∧ none = none_states) as [-> ->]
      by (split; congruence).
    rewrite via_child_chunk_run.
    destruct (tuple_of _ chunk) as [pks| |]; cbn [and_then events outcome];
      [|done..].
    destruct (connection pks) as [rows| |]; cbn [and_then events outcome];
      [|done..].
    destruct (rows_by_pk self rows []) as [data| |];
      cbn [and_then events outcome]; [|done..].
    cbn zeta. cbn [events outcome]. intros _.
    change (EvExecute pks :: ?e) with ([EvExecute pks] ++ e).
    rewrite executed_add, !writes_to_app,
      (executed_no_execute (write_events _ _ ++ _)).
    2: { apply Forall_app. split;
           [apply no_execute_write_events|apply no_execute_yields]. }
    rewrite writes_to_yields. unfold child_writes.
    rewrite write_events_app, writes_to_app, writes_to_others.
    + by rewrite writes_to_none.
    + intros v (k & Hin & Hk)%list_elem_of_bind.
      apply list_elem_of_fmap in Hin as (j & [= <- _] & Hin).
      by apply (Hout k).
  - intros l chunk sts Hp' _. congruence.
Qed.

Lemma null_key_parent_written_once_per_query_witness :
  writes_to 3 (events (load (many_to_one false 1)
                         (table_connection ["id"] true [target 5; target 6])
                         [child 1 (SInt 5); child 2 (SInt 6); child 3 (SInt 7);
                          child 4 SNone]))
  = [VNone; VNone; VNone].
Proof.
  rewrite (null_key_parent_written_once_per_query (many_to_one false 1)
             (table_connection ["id"] true [target 5; target 6])
             [child 1 (SInt 5); child 2 (SInt 6); child 3 (SInt 7);
              child 4 SNone]
             [([VInt 5], [0%nat]); ([VInt 6], [1%nat]); ([VInt 7], [2%nat])]
             [3%nat] 3); [reflexivity|reflexivity| |reflexivity].
  apply elem_of_cons. by left.
Defined.

(** A warning is given only in the ONETOMANY and MANYTOMANY path, only for
    a singular relationship, and only after a query of the call has
    returned two or more rows with the same foreign key tuple. *)
Theorem warning_means_several_rows_for_singular (self : JSelectInLoader)
    (connection : list bound -> result (list SARow))
    (parents : list SARowDict) :
  EvWarn ∈ events (load self connection parents) →
  load_only_child (query_info self) = false
  ∧ uselist self = false
  ∧ ∃ pks rows k r1 r2 others,
      EvExecute pks ∈ events (load self connection parents)
      ∧ connection pks = Ok rows
      ∧ matching_rows self k rows = r1 :: r2 :: others.
Proof.
  apply (load_events self connection parents
    (fun evs => EvWarn ∈ evs →
       load_only_child (query_info self) = false
       ∧ uselist self = false
       ∧ ∃ pks rows k r1 r2 others,
           EvExecute pks ∈ evs ∧ connection pks = Ok rows
           ∧ matching_rows self k rows = r1 :: r2 :: others)).
  - by intros ?%elem_of_nil.
  - intros a b Ha Hb [Hin|Hin]%elem_of_app.
    + destruct (Ha Hin) as (? & ? & pks & rows & k & r1 & r2 & o & ? & ? & ?).
      split_and!; [done..|]. exists pks, rows, k, r1, r2, o.
      split_and!; [|done..]. apply elem_of_app. auto.
    + destruct (Hb Hin) as (? & ? & pks & rows & k & r1 & r2 & o & ? & ? & ?).
      split_and!; [done..|]. exists pks, rows, k, r1, r2, o.
      split_and!; [|done..]. apply elem_of_app. auto.
  - intros our none rem sts _ _ _ _. rewrite via_child_chunk_run.
    destruct (tuple_of _ (take _ rem)) as [pks| |]; cbn [and_then events];
      try (by intros ?%elem_of_nil).
    destruct (connection pks) as [rows| |] eqn:Hc; cbn [and_then events];
      try (by intros [[=]|?%elem_of_nil]%elem_of_cons).
    destruct (rows_by_pk self rows []) as [data| |] eqn:Hd; cbn [and_then events];
      try (by intros [[=]|?%elem_of_nil]%elem_of_cons).
    cbn zeta. cbn [events].
    intros [[=]|[Hin|Hin]%elem_of_app]%elem_of_cons.
    + by apply write_events_elem in Hin as (? & ? & [=] & _).
    + by apply list_elem_of_fmap in Hin as (? & [=] & _).
  - intros l rem sts _ Hchild _ _. rewrite via_parent_chunk_run.
    destruct (tuple_of _ (take _ rem)) as [pks| |]; cbn [and_then events];
      try (by intros ?%elem_of_nil).
    destruct (connection pks) as [rows| |] eqn:Hc; cbn [and_then events];
      try (by intros [[=]|?%elem_of_nil]%elem_of_cons).
    destruct (group_rows self rows) as [data| |] eqn:Hd; cbn [and_then events];
      try (by intros [[=]|?%elem_of_nil]%elem_of_cons).
    cbn zeta. cbn [events]. intros [[=]|Hin]%elem_of_cons.
    split; [done|].
    assert (uselist self = false
            ∧ ∃ k r1 r2 others, matching_rows self k rows = r1 :: r2 :: others)
      as (Hul & k & r1 & r2 & others & Hm).
    { revert Hin.
      apply (for_each_events (fun evs => EvWarn ∈ evs →
        uselist self = false
        ∧ ∃ k r1 r2 others, matching_rows self k rows = r1 :: r2 :: others)).
      - by intros ?%elem_of_nil.
      - intros a b Ha Hb [?|?]%elem_of_app; auto.
      - intros [k i] s _. rewrite populate_parent_run.
        destruct (hash_check k); cbn [and_then events];
          try (by intros ?%elem_of_nil).
        cbn zeta. cbn [events].
        intros [Hin|[[=]|Hin]%elem_of_cons]%elem_of_app;
          [|by apply list_elem_of_fmap in Hin as (? & [=] & _)].
        unfold warning, collection_of in Hin.
        rewrite (group_rows_get _ _ _ k Hd) in Hin.
        destruct (uselist self) eqn:Hul.
        + by destruct (matching_rows self k rows), (_empty_result self);
            apply elem_of_nil in Hin.
        + split; [done|]. exists k.
          destruct (matching_rows self k rows) as [|r1 [|r2 others]] eqn:Em.
          * unfold _empty_result in Hin. rewrite Hul in Hin.
            by apply elem_of_nil in Hin.
          * by apply elem_of_nil in Hin.
          * by exists r1, r2, others. }
    split; [done|]. exists pks, rows, k, r1, r2, others.
    split_and!; [|done..]. apply elem_of_cons. auto.
Qed.

Lemma warning_means_several_rows_for_singular_witness :
  load_only_child (query_info (one_to_many false 500)) = false
  ∧ uselist (one_to_many false 500) = false
  ∧ ∃ pks rows k r1 r2 others,
      EvExecute pks ∈ events (load (one_to_many false 500)
                                (table_connection ["owner_id"] true items)
                                [owner 10])
      ∧ table_connection ["owner_id"] true items pks = Ok rows
      ∧ matching_rows (one_to_many false 500) k rows = r1 :: r2 :: others.
Proof.
  apply (warning_means_several_rows_for_singular (one_to_many false 500)
           (table_connection ["owner_id"] true items) [owner 10]).
  vm_compute. apply elem_of_cons. right. apply elem_of_cons. by left.
Defined.

(** ** The kind of value written *)

(** For a descriptor whose MANYTOONE relationships are singular, which is
    how SqlAlchemy sets [load_only_child], every value the generator writes
    has the cardinality of the relationship, for every executor and
    however the call ends: a list of rows when [uselist] is set, and a row
    or [None], never a list, when it is not. *)
Theorem written_values_have_cardinality (self : JSelectInLoader)
    (connection : list bound -> result (list SARow))
    (parents : list SARowDict) (i : nat) (f : string) (v : value) :
  (load_only_child (query_info self) = true → uselist self = false) →
  EvSetItem i f v ∈ events (load self connection parents) →
  if uselist self then ∃ rows : list SARow, v = VList (Some <$> rows)
  else v = VNone ∨ ∃ row, v = VDict row.
Proof.
  intros Hsingular. revert i f v.
  apply (load_events self connection parents
    (fun evs => ∀ i f v, EvSetItem i f v ∈ evs →
       if uselist self then ∃ rows : list SARow, v = VList (Some <$> rows)
       else v = VNone ∨ ∃ row, v = VDict row)).
  - intros i f v Hin. by apply elem_of_nil in Hin.
  - intros a b Ha Hb i f v [H|H]%elem_of_app;
      [by apply (Ha i f v)|by apply (Hb i f v)].
  - intros our none rem sts _ Hc _ _ i f v. rewrite via_child_chunk_run.
    destruct (tuple_of _ (take _ rem)) as [pks| |]; cbn [and_then events];
      try (by intros ?%elem_of_nil).
    destruct (connection pks) as [rows| |]; cbn [and_then events];
      try (by intros [[=]|?%elem_of_nil]%elem_of_cons).
    destruct (rows_by_pk self rows []) as [data| |]; cbn [and_then events];
      try (by intros [[=]|?%elem_of_nil]%elem_of_cons).
    cbn zeta. cbn [events].
    intros [[=]|[Hin|Hin]%elem_of_app]%elem_of_cons;
      [|by apply list_elem_of_fmap in Hin as (? & [=] & _)].
    apply write_events_elem in Hin as (i' & v' & [= _ _ ->] & Hin).
    rewrite (Hsingular Hc).
    apply child_writes_elem in Hin as [(k & _ & _ & ->)|[_ ->]]; [|by left].
    unfold related_value. rewrite (Hsingular Hc). cbn.
    destruct (pd_get k data) as [row|]; [right; by exists row|by left].
  - intros l rem sts _ _ _ _ i f v. rewrite via_parent_chunk_run.
    destruct (tuple_of _ (take _ rem)) as [pks| |]; cbn [and_then events];
      try (by intros ?%elem_of_nil).
    destruct (connection pks) as [rows| |]; cbn [and_then events];
      try (by intros [[=]|?%elem_of_nil]%elem_of_cons).
    destruct (group_rows self rows) as [data| |] eqn:Hd; cbn [and_then events];
      try (by intros [[=]|?%elem_of_nil]%elem_of_cons).
    cbn zeta. cbn [events]. intros [[=]|Hin]%elem_of_cons.
    revert i f v Hin.
    apply (for_each_events (fun evs => ∀ i f v, EvSetItem i f v ∈ evs →
       if uselist self then ∃ rows : list SARow, v = VList (Some <$> rows)
       else v = VNone ∨ ∃ row, v = VDict row)).
    + intros i f v Hin. by apply elem_of_nil in Hin.
    + intros a b Ha Hb i f v [H|H]%elem_of_app;
      [by apply (Ha i f v)|by apply (Hb i f v)].
    + intros [k j] s _ i f v. rewrite populate_parent_run.
      destruct (hash_check k); cbn [and_then events];
        try (by intros ?%elem_of_nil).
      cbn zeta. cbn [events].
      intros [Hin%warning_elem|[[= _ _ ->]|Hin]%elem_of_cons]%elem_of_app;
        [done| |by apply list_elem_of_fmap in Hin as (? & [=] & _)].
      unfold stored_value, collection_of, collection_value, _empty_result.
      rewrite (group_rows_get _ _ _ k Hd).
      destruct (uselist self).
      * destruct (matching_rows self k rows) as [|r rs]; by eexists.
      * destruct (matching_rows self k rows) as [|r rs]; [by left|].
        right. by exists r.
Qed.

Lemma written_values_have_cardinality_witness :
  ∃ rows : list SARow, VList [Some (item 200 20)] = VList (Some <$> rows).
Proof.
  apply (written_values_have_cardinality (one_to_many true 1)
           (table_connection ["owner_id"] true items) [owner 30; owner 20]
           1 "items" (VList [Some (item 200 20)])).
  - discriminate.
  - vm_compute. do 3 (apply elem_of_cons; right). apply elem_of_cons. by left.
Defined.
